(** * Floorplan editor: document model, history engine, command layer,
      wall-drawing gestures and agent bridge

    Shallow embedding of
      - src/types/floorplan.ts          (data model, DEFAULTS, FURNITURE_DIMENSIONS)
      - src/store/floorplan-store.ts    (history engine and command layer)
      - src/hooks/useFabric.ts          (snapToGridPoint, wheel zoom)
      - src/components/toolbar/Toolbar.tsx
          (FloorplanCanvas: handleMouseDown / handleMouseMove / handleMouseUp;
           ChatPanel: executeToolCall, the streaming loop and the request
           body of handleSubmit; Toolbar: zoom buttons)
      - src/store/ui-store.ts           (selection, panels, zoom, toggles)
      - src/store/chat-store.ts         (messages)
      - settings-store.ts               (API keys, provider, model)
      - src/app/api/chat/route.ts       (checks of POST on the request body)

    Conventions.
      - A JavaScript [number] is an exact rational ([Q]); NaN and the
        infinities are outside the model, and so is rounding error, with
        one exception: the length test of [handleMouseUp], the one place
        where a decision hinges on rounding, is computed as the code
        computes it, in IEEE 754 doubles ([round64], [Math_sqrt]).
      - A string holds the bytes of its UTF-8 encoding; [js_length]
        counts its UTF-16 code units as [s.length] does.
      - [generateId()] reads the clock and a random source; every
        operation that calls it takes the generated id as an argument.
      - The store is a zustand store wrapped in the immer middleware:
        [set(recipe)] runs [recipe] on a draft of the current state and
        installs the finalised draft.  Inside a recipe [state.present] is a
        reference to one mutable draft object, and a reference stored in
        two places of the draft tree finalises to one and the same object.
        The embedding therefore runs recipes on a small store of
        locations ([Draft]) and dereferences it at the end ([finalize]). *)

From stdpp Require Import base option list strings gmap.
From Stdlib Require Import QArith Qround Qabs Lqa Qminmax Qpower.

Close Scope Q_scope.

(** * Embedding of the source *)

(** ** Data model (src/types/floorplan.ts) *)

Record Point := { pt_x : Q; pt_y : Q }.

Inductive Units := imperial | metric.

Inductive RoomType :=
  | bedroom | bathroom | kitchen | living | dining | office
  | hallway | closet | laundry | garage | other.

Inductive SwingDirection := swing_left | swing_right.

Record Wall := {
  wall_id : string;
  wall_start : Point;
  wall_end : Point;
  wall_thickness : Q
}.

Record Door := {
  door_id : string;
  door_wallId : string;
  door_position : Q;
  door_width : Q;
  door_swingDirection : SwingDirection;
  door_swingInward : bool
}.

Record Window := {
  window_id : string;
  window_wallId : string;
  window_position : Q;
  window_width : Q;
  window_height : Q
}.

Record Room := {
  room_id : string;
  room_name : string;
  room_type : RoomType;
  room_wallIds : list string;
  room_color : option string
}.

Record FurnitureItem := {
  furniture_id : string;
  furniture_type : string;
  furniture_position : Point;
  furniture_rotation : Q;
  furniture_width : Q;
  furniture_height : Q;
  furniture_label : option string
}.

Record Floorplan := {
  fp_id : string;
  name : string;
  units : Units;
  scale : Q;
  gridSize : Q;
  walls : list Wall;
  doors : list Door;
  windows : list Window;
  rooms : list Room;
  furniture : list FurnitureItem;
  backgroundImage : option string
}.

Module DEFAULTS.
Definition wallThickness : Q := 6.
Definition doorWidth : Q := 32.
Definition windowWidth : Q := 36.
Definition windowHeight : Q := 48.
Definition gridSize : Q := 12.
Definition snapIncrement : Q := 6.
Definition scale : Q := 10.
End DEFAULTS.

(** [createEmptyFloorplan()]; [id] stands for the [generateId()] result. *)
Definition createEmptyFloorplan (id : string) : Floorplan :=
  {| fp_id := id;
     name := "Untitled Floorplan";
     units := imperial;
     scale := DEFAULTS.scale;
     gridSize := DEFAULTS.gridSize;
     walls := [];
     doors := [];
     windows := [];
     rooms := [];
     furniture := [];
     backgroundImage := None |}.

#[global] Instance Floorplan_inhabited : Inhabited Floorplan :=
  populate (createEmptyFloorplan "").

(** Field assignments [state.present.f = v]. *)
Definition set_name (v : string) (p : Floorplan) : Floorplan :=
  {| fp_id := fp_id p; name := v; units := units p; scale := scale p;
     gridSize := gridSize p; walls := walls p; doors := doors p;
     windows := windows p; rooms := rooms p; furniture := furniture p;
     backgroundImage := backgroundImage p |}.

Definition set_units (v : Units) (p : Floorplan) : Floorplan :=
  {| fp_id := fp_id p; name := name p; units := v; scale := scale p;
     gridSize := gridSize p; walls := walls p; doors := doors p;
     windows := windows p; rooms := rooms p; furniture := furniture p;
     backgroundImage := backgroundImage p |}.

Definition set_backgroundImage (v : option string) (p : Floorplan) : Floorplan :=
  {| fp_id := fp_id p; name := name p; units := units p; scale := scale p;
     gridSize := gridSize p; walls := walls p; doors := doors p;
     windows := windows p; rooms := rooms p; furniture := furniture p;
     backgroundImage := v |}.

Definition set_walls (v : list Wall) (p : Floorplan) : Floorplan :=
  {| fp_id := fp_id p; name := name p; units := units p; scale := scale p;
     gridSize := gridSize p; walls := v; doors := doors p;
     windows := windows p; rooms := rooms p; furniture := furniture p;
     backgroundImage := backgroundImage p |}.

Definition set_doors (v : list Door) (p : Floorplan) : Floorplan :=
  {| fp_id := fp_id p; name := name p; units := units p; scale := scale p;
     gridSize := gridSize p; walls := walls p; doors := v;
     windows := windows p; rooms := rooms p; furniture := furniture p;
     backgroundImage := backgroundImage p |}.

Definition set_windows (v : list Window) (p : Floorplan) : Floorplan :=
  {| fp_id := fp_id p; name := name p; units := units p; scale := scale p;
     gridSize := gridSize p; walls := walls p; doors := doors p;
     windows := v; rooms := rooms p; furniture := furniture p;
     backgroundImage := backgroundImage p |}.

Definition set_rooms (v : list Room) (p : Floorplan) : Floorplan :=
  {| fp_id := fp_id p; name := name p; units := units p; scale := scale p;
     gridSize := gridSize p; walls := walls p; doors := doors p;
     windows := windows p; rooms := v; furniture := furniture p;
     backgroundImage := backgroundImage p |}.

Definition set_furniture (v : list FurnitureItem) (p : Floorplan) : Floorplan :=
  {| fp_id := fp_id p; name := name p; units := units p; scale := scale p;
     gridSize := gridSize p; walls := walls p; doors := doors p;
     windows := windows p; rooms := rooms p; furniture := v;
     backgroundImage := backgroundImage p |}.

(** ** Partial updates ([Partial<Omit<T, 'id'>>] and [Object.assign]) *)

Record WallUpdates := {
  wu_start : option Point;
  wu_end : option Point;
  wu_thickness : option Q
}.

Record DoorUpdates := {
  du_wallId : option string;
  du_position : option Q;
  du_width : option Q;
  du_swingDirection : option SwingDirection;
  du_swingInward : option bool
}.

Record WindowUpdates := {
  nu_wallId : option string;
  nu_position : option Q;
  nu_width : option Q;
  nu_height : option Q
}.

(** [color] and [label] are optional fields of the target too: a present
    key may carry [undefined], hence the nested option. *)
Record RoomUpdates := {
  ru_name : option string;
  ru_type : option RoomType;
  ru_wallIds : option (list string);
  ru_color : option (option string)
}.

Record FurnitureUpdates := {
  fu_type : option string;
  fu_position : option Point;
  fu_rotation : option Q;
  fu_width : option Q;
  fu_height : option Q;
  fu_label : option (option string)
}.

Definition assign_wall (u : WallUpdates) (w : Wall) : Wall :=
  {| wall_id := wall_id w;
     wall_start := default (wall_start w) (wu_start u);
     wall_end := default (wall_end w) (wu_end u);
     wall_thickness := default (wall_thickness w) (wu_thickness u) |}.

Definition assign_door (u : DoorUpdates) (d : Door) : Door :=
  {| door_id := door_id d;
     door_wallId := default (door_wallId d) (du_wallId u);
     door_position := default (door_position d) (du_position u);
     door_width := default (door_width d) (du_width u);
     door_swingDirection := default (door_swingDirection d) (du_swingDirection u);
     door_swingInward := default (door_swingInward d) (du_swingInward u) |}.

Definition assign_window (u : WindowUpdates) (w : Window) : Window :=
  {| window_id := window_id w;
     window_wallId := default (window_wallId w) (nu_wallId u);
     window_position := default (window_position w) (nu_position u);
     window_width := default (window_width w) (nu_width u);
     window_height := default (window_height w) (nu_height u) |}.

Definition assign_room (u : RoomUpdates) (r : Room) : Room :=
  {| room_id := room_id r;
     room_name := default (room_name r) (ru_name u);
     room_type := default (room_type r) (ru_type u);
     room_wallIds := default (room_wallIds r) (ru_wallIds u);
     room_color := default (room_color r) (ru_color u) |}.

Definition assign_furniture (u : FurnitureUpdates) (f : FurnitureItem) : FurnitureItem :=
  {| furniture_id := furniture_id f;
     furniture_type := default (furniture_type f) (fu_type u);
     furniture_position := default (furniture_position f) (fu_position u);
     furniture_rotation := default (furniture_rotation f) (fu_rotation u);
     furniture_width := default (furniture_width f) (fu_width u);
     furniture_height := default (furniture_height f) (fu_height u);
     furniture_label := default (furniture_label f) (fu_label u) |}.

(** [const e = xs.find(P); if (e) Object.assign(e, updates)]:
    the first element satisfying [P] is patched in place. *)
Definition find_assign {A} (P : A → Prop) `{!∀ a, Decision (P a)}
    (f : A → A) (xs : list A) : list A :=
  match list_find P xs with
  | Some (i, _) => alter f i xs
  | None => xs
  end.

(** ** History engine (src/store/floorplan-store.ts) *)

Record HistoryState := {
  past : list Floorplan;
  present : Floorplan;
  future : list Floorplan
}.

Definition MAX_HISTORY : nat := 50.

(** [xs.slice(-n)]: the last [n] elements, all of [xs] when it is shorter. *)
Definition slice_last {A} (n : nat) (xs : list A) : list A :=
  drop (length xs - n) xs.

(** [xs.slice(0, -1)]: all but the last element. *)
Definition slice_init {A} (xs : list A) : list A :=
  take (length xs - 1) xs.

(** *** Drafts

    [set(recipe)] hands [recipe] an immer draft of the state.  Reading
    [state.present] yields the draft of the present document, the same
    one on every read; [state.present.walls.push(w)] and
    [state.present.walls = ...] write through it.  An expression such as
    [[...state.past, state.present]] therefore builds an array that holds
    that draft, not a copy of the document.  When the recipe returns,
    every place of the new state that holds a draft receives the one
    finalised object of that draft: the base document if the draft was
    never written to, the written copy otherwise.

    [Draft] makes the references explicit: the three fields of the state
    hold locations, [d_heap] gives the current content of each location. *)
Abbreviation Loc := nat (only parsing).

Record Draft := {
  d_past : list Loc;
  d_present : Loc;
  d_future : list Loc;
  d_heap : list Floorplan
}.

(** Drafts are made per position of the base state: the entries of
    [past], [present] and the entries of [future] get locations of their
    own, laid out in this order. *)
Definition createDraft (h : HistoryState) : Draft :=
  {| d_past := seq 0 (length (past h));
     d_present := length (past h);
     d_future := seq (S (length (past h))) (length (future h));
     d_heap := past h ++ present h :: future h |}.

Definition deref (d : Draft) (l : Loc) : Floorplan := d_heap d !!! l.

Definition finalize (d : Draft) : HistoryState :=
  {| past := deref d <$> d_past d;
     present := deref d (d_present d);
     future := deref d <$> d_future d |}.

(** [set(recipe)] of the immer middleware. *)
Definition produce (recipe : Draft → Draft) (h : HistoryState) : HistoryState :=
  finalize (recipe (createDraft h)).

(** Mutation through the reference [state.present]:
    [state.present.f = v], [state.present.xs.push(v)], ... *)
Definition mutate_present (f : Floorplan → Floorplan) (d : Draft) : Draft :=
  {| d_past := d_past d;
     d_present := d_present d;
     d_future := d_future d;
     d_heap := alter f (d_present d) (d_heap d) |}.

(** Rebinding [state.present = v] to a new object. *)
Definition assign_present (v : Floorplan) (d : Draft) : Draft :=
  {| d_past := d_past d;
     d_present := length (d_heap d);
     d_future := d_future d;
     d_heap := d_heap d ++ [v] |}.

(** [Object.assign(state, pushToHistory(state))]: the new [past] holds the
    reference [state.present]; [present] keeps it too. *)
Definition pushToHistory (d : Draft) : Draft :=
  {| d_past := slice_last MAX_HISTORY (d_past d ++ [d_present d]);
     d_present := d_present d;
     d_future := [];
     d_heap := d_heap d |}.

Definition undo_recipe (d : Draft) : Draft :=
  match last (d_past d) with
  | None => d
  | Some previous =>
      {| d_past := slice_init (d_past d);
         d_present := previous;
         d_future := d_present d :: d_future d;
         d_heap := d_heap d |}
  end.

Definition redo_recipe (d : Draft) : Draft :=
  match d_future d with
  | [] => d
  | next :: rest =>
      {| d_past := d_past d ++ [d_present d];
         d_present := next;
         d_future := rest;
         d_heap := d_heap d |}
  end.

Definition undo : HistoryState → HistoryState := produce undo_recipe.
Definition redo : HistoryState → HistoryState := produce redo_recipe.

Definition canUndo (h : HistoryState) : bool := bool_decide (0 < length (past h)).
Definition canRedo (h : HistoryState) : bool := bool_decide (0 < length (future h)).

(** ** Command layer (src/store/floorplan-store.ts)

    Each definition is the recipe passed to [set]. *)

Definition setFloorplan_recipe (floorplan : Floorplan) (d : Draft) : Draft :=
  assign_present floorplan (pushToHistory d).

Definition resetFloorplan_recipe (id : string) (d : Draft) : Draft :=
  assign_present (createEmptyFloorplan id) (pushToHistory d).

Definition setName_recipe (v : string) (d : Draft) : Draft :=
  mutate_present (set_name v) d.

Definition setUnits_recipe (v : Units) (d : Draft) : Draft :=
  mutate_present (set_units v) (pushToHistory d).

Definition setBackgroundImage_recipe (v : option string) (d : Draft) : Draft :=
  mutate_present (set_backgroundImage v) (pushToHistory d).

Definition addWall_recipe (id : string) (start end_ : Point) (thickness : Q)
    (d : Draft) : Draft :=
  mutate_present
    (λ p, set_walls
            (walls p ++ [{| wall_id := id; wall_start := start;
                            wall_end := end_; wall_thickness := thickness |}]) p)
    (pushToHistory d).

Definition updateWall_recipe (id : string) (updates : WallUpdates) (d : Draft) : Draft :=
  mutate_present
    (λ p, set_walls (find_assign (λ w, wall_id w = id) (assign_wall updates) (walls p)) p)
    (pushToHistory d).

Definition removeWall_recipe (id : string) (d : Draft) : Draft :=
  let d := pushToHistory d in
  let d := mutate_present (λ p, set_walls (filter (λ w, wall_id w ≠ id) (walls p)) p) d in
  let d := mutate_present (λ p, set_doors (filter (λ x, door_wallId x ≠ id) (doors p)) p) d in
  mutate_present (λ p, set_windows (filter (λ w, window_wallId w ≠ id) (windows p)) p) d.

Definition addDoor_recipe (id wallId : string) (position width : Q) (d : Draft) : Draft :=
  mutate_present
    (λ p, set_doors
            (doors p ++ [{| door_id := id; door_wallId := wallId;
                            door_position := position; door_width := width;
                            door_swingDirection := swing_left;
                            door_swingInward := true |}]) p)
    (pushToHistory d).

Definition updateDoor_recipe (id : string) (updates : DoorUpdates) (d : Draft) : Draft :=
  mutate_present
    (λ p, set_doors (find_assign (λ x, door_id x = id) (assign_door updates) (doors p)) p)
    (pushToHistory d).

Definition removeDoor_recipe (id : string) (d : Draft) : Draft :=
  mutate_present (λ p, set_doors (filter (λ x, door_id x ≠ id) (doors p)) p)
    (pushToHistory d).

Definition addWindow_recipe (id wallId : string) (position width height : Q)
    (d : Draft) : Draft :=
  mutate_present
    (λ p, set_windows
            (windows p ++ [{| window_id := id; window_wallId := wallId;
                              window_position := position; window_width := width;
                              window_height := height |}]) p)
    (pushToHistory d).

Definition updateWindow_recipe (id : string) (updates : WindowUpdates) (d : Draft) : Draft :=
  mutate_present
    (λ p, set_windows
            (find_assign (λ w, window_id w = id) (assign_window updates) (windows p)) p)
    (pushToHistory d).

Definition removeWindow_recipe (id : string) (d : Draft) : Draft :=
  mutate_present (λ p, set_windows (filter (λ w, window_id w ≠ id) (windows p)) p)
    (pushToHistory d).

Definition addRoom_recipe (id name_ : string) (type : RoomType) (wallIds : list string)
    (d : Draft) : Draft :=
  mutate_present
    (λ p, set_rooms
            (rooms p ++ [{| room_id := id; room_name := name_; room_type := type;
                            room_wallIds := wallIds; room_color := None |}]) p)
    (pushToHistory d).

Definition updateRoom_recipe (id : string) (updates : RoomUpdates) (d : Draft) : Draft :=
  mutate_present
    (λ p, set_rooms (find_assign (λ r, room_id r = id) (assign_room updates) (rooms p)) p)
    (pushToHistory d).

Definition removeRoom_recipe (id : string) (d : Draft) : Draft :=
  mutate_present (λ p, set_rooms (filter (λ r, room_id r ≠ id) (rooms p)) p)
    (pushToHistory d).

Definition addFurniture_recipe (id type : string) (position : Point) (width height : Q)
    (d : Draft) : Draft :=
  mutate_present
    (λ p, set_furniture
            (furniture p ++ [{| furniture_id := id; furniture_type := type;
                                furniture_position := position;
                                furniture_rotation := 0;
                                furniture_width := width;
                                furniture_height := height;
                                furniture_label := None |}]) p)
    (pushToHistory d).

Definition updateFurniture_recipe (id : string) (updates : FurnitureUpdates)
    (d : Draft) : Draft :=
  mutate_present
    (λ p, set_furniture
            (find_assign (λ f, furniture_id f = id) (assign_furniture updates)
               (furniture p)) p)
    (pushToHistory d).

Definition removeFurniture_recipe (id : string) (d : Draft) : Draft :=
  mutate_present (λ p, set_furniture (filter (λ f, furniture_id f ≠ id) (furniture p)) p)
    (pushToHistory d).

Definition removeSelected_recipe (ids : list string) (d : Draft) : Draft :=
  let d := pushToHistory d in
  let d := mutate_present (λ p, set_walls (filter (λ w, wall_id w ∉ ids) (walls p)) p) d in
  let d := mutate_present (λ p, set_doors (filter (λ x, door_id x ∉ ids) (doors p)) p) d in
  let d := mutate_present (λ p, set_windows (filter (λ w, window_id w ∉ ids) (windows p)) p) d in
  let d := mutate_present
             (λ p, set_furniture (filter (λ f, furniture_id f ∉ ids) (furniture p)) p) d in
  mutate_present (λ p, set_rooms (filter (λ r, room_id r ∉ ids) (rooms p)) p) d.

(** The store actions.  Optional parameters ([thickness?], [width?],
    [height?]) take their DEFAULTS value when absent. *)
Definition setFloorplan (floorplan : Floorplan) := produce (setFloorplan_recipe floorplan).
Definition resetFloorplan (id : string) := produce (resetFloorplan_recipe id).
Definition setName (v : string) := produce (setName_recipe v).
Definition setUnits (v : Units) := produce (setUnits_recipe v).
Definition setBackgroundImage (v : option string) := produce (setBackgroundImage_recipe v).
Definition addWall (id : string) (start end_ : Point) (thickness : option Q) :=
  produce (addWall_recipe id start end_ (default DEFAULTS.wallThickness thickness)).
Definition updateWall (id : string) (u : WallUpdates) := produce (updateWall_recipe id u).
Definition removeWall (id : string) := produce (removeWall_recipe id).
Definition addDoor (id wallId : string) (position : Q) (width : option Q) :=
  produce (addDoor_recipe id wallId position (default DEFAULTS.doorWidth width)).
Definition updateDoor (id : string) (u : DoorUpdates) := produce (updateDoor_recipe id u).
Definition removeDoor (id : string) := produce (removeDoor_recipe id).
Definition addWindow (id wallId : string) (position : Q) (width height : option Q) :=
  produce (addWindow_recipe id wallId position
             (default DEFAULTS.windowWidth width) (default DEFAULTS.windowHeight height)).
Definition updateWindow (id : string) (u : WindowUpdates) := produce (updateWindow_recipe id u).
Definition removeWindow (id : string) := produce (removeWindow_recipe id).
Definition addRoom (id name_ : string) (type : RoomType) (wallIds : list string) :=
  produce (addRoom_recipe id name_ type wallIds).
Definition updateRoom (id : string) (u : RoomUpdates) := produce (updateRoom_recipe id u).
Definition removeRoom (id : string) := produce (removeRoom_recipe id).
Definition addFurniture (id type : string) (position : Point) (width height : Q) :=
  produce (addFurniture_recipe id type position width height).
Definition updateFurniture (id : string) (u : FurnitureUpdates) :=
  produce (updateFurniture_recipe id u).
Definition removeFurniture (id : string) := produce (removeFurniture_recipe id).
Definition removeSelected (ids : list string) := produce (removeSelected_recipe ids).

(** The mutating commands as data, to talk about sequences of calls. *)
Inductive Command :=
  | SetFloorplan (floorplan : Floorplan)
  | ResetFloorplan (id : string)
  | SetName (v : string)
  | SetUnits (v : Units)
  | SetBackgroundImage (v : option string)
  | AddWall (id : string) (start end_ : Point) (thickness : option Q)
  | UpdateWall (id : string) (u : WallUpdates)
  | RemoveWall (id : string)
  | AddDoor (id wallId : string) (position : Q) (width : option Q)
  | UpdateDoor (id : string) (u : DoorUpdates)
  | RemoveDoor (id : string)
  | AddWindow (id wallId : string) (position : Q) (width height : option Q)
  | UpdateWindow (id : string) (u : WindowUpdates)
  | RemoveWindow (id : string)
  | AddRoom (id name_ : string) (type : RoomType) (wallIds : list string)
  | UpdateRoom (id : string) (u : RoomUpdates)
  | RemoveRoom (id : string)
  | AddFurniture (id type : string) (position : Point) (width height : Q)
  | UpdateFurniture (id : string) (u : FurnitureUpdates)
  | RemoveFurniture (id : string)
  | RemoveSelected (ids : list string).

Definition exec (c : Command) : HistoryState → HistoryState :=
  match c with
  | SetFloorplan fp => setFloorplan fp
  | ResetFloorplan id => resetFloorplan id
  | SetName v => setName v
  | SetUnits v => setUnits v
  | SetBackgroundImage v => setBackgroundImage v
  | AddWall id s e t => addWall id s e t
  | UpdateWall id u => updateWall id u
  | RemoveWall id => removeWall id
  | AddDoor id w p wd => addDoor id w p wd
  | UpdateDoor id u => updateDoor id u
  | RemoveDoor id => removeDoor id
  | AddWindow id w p wd ht => addWindow id w p wd ht
  | UpdateWindow id u => updateWindow id u
  | RemoveWindow id => removeWindow id
  | AddRoom id n t ws => addRoom id n t ws
  | UpdateRoom id u => updateRoom id u
  | RemoveRoom id => removeRoom id
  | AddFurniture id t p w ht => addFurniture id t p w ht
  | UpdateFurniture id u => updateFurniture id u
  | RemoveFurniture id => removeFurniture id
  | RemoveSelected ids => removeSelected ids
  end.

(** Commands applied left to right. *)
Definition run (cs : list Command) (h : HistoryState) : HistoryState :=
  foldl (λ h c, exec c h) h cs.

(** The store as created: empty history around an empty document. *)
Definition initialState (id : string) : HistoryState :=
  {| past := []; present := createEmptyFloorplan id; future := [] |}.

(** ** Snapping (src/hooks/useFabric.ts) *)

(** [Math.round]: the nearest integer, halves towards plus infinity. *)
Definition Math_round (q : Q) : Q := inject_Z (Qfloor (q + (1 # 2))).

Definition snapSize : Q := (DEFAULTS.snapIncrement * DEFAULTS.scale)%Q.

(** [snapToGrid] is the flag of the UI store the hook closes over. *)
Definition snapToGridPoint (snapToGrid : bool) (x y : Q) : Point :=
  if negb snapToGrid then {| pt_x := x; pt_y := y |}
  else {| pt_x := (Math_round (x / snapSize) * snapSize)%Q;
          pt_y := (Math_round (y / snapSize) * snapSize)%Q |}.

(** ** Double precision (IEEE 754 binary64), for the one place where a
       decision depends on rounding

    A double is 0 or [± m * 2 ^ e] with [m < 2 ^ 53] and [e >= -1074].
    [round64] maps a rational to the nearest double, ties to the even
    significand, as every arithmetic operation of JavaScript does with
    its exact result.  Overflow to an infinity is not modelled. *)

Definition pow2 (e : Z) : Q := (2 ^ e)%Q.

(** [floor (log2 |q|)] for [q] other than 0. *)
Definition binade (q : Q) : Z :=
  let k := (Z.log2 (Z.abs (Qnum q)) - Z.log2 (Zpos (Qden q)))%Z in
  if Qle_bool (pow2 k) (Qabs q) then k else (k - 1)%Z.

(** The nearest integer, ties to the even one. *)
Definition round_half_even (x : Q) : Z :=
  let f := Qfloor x in
  match (x - inject_Z f ?= (1 # 2))%Q with
  | Lt => f
  | Gt => (f + 1)%Z
  | Eq => if Z.even f then f else (f + 1)%Z
  end.

(** Exponent of the last place of the doubles around [q]: 52 binary
    places below its binade, and never below the subnormal spacing. *)
Definition quantum (q : Q) : Z := Z.max (binade q - 52) (-1074).

Definition round64 (q : Q) : Q :=
  (inject_Z (round_half_even (q / pow2 (quantum q))) * pow2 (quantum q))%Q.

Definition double_sub (a b : Q) : Q := round64 (a - b).
Definition double_mul (a b : Q) : Q := round64 (a * b).
Definition double_add (a b : Q) : Q := round64 (a + b).

(** [Math.sqrt(s)] for a double [s >= 0]: the double nearest to the real
    square root.  With [p] the exponent of the last place of the result,
    [c = floor (sqrt s / 2 ^ p)] is an integer square root, and the root
    is rounded up exactly when [s] lies above the square of the midpoint
    of [c * 2 ^ p] and [(c + 1) * 2 ^ p]. *)
Definition Math_sqrt (s : Q) : Q :=
  let p := (binade s / 2 - 52)%Z in
  let c := Z.sqrt (Qfloor (s / pow2 (2 * p))) in
  let mid := ((inject_Z c + (1 # 2)) * pow2 p)%Q in
  (inject_Z match (s ?= mid * mid)%Q with
            | Lt => c
            | Gt => (c + 1)%Z
            | Eq => if Z.even c then c else (c + 1)%Z
            end * pow2 p)%Q.

(** ** Wall-drawing gestures (FloorplanCanvas in Toolbar.tsx) *)

Inductive Tool :=
  | tool_select | tool_pan | tool_wall | tool_door | tool_window
  | tool_room | tool_furniture | tool_measure.

#[global] Instance Tool_eq_dec : EqDecision Tool.
Proof. solve_decision. Defined.

(** What the three mouse handlers read and write: the UI store's
    [activeTool] and [snapToGrid], the component's [isDrawing] state and
    its [drawStartRef] / [previewLineRef] refs, and whether
    [fabricRef.current] holds a canvas. *)
Record CanvasState := {
  activeTool : Tool;
  snapToGrid : bool;
  isDrawing : bool;
  drawStartRef : option Point;
  previewLineRef : option (Point * Point);
  hasCanvas : bool
}.

(** [snapToGrid ? snapToGridPoint(pointer.x, pointer.y) : {x: pointer.x, y: pointer.y}] *)
Definition snapped_pointer (st : CanvasState) (pointer : Point) : Point :=
  if snapToGrid st then snapToGridPoint (snapToGrid st) (pt_x pointer) (pt_y pointer)
  else {| pt_x := pt_x pointer; pt_y := pt_y pointer |}.

Definition handleMouseDown (st : CanvasState) (pointer : Point) : CanvasState :=
  if negb (bool_decide (activeTool st = tool_wall)) then st
  else if negb (hasCanvas st) then st
  else
    let snapped := snapped_pointer st pointer in
    {| activeTool := activeTool st;
       snapToGrid := snapToGrid st;
       isDrawing := true;
       drawStartRef := Some snapped;
       previewLineRef := Some (snapped, snapped);
       hasCanvas := hasCanvas st |}.

Definition handleMouseMove (st : CanvasState) (pointer : Point) : CanvasState :=
  if negb (isDrawing st) || negb (bool_decide (activeTool st = tool_wall)) then st
  else
    match hasCanvas st, previewLineRef st, drawStartRef st with
    | true, Some (p1, _), Some _ =>
        let snapped := snapped_pointer st pointer in
        {| activeTool := activeTool st;
           snapToGrid := snapToGrid st;
           isDrawing := isDrawing st;
           drawStartRef := drawStartRef st;
           previewLineRef := Some (p1, snapped);
           hasCanvas := hasCanvas st |}
    | _, _, _ => st
    end.

(** The exact squared straight-line distance between two points. *)
Definition dist2 (a b : Point) : Q :=
  let dx := (pt_x b - pt_x a)%Q in
  let dy := (pt_y b - pt_y a)%Q in
  (dx * dx + dy * dy)%Q.

(** [dx], [dy] and [length] of [handleMouseUp], as the doubles the code
    computes:
    [dx = snapped.x - start.x], [dy = snapped.y - start.y],
    [length = Math.sqrt(dx * dx + dy * dy)]. *)
Definition gesture_length (start snapped : Point) : Q :=
  let dx := double_sub (pt_x snapped) (pt_x start) in
  let dy := double_sub (pt_y snapped) (pt_y start) in
  Math_sqrt (double_add (double_mul dx dx) (double_mul dy dy)).

Definition to_inches (p : Point) : Point :=
  {| pt_x := (pt_x p / DEFAULTS.scale)%Q; pt_y := (pt_y p / DEFAULTS.scale)%Q |}.

(** [handleMouseUp]: the new component state and the store calls made.
    [id] is what [generateId()] returns should [addWall] be called. *)
Definition handleMouseUp (id : string) (st : CanvasState) (pointer : Point)
    : CanvasState * list Command :=
  if negb (isDrawing st) || negb (bool_decide (activeTool st = tool_wall)) then (st, [])
  else
    match hasCanvas st, drawStartRef st with
    | true, Some start =>
        let snapped := snapped_pointer st pointer in
        let calls :=
          if negb (Qle_bool (gesture_length start snapped) 10)
          then [AddWall id (to_inches start) (to_inches snapped) None]
          else [] in
        ({| activeTool := activeTool st;
            snapToGrid := snapToGrid st;
            isDrawing := false;
            drawStartRef := None;
            previewLineRef := None;
            hasCanvas := hasCanvas st |}, calls)
    | _, _ => (st, [])
    end.

(** ** Agent bridge (ChatPanel in Toolbar.tsx) *)

(** Values a parsed tool call can carry ([JSON.parse] output, plus
    [undefined] for a key that is not there). *)
#[local] Set Warnings "-register-all".
Inductive jsval :=
  | JUndefined
  | JNull
  | JBool (b : bool)
  | JNum (q : Q)
  | JStr (s : string)
  | JArr (vs : list jsval)
  | JObj (kvs : list (string * jsval)).
#[local] Set Warnings "register-all".

(** [args.k] *)
Definition arg (args : gmap string jsval) (k : string) : jsval :=
  default JUndefined (args !! k).

(** JavaScript truthiness, as tested by [if (v)] and [!!v]. *)
Definition truthy (v : jsval) : bool :=
  match v with
  | JUndefined | JNull => false
  | JBool b => b
  | JNum q => negb (Qeq_bool q 0)
  | JStr s => negb (bool_decide (s = ""))
  | JArr _ | JObj _ => true
  end.

(** [v === true] *)
Definition strictly_true (v : jsval) : bool :=
  match v with JBool true => true | _ => false end.

(** The [args as {...}] casts are unchecked.  An argument that is stored
    in the document is read at its declared type; a value of another
    runtime type has no counterpart in the typed document model and the
    call is left unmodelled ([None]).  An argument that is only tested
    ([confirm]) is taken as it comes. *)
Definition as_number (v : jsval) : option Q :=
  match v with JNum q => Some q | _ => None end.

Definition as_string (v : jsval) : option string :=
  match v with JStr s => Some s | _ => None end.

(** An optional number: absent, or a number. *)
Definition as_optional_number (v : jsval) : option (option Q) :=
  match v with
  | JUndefined => Some None
  | JNum q => Some (Some q)
  | _ => None
  end.

Definition as_string_list (v : jsval) : option (list string) :=
  match v with
  | JArr vs => mapM as_string vs
  | _ => None
  end.

Definition as_RoomType (v : jsval) : option RoomType :=
  s ← as_string v;
  if decide (s = "bedroom") then Some bedroom
  else if decide (s = "bathroom") then Some bathroom
  else if decide (s = "kitchen") then Some kitchen
  else if decide (s = "living") then Some living
  else if decide (s = "dining") then Some dining
  else if decide (s = "office") then Some office
  else if decide (s = "hallway") then Some hallway
  else if decide (s = "closet") then Some closet
  else if decide (s = "laundry") then Some laundry
  else if decide (s = "garage") then Some garage
  else if decide (s = "other") then Some other
  else None.

(** [FURNITURE_DIMENSIONS]: width, height (depth) and label per type,
    the own properties of the object. *)
Record Dimensions := { dim_width : Q; dim_height : Q; dim_label : string }.

Definition FURNITURE_DIMENSIONS : gmap string Dimensions :=
  list_to_map
    [ ("bed-twin", Build_Dimensions 39 75 "Twin Bed");
      ("bed-full", Build_Dimensions 54 75 "Full Bed");
      ("bed-queen", Build_Dimensions 60 80 "Queen Bed");
      ("bed-king", Build_Dimensions 76 80 "King Bed");
      ("sofa-2", Build_Dimensions 60 36 "2-Seat Sofa");
      ("sofa-3", Build_Dimensions 84 36 "3-Seat Sofa");
      ("dining-table-4", Build_Dimensions 48 36 "Dining Table (4)");
      ("dining-table-6", Build_Dimensions 72 36 "Dining Table (6)");
      ("desk", Build_Dimensions 60 30 "Desk");
      ("chair", Build_Dimensions 20 20 "Chair");
      ("armchair", Build_Dimensions 32 34 "Armchair");
      ("coffee-table", Build_Dimensions 48 24 "Coffee Table");
      ("nightstand", Build_Dimensions 24 18 "Nightstand");
      ("dresser", Build_Dimensions 60 18 "Dresser");
      ("toilet", Build_Dimensions 18 28 "Toilet");
      ("sink-bathroom", Build_Dimensions 24 20 "Bathroom Sink");
      ("bathtub", Build_Dimensions 60 32 "Bathtub");
      ("shower", Build_Dimensions 36 36 "Shower");
      ("sink-kitchen", Build_Dimensions 33 22 "Kitchen Sink");
      ("stove", Build_Dimensions 30 26 "Stove");
      ("refrigerator", Build_Dimensions 36 30 "Refrigerator");
      ("dishwasher", Build_Dimensions 24 24 "Dishwasher") ].

(** The properties every object literal inherits from
    [Object.prototype].  [FURNITURE_DIMENSIONS[type]] finds them too:
    the value is a function (for [__proto__] the prototype itself),
    truthy and without [width] or [height]. *)
Definition Object_prototype_keys : list string :=
  [ "constructor"; "__defineGetter__"; "__defineSetter__"; "hasOwnProperty";
    "__lookupGetter__"; "__lookupSetter__"; "isPrototypeOf"; "propertyIsEnumerable";
    "toString"; "valueOf"; "__proto__"; "toLocaleString" ].

(** [{ position: { x, y } }] *)
Definition position_update (x y : Q) : FurnitureUpdates :=
  {| fu_type := None; fu_position := Some {| pt_x := x; pt_y := y |};
     fu_rotation := None; fu_width := None; fu_height := None; fu_label := None |}.

(** [{ rotation }] *)
Definition rotation_update (rotation : Q) : FurnitureUpdates :=
  {| fu_type := None; fu_position := None; fu_rotation := Some rotation;
     fu_width := None; fu_height := None; fu_label := None |}.

(** [!!id] for an id returned by the store. *)
Definition nonempty (id : string) : bool := negb (bool_decide (id = "")).

(** [executeToolCall(tool, args)]: the boolean it returns and the store
    it leaves.  [id] is the id [generateId()] yields if the call reaches
    it (each case calls it at most once).  None of the store actions
    throws, so the [catch] branch is never taken. *)
Definition executeToolCall (id : string) (tool : string) (args : gmap string jsval)
    (h : HistoryState) : option (bool * HistoryState) :=
  if decide (tool = "addWall") then
    startX ← as_number (arg args "startX");
    startY ← as_number (arg args "startY");
    endX ← as_number (arg args "endX");
    endY ← as_number (arg args "endY");
    thickness ← as_optional_number (arg args "thickness");
    Some (true, addWall id {| pt_x := startX; pt_y := startY |}
                  {| pt_x := endX; pt_y := endY |} thickness h)
  else if decide (tool = "removeWall") then
    wallId ← as_string (arg args "wallId");
    Some (true, removeWall wallId h)
  else if decide (tool = "addDoor") then
    wallId ← as_string (arg args "wallId");
    position ← as_number (arg args "position");
    width ← as_optional_number (arg args "width");
    Some (nonempty id, addDoor id wallId position width h)
  else if decide (tool = "addWindow") then
    wallId ← as_string (arg args "wallId");
    position ← as_number (arg args "position");
    width ← as_optional_number (arg args "width");
    height ← as_optional_number (arg args "height");
    Some (nonempty id, addWindow id wallId position width height h)
  else if decide (tool = "addFurniture") then
    type ← as_string (arg args "type");
    match FURNITURE_DIMENSIONS !! type with
    | None =>
        (* an inherited property passes [if (!dimensions)] and the item is
           stored with [undefined] width and height, which the typed
           document cannot hold *)
        if bool_decide (type ∈ Object_prototype_keys) then None
        else Some (false, h)
    | Some dimensions =>
        x ← as_number (arg args "x");
        y ← as_number (arg args "y");
        rotation ← as_optional_number (arg args "rotation");
        let h := addFurniture id type {| pt_x := x; pt_y := y |}
                   (dim_width dimensions) (dim_height dimensions) h in
        let h :=
          match rotation with
          | Some r =>
              if truthy (JNum r) && nonempty id
              then updateFurniture id (rotation_update r) h else h
          | None => h
          end in
        Some (nonempty id, h)
    end
  else if decide (tool = "moveFurniture") then
    furnitureId ← as_string (arg args "furnitureId");
    x ← as_number (arg args "x");
    y ← as_number (arg args "y");
    Some (true, updateFurniture furnitureId (position_update x y) h)
  else if decide (tool = "rotateFurniture") then
    furnitureId ← as_string (arg args "furnitureId");
    rotation ← as_number (arg args "rotation");
    Some (true, updateFurniture furnitureId (rotation_update rotation) h)
  else if decide (tool = "removeFurniture") then
    furnitureId ← as_string (arg args "furnitureId");
    Some (true, removeFurniture furnitureId h)
  else if decide (tool = "addRoom") then
    name_ ← as_string (arg args "name");
    type ← as_RoomType (arg args "type");
    wallIds ← as_string_list (arg args "wallIds");
    Some (true, addRoom id name_ type wallIds h)
  else if decide (tool = "clearAll") then
    if truthy (arg args "confirm")
    then Some (true, resetFloorplan id h)
    else Some (false, h)
  else Some (false, h).

(** ** UI store (src/store/ui-store.ts) *)

Inductive Panel := panel_properties | panel_furniture | panel_layers | panel_chat.

#[global] Instance Panel_eq_dec : EqDecision Panel.
Proof. solve_decision. Defined.

(** The state of [useUIStore].  Its [activeTool] and [snapToGrid] are the
    fields the canvas component reads into [CanvasState]; they carry a
    [ui_] prefix here. *)
Record UIState := {
  ui_activeTool : Tool;
  selectedIds : list string;
  openPanels : list Panel;
  zoom : Q;
  panOffset : Point;
  showGrid : bool;
  ui_snapToGrid : bool;
  showDimensions : bool;
  selectedFurnitureType : option string
}.

Definition initialUIState : UIState :=
  {| ui_activeTool := tool_select;
     selectedIds := [];
     openPanels := [panel_properties];
     zoom := 1;
     panOffset := {| pt_x := 0; pt_y := 0 |};
     showGrid := true;
     ui_snapToGrid := true;
     showDimensions := true;
     selectedFurnitureType := None |}.

Definition setActiveTool (tool : Tool) (st : UIState) : UIState :=
  {| ui_activeTool := tool; selectedIds := selectedIds st; openPanels := openPanels st;
     zoom := zoom st; panOffset := panOffset st; showGrid := showGrid st;
     ui_snapToGrid := ui_snapToGrid st; showDimensions := showDimensions st;
     selectedFurnitureType := selectedFurnitureType st |}.

Definition setSelectedIds (ids : list string) (st : UIState) : UIState :=
  {| ui_activeTool := ui_activeTool st; selectedIds := ids; openPanels := openPanels st;
     zoom := zoom st; panOffset := panOffset st; showGrid := showGrid st;
     ui_snapToGrid := ui_snapToGrid st; showDimensions := showDimensions st;
     selectedFurnitureType := selectedFurnitureType st |}.

Definition addToSelection (id : string) (st : UIState) : UIState :=
  setSelectedIds
    (if bool_decide (id ∈ selectedIds st) then selectedIds st else selectedIds st ++ [id])
    st.

Definition removeFromSelection (id : string) (st : UIState) : UIState :=
  setSelectedIds (filter (λ i, i ≠ id) (selectedIds st)) st.

Definition clearSelection (st : UIState) : UIState := setSelectedIds [] st.

Definition setOpenPanels (panels : list Panel) (st : UIState) : UIState :=
  {| ui_activeTool := ui_activeTool st; selectedIds := selectedIds st; openPanels := panels;
     zoom := zoom st; panOffset := panOffset st; showGrid := showGrid st;
     ui_snapToGrid := ui_snapToGrid st; showDimensions := showDimensions st;
     selectedFurnitureType := selectedFurnitureType st |}.

Definition togglePanel (panel : Panel) (st : UIState) : UIState :=
  setOpenPanels
    (if bool_decide (panel ∈ openPanels st)
     then filter (λ p, p ≠ panel) (openPanels st)
     else openPanels st ++ [panel])
    st.

Definition openPanel (panel : Panel) (st : UIState) : UIState :=
  setOpenPanels
    (if bool_decide (panel ∈ openPanels st) then openPanels st else openPanels st ++ [panel])
    st.

Definition closePanel (panel : Panel) (st : UIState) : UIState :=
  setOpenPanels (filter (λ p, p ≠ panel) (openPanels st)) st.

(** [Math.max(0.1, Math.min(5, zoom))] *)
Definition clamp_zoom (zoom : Q) : Q := Qmax (1 # 10) (Qmin 5 zoom).

Definition setZoom (z : Q) (st : UIState) : UIState :=
  {| ui_activeTool := ui_activeTool st; selectedIds := selectedIds st;
     openPanels := openPanels st; zoom := clamp_zoom z; panOffset := panOffset st;
     showGrid := showGrid st; ui_snapToGrid := ui_snapToGrid st;
     showDimensions := showDimensions st;
     selectedFurnitureType := selectedFurnitureType st |}.

Definition setPanOffset (offset : Point) (st : UIState) : UIState :=
  {| ui_activeTool := ui_activeTool st; selectedIds := selectedIds st;
     openPanels := openPanels st; zoom := zoom st; panOffset := offset;
     showGrid := showGrid st; ui_snapToGrid := ui_snapToGrid st;
     showDimensions := showDimensions st;
     selectedFurnitureType := selectedFurnitureType st |}.

Definition toggleGrid (st : UIState) : UIState :=
  {| ui_activeTool := ui_activeTool st; selectedIds := selectedIds st;
     openPanels := openPanels st; zoom := zoom st; panOffset := panOffset st;
     showGrid := negb (showGrid st); ui_snapToGrid := ui_snapToGrid st;
     showDimensions := showDimensions st;
     selectedFurnitureType := selectedFurnitureType st |}.

Definition toggleSnap (st : UIState) : UIState :=
  {| ui_activeTool := ui_activeTool st; selectedIds := selectedIds st;
     openPanels := openPanels st; zoom := zoom st; panOffset := panOffset st;
     showGrid := showGrid st; ui_snapToGrid := negb (ui_snapToGrid st);
     showDimensions := showDimensions st;
     selectedFurnitureType := selectedFurnitureType st |}.

Definition toggleDimensions (st : UIState) : UIState :=
  {| ui_activeTool := ui_activeTool st; selectedIds := selectedIds st;
     openPanels := openPanels st; zoom := zoom st; panOffset := panOffset st;
     showGrid := showGrid st; ui_snapToGrid := ui_snapToGrid st;
     showDimensions := negb (showDimensions st);
     selectedFurnitureType := selectedFurnitureType st |}.

Definition setSelectedFurnitureType (type : option string) (st : UIState) : UIState :=
  {| ui_activeTool := ui_activeTool st; selectedIds := selectedIds st;
     openPanels := openPanels st; zoom := zoom st; panOffset := panOffset st;
     showGrid := showGrid st; ui_snapToGrid := ui_snapToGrid st;
     showDimensions := showDimensions st; selectedFurnitureType := type |}.

(** The zoom buttons of the toolbar (Toolbar in Toolbar.tsx):
    [setZoom(zoom - 0.1)], [setZoom(zoom + 0.1)], [setZoom(1)]. *)
Definition zoomOut (st : UIState) : UIState := setZoom (zoom st - (1 # 10))%Q st.
Definition zoomIn (st : UIState) : UIState := setZoom (zoom st + (1 # 10))%Q st.
Definition zoomReset (st : UIState) : UIState := setZoom 1 st.

(** The wheel handler of [useFabric]: the zoom it gives to the canvas
    and passes to [setZoom], from the canvas zoom and the wheel delta. *)
Definition wheelZoom (canvasZoom deltaY : Q) : Q :=
  clamp_zoom (canvasZoom * (1 - deltaY / 500))%Q.

(** The actions of the UI store and toolbar as data. *)
Inductive UIAction :=
  | SetActiveTool (tool : Tool)
  | SetSelectedIds (ids : list string)
  | AddToSelection (id : string)
  | RemoveFromSelection (id : string)
  | ClearSelection
  | TogglePanel (panel : Panel)
  | OpenPanel (panel : Panel)
  | ClosePanel (panel : Panel)
  | SetZoom (z : Q)
  | ZoomOut
  | ZoomIn
  | ZoomReset
  | WheelZoom (canvasZoom deltaY : Q)
  | SetPanOffset (offset : Point)
  | ToggleGrid
  | ToggleSnap
  | ToggleDimensions
  | SetSelectedFurnitureType (type : option string).

Definition ui_step (a : UIAction) : UIState → UIState :=
  match a with
  | SetActiveTool t => setActiveTool t
  | SetSelectedIds ids => setSelectedIds ids
  | AddToSelection id => addToSelection id
  | RemoveFromSelection id => removeFromSelection id
  | ClearSelection => clearSelection
  | TogglePanel p => togglePanel p
  | OpenPanel p => openPanel p
  | ClosePanel p => closePanel p
  | SetZoom z => setZoom z
  | ZoomOut => zoomOut
  | ZoomIn => zoomIn
  | ZoomReset => zoomReset
  | WheelZoom cz dy => setZoom (wheelZoom cz dy)
  | SetPanOffset o => setPanOffset o
  | ToggleGrid => toggleGrid
  | ToggleSnap => toggleSnap
  | ToggleDimensions => toggleDimensions
  | SetSelectedFurnitureType t => setSelectedFurnitureType t
  end.

Definition ui_run (acts : list UIAction) (st : UIState) : UIState :=
  foldl (λ st a, ui_step a st) st acts.
(** ** Chat store (src/store/chat-store.ts) *)

Inductive ChatRole := role_user | role_assistant | role_system.

Record ChatMessage := {
  msg_id : string;
  msg_role : ChatRole;
  msg_content : string;
  msg_timestamp : Z
}.

Record ChatState := {
  messages : list ChatMessage;
  isLoading : bool
}.

Definition initialChatState : ChatState := {| messages := []; isLoading := false |}.

(** [addMessage(role, content)]; [id] and [now] stand for the results of
    [generateId()] and [Date.now()].  The action returns [id]. *)
Definition addMessage (id : string) (now : Z) (role : ChatRole) (content : string)
    (st : ChatState) : ChatState :=
  {| messages := messages st ++ [{| msg_id := id; msg_role := role;
                                    msg_content := content; msg_timestamp := now |}];
     isLoading := isLoading st |}.

(** [{ ...msg, content }] *)
Definition with_content (content : string) (msg : ChatMessage) : ChatMessage :=
  {| msg_id := msg_id msg; msg_role := msg_role msg;
     msg_content := content; msg_timestamp := msg_timestamp msg |}.

Definition updateMessage (id content : string) (st : ChatState) : ChatState :=
  {| messages := (λ msg, if bool_decide (msg_id msg = id)
                         then with_content content msg else msg) <$> messages st;
     isLoading := isLoading st |}.

Definition setLoading (loading : bool) (st : ChatState) : ChatState :=
  {| messages := messages st; isLoading := loading |}.

Definition clearMessages (st : ChatState) : ChatState :=
  {| messages := []; isLoading := isLoading st |}.

(** ** Settings store (settings-store.ts, src/unnamed/part_001)

    The [persist] middleware, which mirrors the state into local storage,
    is left out: the definitions give the in-memory state. *)

Inductive AIProvider := anthropic | openai | google.

#[global] Instance AIProvider_eq_dec : EqDecision AIProvider.
Proof. solve_decision. Defined.

Record AIModel := { model_id : string; model_name : string }.

Record AIProviderConfig := {
  provider_id : AIProvider;
  provider_name : string;
  provider_models : list AIModel
}.

Definition AI_PROVIDERS : list AIProviderConfig :=
  [ {| provider_id := anthropic; provider_name := "Anthropic";
       provider_models :=
         [ {| model_id := "claude-sonnet-4-20250514"; model_name := "Claude Sonnet 4" |};
           {| model_id := "claude-3-5-sonnet-20241022"; model_name := "Claude 3.5 Sonnet" |};
           {| model_id := "claude-3-haiku-20240307"; model_name := "Claude 3 Haiku" |} ] |};
    {| provider_id := openai; provider_name := "OpenAI";
       provider_models :=
         [ {| model_id := "gpt-4o"; model_name := "GPT-4o" |};
           {| model_id := "gpt-4o-mini"; model_name := "GPT-4o Mini" |};
           {| model_id := "gpt-4-turbo"; model_name := "GPT-4 Turbo" |} ] |};
    {| provider_id := google; provider_name := "Google AI";
       provider_models :=
         [ {| model_id := "gemini-1.5-pro"; model_name := "Gemini 1.5 Pro" |};
           {| model_id := "gemini-1.5-flash"; model_name := "Gemini 1.5 Flash" |} ] |} ].

Record SettingsState := {
  anthropicApiKey : string;
  openaiApiKey : string;
  googleApiKey : string;
  selectedProvider : AIProvider;
  selectedModel : string;
  userName : string
}.

Definition initialSettings : SettingsState :=
  {| anthropicApiKey := ""; openaiApiKey := ""; googleApiKey := "";
     selectedProvider := anthropic;
     selectedModel := "claude-sonnet-4-20250514";
     userName := "" |}.

Definition setApiKey (provider : AIProvider) (key : string) (st : SettingsState)
    : SettingsState :=
  match provider with
  | anthropic =>
      {| anthropicApiKey := key; openaiApiKey := openaiApiKey st;
         googleApiKey := googleApiKey st; selectedProvider := selectedProvider st;
         selectedModel := selectedModel st; userName := userName st |}
  | openai =>
      {| anthropicApiKey := anthropicApiKey st; openaiApiKey := key;
         googleApiKey := googleApiKey st; selectedProvider := selectedProvider st;
         selectedModel := selectedModel st; userName := userName st |}
  | google =>
      {| anthropicApiKey := anthropicApiKey st; openaiApiKey := openaiApiKey st;
         googleApiKey := key; selectedProvider := selectedProvider st;
         selectedModel := selectedModel st; userName := userName st |}
  end.

(** [providerConfig?.models[0]?.id || ''] with
    [providerConfig = AI_PROVIDERS.find((p) => p.id === provider)] *)
Definition first_model_id (provider : AIProvider) : string :=
  match list_find (λ p, provider_id p = provider) AI_PROVIDERS with
  | Some (_, providerConfig) =>
      match provider_models providerConfig with
      | m :: _ => model_id m
      | [] => ""
      end
  | None => ""
  end.

Definition setSelectedProvider (provider : AIProvider) (st : SettingsState)
    : SettingsState :=
  {| anthropicApiKey := anthropicApiKey st; openaiApiKey := openaiApiKey st;
     googleApiKey := googleApiKey st; selectedProvider := provider;
     selectedModel := first_model_id provider; userName := userName st |}.

Definition setSelectedModel (model : string) (st : SettingsState) : SettingsState :=
  {| anthropicApiKey := anthropicApiKey st; openaiApiKey := openaiApiKey st;
     googleApiKey := googleApiKey st; selectedProvider := selectedProvider st;
     selectedModel := model; userName := userName st |}.

Definition setUserName (v : string) (st : SettingsState) : SettingsState :=
  {| anthropicApiKey := anthropicApiKey st; openaiApiKey := openaiApiKey st;
     googleApiKey := googleApiKey st; selectedProvider := selectedProvider st;
     selectedModel := selectedModel st; userName := v |}.

Definition getActiveApiKey (st : SettingsState) : string :=
  match selectedProvider st with
  | anthropic => anthropicApiKey st
  | openai => openaiApiKey st
  | google => googleApiKey st
  end.

(** [s.length] counts UTF-16 code units.  A string of the model holds
    the bytes of the UTF-8 encoding: a code point contributes one unit at
    its first byte, two when that byte opens a four-byte sequence (a code
    point outside the basic plane), and nothing at its continuation
    bytes. *)
Definition utf16_units (byte : Ascii.ascii) : nat :=
  let n := Ascii.nat_of_ascii byte in
  if n <? 128 then 1
  else if n <? 192 then 0
  else if n <? 240 then 1
  else 2.

Fixpoint js_length (s : string) : nat :=
  match s with
  | EmptyString => 0
  | String byte rest => utf16_units byte + js_length rest
  end.

(** [key.length > 10] *)
Definition hasValidApiKey (st : SettingsState) : bool :=
  bool_decide (10 < js_length (getActiveApiKey st)).

Definition clearSettings (st : SettingsState) : SettingsState :=
  {| anthropicApiKey := ""; openaiApiKey := ""; googleApiKey := "";
     selectedProvider := selectedProvider st; selectedModel := selectedModel st;
     userName := "" |}.

(** ** Streaming loop of the chat panel ([handleSubmit] in Toolbar.tsx)

    The loop re-parses the whole response received so far on every chunk
    and executes the tool calls it has not seen yet.  [parseToolCalls]
    (two regular expressions and [JSON.parse]) and [JSON.stringify] are
    parameters of the model, as is the sequence of ids [generateId]
    yields; [Args] is the type of parsed argument objects, [fields] their
    properties as [executeToolCall] reads them. *)

Section streaming.
Context {Args : Type}.
Variable fields : Args → gmap string jsval.
Variable stringify : Args → string.
Variable generateId : nat → string.

Record ToolCallResult := {
  tc_tool : string;
  tc_args : Args;
  tc_executed : bool
}.

Variable parseToolCalls : string → list ToolCallResult.

(** [existing.tool === tc.tool &&
     JSON.stringify(existing.args) === JSON.stringify(tc.args)] *)
Definition same_call (existing tc : ToolCallResult) : bool :=
  bool_decide (tc_tool existing = tc_tool tc)
  && bool_decide (stringify (tc_args existing) = stringify (tc_args tc)).

(** [toolCalls.some((existing) => ...)] *)
Definition some_same_call (toolCalls : list ToolCallResult) (tc : ToolCallResult) : bool :=
  existsb (λ existing, same_call existing tc) toolCalls.

(** [tc.executed = ...] *)
Definition set_executed (executed : bool) (tc : ToolCallResult) : ToolCallResult :=
  {| tc_tool := tc_tool tc; tc_args := tc_args tc; tc_executed := executed |}.

(** What the loop carries from chunk to chunk: [fullContent],
    [assistantMessage.toolCalls], the floorplan store, and how many ids
    have been handed out. *)
Record StreamState := {
  fullContent : string;
  toolCalls : list ToolCallResult;
  store : HistoryState;
  nextId : nat
}.

(** [for (const tc of newToolCalls) tc.executed = executeToolCall(tc.tool, tc.args)];
    every call is handed the next id. *)
Fixpoint execute_new (newToolCalls : list ToolCallResult) (n : nat) (h : HistoryState)
    : option (list ToolCallResult * HistoryState) :=
  match newToolCalls with
  | [] => Some ([], h)
  | tc :: rest =>
      r ← executeToolCall (generateId n) (tc_tool tc) (fields (tc_args tc)) h;
      r' ← execute_new rest (S n) r.2;
      Some (set_executed r.1 tc :: r'.1, r'.2)
  end.

(** [parseToolCalls(fullContent).filter((tc) => !toolCalls.some(...))] *)
Definition newToolCalls (seen : list ToolCallResult) (content : string)
    : list ToolCallResult :=
  filter (λ tc, some_same_call seen tc = false) (parseToolCalls content).

(** The pair the loop compares calls by. *)
Definition call_key (tc : ToolCallResult) : string * string :=
  (tc_tool tc, stringify (tc_args tc)).

(** One turn of the [while] loop, for a chunk that was read. *)
Definition read_chunk (chunk : string) (s : StreamState) : option StreamState :=
  let content := (fullContent s +:+ chunk)%string in
  let new := newToolCalls (toolCalls s) content in
  r ← execute_new new (nextId s) (store s);
  Some {| fullContent := content;
          toolCalls := toolCalls s ++ r.1;
          store := r.2;
          nextId := nextId s + length new |}.
(** The loop over the chunks of a response. *)
Definition read_chunks (chunks : list string) (s : StreamState) : option StreamState :=
  foldl (λ r chunk, r ≫= read_chunk chunk) (Some s) chunks.
End streaming.

Arguments ToolCallResult : clear implicits.
Arguments StreamState : clear implicits.

(** ** Chat request: client body and server checks
       (handleSubmit in Toolbar.tsx, POST in src/app/api/chat/route.ts) *)

(** What [POST] does with a parsed body before it builds the provider
    client: an error response with a status, or the provider to call.
    The client construction and [streamText] that follow are library
    code and are left out. *)
Inductive Validation :=
  | Rejected (status : nat) (error : string)
  | Accepted (provider : AIProvider).

(** [Array.isArray(v)] *)
Definition Array_isArray (v : jsval) : bool :=
  match v with JArr _ => true | _ => false end.

(** The [case] labels of [switch (provider)]; comparison is strict. *)
Definition provider_of (v : jsval) : option AIProvider :=
  match v with
  | JStr s =>
      if decide (s = "anthropic") then Some anthropic
      else if decide (s = "openai") then Some openai
      else if decide (s = "google") then Some google
      else None
  | _ => None
  end.

(** [body] holds the properties of the object [req.json()] yields. *)
Definition POST_checks (body : gmap string jsval) : Validation :=
  if negb (truthy (arg body "apiKey")) then Rejected 401 "API key is required"
  else if negb (truthy (arg body "messages")) || negb (Array_isArray (arg body "messages"))
  then Rejected 400 "Messages are required"
  else match provider_of (arg body "provider") with
       | Some provider => Accepted provider
       | None => Rejected 400 "Invalid provider"
       end.

(** The string a provider is in TypeScript. *)
Definition provider_string (p : AIProvider) : string :=
  match p with
  | anthropic => "anthropic"
  | openai => "openai"
  | google => "google"
  end.

(** The [role] of a message of the chat panel. *)
Inductive MessageRole := message_user | message_assistant.

(** A message of the chat panel, as [{ role: m.role, content: m.content }]. *)
Definition message_json (m : MessageRole * string) : jsval :=
  JObj [ ("role", JStr match m.1 with
                       | message_user => "user"
                       | message_assistant => "assistant"
                       end);
         ("content", JStr m.2) ].

(** The body [handleSubmit] sends: the messages so far and the new user
    message with the trimmed input as [content], the selected provider
    and model, the active key and the floorplan. *)
Definition chat_request (st : SettingsState) (messages : list (MessageRole * string))
    (content : string) (floorplan : jsval) : gmap string jsval :=
  {[ "messages" := JArr (message_json <$> messages ++ [(message_user, content)]);
     "provider" := JStr (provider_string (selectedProvider st));
     "model" := JStr (selectedModel st);
     "apiKey" := JStr (getActiveApiKey st);
     "floorplan" := floorplan ]}.

(** * Vocabulary of the properties

    Derived notions used to state the theorems, and the sample inputs of
    the witnesses and counterexamples. *)

(** ** Effect of a command on document and history *)

(** The document a command leaves in [present], as a function of the
    document it found there. *)
Definition document_effect (c : Command) (p : Floorplan) : Floorplan :=
  match c with
  | SetFloorplan fp => fp
  | ResetFloorplan id => createEmptyFloorplan id
  | SetName v => set_name v p
  | SetUnits v => set_units v p
  | SetBackgroundImage v => set_backgroundImage v p
  | AddWall id s e t =>
      set_walls (walls p ++ [{| wall_id := id; wall_start := s; wall_end := e;
                                wall_thickness := default DEFAULTS.wallThickness t |}]) p
  | UpdateWall id u =>
      set_walls (find_assign (λ w, wall_id w = id) (assign_wall u) (walls p)) p
  | RemoveWall id =>
      let p := set_walls (filter (λ w, wall_id w ≠ id) (walls p)) p in
      let p := set_doors (filter (λ x, door_wallId x ≠ id) (doors p)) p in
      set_windows (filter (λ w, window_wallId w ≠ id) (windows p)) p
  | AddDoor id w pos wd =>
      set_doors (doors p ++ [{| door_id := id; door_wallId := w; door_position := pos;
                                door_width := default DEFAULTS.doorWidth wd;
                                door_swingDirection := swing_left;
                                door_swingInward := true |}]) p
  | UpdateDoor id u =>
      set_doors (find_assign (λ x, door_id x = id) (assign_door u) (doors p)) p
  | RemoveDoor id => set_doors (filter (λ x, door_id x ≠ id) (doors p)) p
  | AddWindow id w pos wd ht =>
      set_windows
        (windows p ++ [{| window_id := id; window_wallId := w; window_position := pos;
                          window_width := default DEFAULTS.windowWidth wd;
                          window_height := default DEFAULTS.windowHeight ht |}]) p
  | UpdateWindow id u =>
      set_windows (find_assign (λ w, window_id w = id) (assign_window u) (windows p)) p
  | RemoveWindow id => set_windows (filter (λ w, window_id w ≠ id) (windows p)) p
  | AddRoom id n t ws =>
      set_rooms (rooms p ++ [{| room_id := id; room_name := n; room_type := t;
                                room_wallIds := ws; room_color := None |}]) p
  | UpdateRoom id u =>
      set_rooms (find_assign (λ r, room_id r = id) (assign_room u) (rooms p)) p
  | RemoveRoom id => set_rooms (filter (λ r, room_id r ≠ id) (rooms p)) p
  | AddFurniture id t pos w ht =>
      set_furniture
        (furniture p ++ [{| furniture_id := id; furniture_type := t;
                            furniture_position := pos; furniture_rotation := 0;
                            furniture_width := w; furniture_height := ht;
                            furniture_label := None |}]) p
  | UpdateFurniture id u =>
      set_furniture
        (find_assign (λ f, furniture_id f = id) (assign_furniture u) (furniture p)) p
  | RemoveFurniture id =>
      set_furniture (filter (λ f, furniture_id f ≠ id) (furniture p)) p
  | RemoveSelected ids =>
      let p := set_walls (filter (λ w, wall_id w ∉ ids) (walls p)) p in
      let p := set_doors (filter (λ x, door_id x ∉ ids) (doors p)) p in
      let p := set_windows (filter (λ w, window_id w ∉ ids) (windows p)) p in
      let p := set_furniture (filter (λ f, furniture_id f ∉ ids) (furniture p)) p in
      set_rooms (filter (λ r, room_id r ∉ ids) (rooms p)) p
  end.

(** Does the recipe call [pushToHistory]? *)
Definition records (c : Command) : bool :=
  match c with SetName _ => false | _ => true end.

(** Does the recipe write through [state.present] (rather than rebind it)? *)
Definition writes_in_place (c : Command) : bool :=
  match c with SetFloorplan _ | ResetFloorplan _ => false | _ => true end.

(** The entry a recording command appends to [past]. *)
Definition recorded_entry (c : Command) (p : Floorplan) : Floorplan :=
  if writes_in_place c then document_effect c p else p.

(** ** Histories reachable through the store *)

Inductive Action := Do (c : Command) | Undo | Redo.

Definition step (a : Action) : HistoryState → HistoryState :=
  match a with
  | Do c => exec c
  | Undo => undo
  | Redo => redo
  end.

Definition steps (acts : list Action) (h : HistoryState) : HistoryState :=
  foldl (λ h a, step a h) h acts.

(** Entries held on both stacks together. *)
Definition retained (h : HistoryState) : nat := length (past h) + length (future h).

(** ** Ranges, ids, grid, gestures *)

Definition in_unit_interval (q : Q) : Prop := (0 <= q)%Q ∧ (q <= 1)%Q.

(** Ids of all elements of a document. *)
Definition element_ids (p : Floorplan) : list string :=
  (wall_id <$> walls p) ++ (door_id <$> doors p) ++ (window_id <$> windows p)
  ++ (room_id <$> rooms p) ++ (furniture_id <$> furniture p).

(** A coordinate on the snap grid: an integer multiple of [snapSize]. *)
Definition on_grid (q : Q) : Prop := ∃ k : Z, (q == inject_Z k * snapSize)%Q.

(** The square of the midpoint between 10 and the next double,
    [10 + 2 ^ -49]: [Math.sqrt(s)] exceeds 10 exactly above it. *)
Definition sqrt_threshold : Q := ((10 + pow2 (-50)) * (10 + pow2 (-50)))%Q.

(** How far from the threshold, in squared pixels, the exact distance
    has to be for the rounding of [gesture_length] not to matter. *)
Definition rounding_margin : Q := 1 # 10000000000000.

(** Bounds on the error of the computed [dx * dx + dy * dy] against the
    exact sum of squares: relative, from the four roundings of normal
    numbers, and absolute, from underflow. *)
Definition squares_rel_error : Q :=
  let u := pow2 (-53) in
  let k1 := (3 * u + 2 * pow2 (-1075))%Q in
  let k2 := (k1 + (1 + k1) * u)%Q in
  (k2 + (1 + k2) * u)%Q.

Definition squares_abs_error : Q := (29 * pow2 (-1075))%Q.

(** A point on whole pixels, within 16 million pixels of the origin. *)
Definition whole_pixels (p : Point) : Prop :=
  ∃ x y : Z, (pt_x p == inject_Z x)%Q ∧ (pt_y p == inject_Z y)%Q
             ∧ (Z.abs x <= 2 ^ 24)%Z ∧ (Z.abs y <= 2 ^ 24)%Z.

(** A gesture in progress: the wall tool is active and a press has been
    taken at [start]. *)
Definition drawing_from (st : CanvasState) (start : Point) : Prop :=
  activeTool st = tool_wall ∧ isDrawing st = true
  ∧ hasCanvas st = true ∧ drawStartRef st = Some start.

Definition idle_wall_tool (snap : bool) : CanvasState :=
  {| activeTool := tool_wall; snapToGrid := snap; isDrawing := false;
     drawStartRef := None; previewLineRef := None; hasCanvas := true |}.

(** ** Sample inputs *)

Definition sample_walls : list Command :=
  [ AddWall "w1" {| pt_x := 0; pt_y := 0 |} {| pt_x := 120; pt_y := 0 |} None;
    SetName "Ground floor";
    AddDoor "d1" "w1" (1 # 2) None;
    RemoveWall "w1" ].

Definition fifty_edits : list Action := replicate 50 (Do (SetUnits metric)).

Definition w1 : Wall :=
  {| wall_id := "w1"; wall_start := {| pt_x := 0; pt_y := 0 |};
     wall_end := {| pt_x := 120; pt_y := 0 |}; wall_thickness := 6 |}.

Definition d1 : Door :=
  {| door_id := "d1"; door_wallId := "w1"; door_position := 1 # 2;
     door_width := 32; door_swingDirection := swing_left; door_swingInward := true |}.

Definition n1 : Window :=
  {| window_id := "n1"; window_wallId := "w1"; window_position := 1 # 4;
     window_width := 36; window_height := 48 |}.

(** One wall carrying one door and one window, built through the store. *)
Definition one_wall_house : HistoryState :=
  run [ AddWall "w1" (wall_start w1) (wall_end w1) None;
        AddDoor "d1" "w1" (1 # 2) None;
        AddWindow "n1" "w1" (1 # 4) None None ]
      (initialState "fp0").

(** Three walls, the last two under one id (as after a collision of
    generated ids, or a document loaded with [setFloorplan]). *)
Definition w0 : Wall :=
  {| wall_id := "w0"; wall_start := {| pt_x := 0; pt_y := 0 |};
     wall_end := {| pt_x := 0; pt_y := 120 |}; wall_thickness := 6 |}.

Definition w1_again : Wall :=
  {| wall_id := "w1"; wall_start := {| pt_x := 0; pt_y := 120 |};
     wall_end := {| pt_x := 120; pt_y := 120 |}; wall_thickness := 6 |}.

Definition duplicate_id_house : HistoryState :=
  run [ AddWall "w0" (wall_start w0) (wall_end w0) None;
        AddWall "w1" (wall_start w1) (wall_end w1) None;
        AddWall "w1" (wall_start w1_again) (wall_end w1_again) None ]
      (initialState "fp0").

Definition move_ghost : gmap string jsval :=
  {[ "furnitureId" := JStr "ghost"; "x" := JNum 10; "y" := JNum 20 ]}.

(** ** History as one line of documents *)

(** The documents of a history in the order of the edits: [past], then
    [present], then [future]. *)
Definition timeline (h : HistoryState) : list Floorplan :=
  past h ++ present h :: future h.

(** Every door and every window hangs on a wall of the document. *)
Definition referential_integrity (p : Floorplan) : Prop :=
  (∀ d, d ∈ doors p → door_wallId d ∈ wall_id <$> walls p)
  ∧ (∀ w, w ∈ windows p → window_wallId w ∈ wall_id <$> walls p).

(** What a command needs for ids to stay unique: an [add*] brings an id
    no element carries, [setFloorplan] a document whose ids are unique. *)
Definition brings_fresh_id (c : Command) (p : Floorplan) : Prop :=
  match c with
  | AddWall id _ _ _ | AddDoor id _ _ _ | AddWindow id _ _ _ _
  | AddRoom id _ _ _ | AddFurniture id _ _ _ _ => id ∉ element_ids p
  | SetFloorplan fp => NoDup (element_ids fp)
  | _ => True
  end.

(** The [update*] commands. *)
Definition is_update (c : Command) : bool :=
  match c with
  | UpdateWall _ _ | UpdateDoor _ _ | UpdateWindow _ _
  | UpdateRoom _ _ | UpdateFurniture _ _ => true
  | _ => false
  end.

(** The [remove*] commands, [removeSelected] included. *)
Definition is_remove (c : Command) : bool :=
  match c with
  | RemoveWall _ | RemoveDoor _ | RemoveWindow _ | RemoveRoom _
  | RemoveFurniture _ | RemoveSelected _ => true
  | _ => false
  end.

(** Element ids are unique in every document the history holds. *)
Definition ids_unique_throughout (h : HistoryState) : Prop :=
  Forall (λ p, NoDup (element_ids p)) (timeline h).

(** The side condition of [brings_fresh_id], for a step of the history. *)
Definition step_brings_fresh_id (a : Action) (h : HistoryState) : Prop :=
  match a with
  | Do c => brings_fresh_id c (present h)
  | Undo | Redo => True
  end.

(** ** Whole gestures *)

(** Press, any number of moves, release: the final component state and
    the store calls of the release. *)
Definition gesture (id : string) (st : CanvasState) (press : Point)
    (moves : list Point) (release : Point) : CanvasState * list Command :=
  handleMouseUp id (foldl handleMouseMove (handleMouseDown st press) moves) release.

(** A document coordinate on the snap grid: an integer multiple of
    [DEFAULTS.snapIncrement] inches. *)
Definition on_inch_grid (q : Q) : Prop :=
  ∃ k : Z, (q == inject_Z k * DEFAULTS.snapIncrement)%Q.

Definition point_on_inch_grid (p : Point) : Prop :=
  on_inch_grid (pt_x p) ∧ on_inch_grid (pt_y p).

Definition idle_select_tool : CanvasState :=
  {| activeTool := tool_select; snapToGrid := true; isDrawing := false;
     drawStartRef := None; previewLineRef := None; hasCanvas := true |}.

(** ** Tool calls *)

(** The tools [executeToolCall] has a case for. *)
Definition handled_tools : list string :=
  [ "addWall"; "removeWall"; "addDoor"; "addWindow"; "addFurniture";
    "moveFurniture"; "rotateFurniture"; "removeFurniture"; "addRoom"; "clearAll" ].

(** The rotation an [addFurniture] tool call leaves on the new item:
    [rotation] if given and not zero, else the store's 0. *)
Definition tool_rotation (rotation : option Q) : Q :=
  match rotation with
  | Some r => if truthy (JNum r) then r else 0
  | None => 0
  end.

(** History entries an [addFurniture] tool call costs. *)
Definition tool_entries (rotation : option Q) : nat :=
  match rotation with
  | Some r => if truthy (JNum r) then 2 else 1
  | None => 1
  end.

Definition place_sofa : gmap string jsval :=
  {[ "type" := JStr "sofa-3"; "x" := JNum 24; "y" := JNum 36; "rotation" := JNum 90 ]}.

(** ** A sample response stream *)

(** A parser that reports one [removeWall] call as soon as any text has
    arrived, with argument objects as association lists. *)
Definition sample_call : ToolCallResult (list (string * jsval)) :=
  {| tc_tool := "removeWall"; tc_args := [("wallId", JStr "w1")]; tc_executed := false |}.

Definition sample_parse (text : string) : list (ToolCallResult (list (string * jsval))) :=
  if decide (text = "") then [] else [sample_call].

Definition sample_fields (args : list (string * jsval)) : gmap string jsval :=
  list_to_map args.

Definition sample_stringify (args : list (string * jsval)) : string :=
  String.concat "," (args.*1).

Definition sample_ids (n : nat) : string := "id".

Definition sample_stream : StreamState (list (string * jsval)) :=
  {| fullContent := ""; toolCalls := []; store := one_wall_house; nextId := 0 |}.

(** How often a call, named by its key, occurs among a list of keys. *)
Definition runs (k : string * string) (keys : list (string * string)) : nat :=
  length (filter (λ k', k' = k) keys).

(** A parser that reports its one call twice in every text. *)
Definition sample_parse_twice (text : string)
    : list (ToolCallResult (list (string * jsval))) :=
  if decide (text = "") then [] else [sample_call; sample_call].

(** * Properties *)

(** ** The state a recipe produces

    The draft machinery is eliminated once and for all: each shape of
    recipe gets an equation between finalised states. *)

Section draft_facts.
Implicit Types (h : HistoryState) (d : Draft) (f g : Floorplan → Floorplan).

Lemma fmap_lookup_total_seq (xs ys zs : list Floorplan) :
  ((xs ++ ys ++ zs) !!!.) <$> seq (length xs) (length ys) = ys.
Proof.
  apply list_eq; intros i. rewrite list_lookup_fmap.
  destruct (decide (i < length ys)) as [Hlt|Hge].
  - rewrite lookup_seq_lt by done. simpl.
    rewrite lookup_total_app_r by lia.
    replace (length xs + i - length xs) with i by lia.
    rewrite lookup_total_app_l by done.
    symmetry. by apply list_lookup_lookup_total_lt.
  - rewrite lookup_seq_ge by lia. simpl.
    symmetry. apply lookup_ge_None. lia.
Qed.

Lemma deref_past_createDraft h zs :
  ((past h ++ present h :: future h ++ zs) !!!.) <$> seq 0 (length (past h)) = past h.
Proof. apply (fmap_lookup_total_seq [] (past h) (present h :: future h ++ zs)). Qed.

Lemma deref_present_createDraft h zs :
  (past h ++ present h :: future h ++ zs) !!! length (past h) = present h.
Proof. by rewrite list_lookup_total_middle. Qed.

Lemma deref_future_createDraft h zs :
  ((past h ++ present h :: future h ++ zs) !!!.)
    <$> seq (S (length (past h))) (length (future h)) = future h.
Proof.
  pose proof (fmap_lookup_total_seq (past h ++ [present h]) (future h) zs) as H.
  rewrite length_app, <- !app_assoc in H. simpl in H.
  by replace (length (past h) + 1) with (S (length (past h))) in H by lia.
Qed.

Lemma finalize_createDraft h : finalize (createDraft h) = h.
Proof.
  destruct h as [ps p fs]. unfold finalize, deref; simpl.
  pose proof (deref_past_createDraft (Build_HistoryState ps p fs) []) as H1.
  pose proof (deref_present_createDraft (Build_HistoryState ps p fs) []) as H2.
  pose proof (deref_future_createDraft (Build_HistoryState ps p fs) []) as H3.
  simpl in *. rewrite app_nil_r in *. by rewrite H1, H2, H3.
Qed.

(** Writing through [state.present] only touches the present slot. *)
Lemma mutate_present_createDraft f h :
  mutate_present f (createDraft h)
  = createDraft {| past := past h; present := f (present h); future := future h |}.
Proof.
  unfold mutate_present, createDraft; simpl. f_equal.
  rewrite <- (Nat.add_0_r (length (past h))) at 1.
  by rewrite alter_app_r.
Qed.

Lemma mutate_present_pushToHistory f d :
  mutate_present f (pushToHistory d) = pushToHistory (mutate_present f d).
Proof. done. Qed.

Lemma finalize_pushToHistory_createDraft h :
  finalize (pushToHistory (createDraft h))
  = {| past := slice_last MAX_HISTORY (past h ++ [present h]);
       present := present h;
       future := [] |}.
Proof.
  unfold finalize, deref, pushToHistory, slice_last; simpl.
  pose proof (deref_past_createDraft h []) as H1.
  pose proof (deref_present_createDraft h []) as H2.
  rewrite app_nil_r in *.
  rewrite fmap_drop, fmap_app, H1, H2; simpl. rewrite H2.
  by rewrite !length_app, length_seq.
Qed.

(** [pushToHistory] followed by writes through [state.present]: the
    entry appended to [past] is the reference that is written through,
    so it finalises to the written document. *)
Lemma produce_push_mutate f h :
  produce (λ d, mutate_present f (pushToHistory d)) h
  = {| past := slice_last MAX_HISTORY (past h ++ [f (present h)]);
       present := f (present h);
       future := [] |}.
Proof.
  unfold produce.
  by rewrite mutate_present_pushToHistory, mutate_present_createDraft,
    finalize_pushToHistory_createDraft.
Qed.

(** [pushToHistory] followed by [state.present = v]: the appended
    reference is never written through. *)
Lemma produce_push_assign v h :
  produce (λ d, assign_present v (pushToHistory d)) h
  = {| past := slice_last MAX_HISTORY (past h ++ [present h]);
       present := v;
       future := [] |}.
Proof.
  unfold produce, finalize, deref, assign_present, pushToHistory, slice_last; simpl.
  pose proof (deref_past_createDraft h [v]) as H1.
  pose proof (deref_present_createDraft h [v]) as H2.
  rewrite (list_lookup_total_middle _ [] v) by done.
  rewrite <- !app_assoc. simpl.
  rewrite fmap_drop, fmap_app, H1; simpl. rewrite H2.
  by rewrite !length_app, length_seq.
Qed.

Lemma produce_mutate f h :
  produce (mutate_present f) h
  = {| past := past h; present := f (present h); future := future h |}.
Proof. unfold produce. by rewrite mutate_present_createDraft, finalize_createDraft. Qed.

Lemma mutate_present_compose f g d :
  mutate_present g (mutate_present f d) = mutate_present (g ∘ f) d.
Proof.
  unfold mutate_present; simpl. f_equal.
  generalize (d_present d). induction (d_heap d) as [|x xs IH]; intros [|i]; simpl; try done.
  f_equal. apply IH.
Qed.

Lemma undo_spec h :
  undo h
  = match last (past h) with
    | None => h
    | Some previous =>
        {| past := slice_init (past h);
           present := previous;
           future := present h :: future h |}
    end.
Proof.
  destruct h as [ps p fs]. unfold undo, produce, undo_recipe; simpl.
  destruct ps as [|q ps _] using rev_ind; simpl.
  { apply (finalize_createDraft (Build_HistoryState [] p fs)). }
  rewrite length_app; simpl. rewrite seq_app; simpl. rewrite !last_snoc.
  unfold finalize, deref, slice_init; simpl.
  rewrite !length_app, length_seq; simpl.
  rewrite !Nat.add_sub, !take_app_length' by (by rewrite ?length_seq).
  rewrite <- !app_assoc; simpl.
  f_equal.
  - apply (fmap_lookup_total_seq [] ps (q :: p :: fs)).
  - by apply list_lookup_total_middle.
  - f_equal.
    + rewrite (cons_middle q), app_assoc.
      apply list_lookup_total_middle. rewrite length_app; simpl; lia.
    + pose proof (fmap_lookup_total_seq (ps ++ [q; p]) fs []) as H.
      rewrite length_app, app_nil_r, <- app_assoc in H; simpl in H.
      by replace (S (length ps + 1)) with (length ps + 2) by lia.
Qed.

Lemma redo_spec h :
  redo h
  = match future h with
    | [] => h
    | next :: rest =>
        {| past := past h ++ [present h]; present := next; future := rest |}
    end.
Proof.
  destruct h as [ps p fs]. unfold redo, produce, redo_recipe; simpl.
  destruct fs as [|next rest]; simpl.
  { apply (finalize_createDraft (Build_HistoryState ps p [])). }
  unfold finalize, deref; simpl.
  rewrite fmap_app; simpl.
  f_equal.
  - f_equal.
    + apply (fmap_lookup_total_seq [] ps (p :: next :: rest)).
    + f_equal. by apply list_lookup_total_middle.
  - rewrite (cons_middle p), app_assoc.
    apply list_lookup_total_middle. rewrite length_app; simpl; lia.
  - pose proof (fmap_lookup_total_seq (ps ++ [p; next]) rest []) as H.
    rewrite length_app, app_nil_r, <- app_assoc in H; simpl in H.
    by replace (S (S (length ps))) with (length ps + 2) by lia.
Qed.
End draft_facts.

(** ** What each command does to the document and to the history *)

Lemma exec_spec c h :
  exec c h
  = {| past := if records c
               then slice_last MAX_HISTORY (past h ++ [recorded_entry c (present h)])
               else past h;
       present := document_effect c (present h);
       future := if records c then [] else future h |}.
Proof.
  destruct c; unfold recorded_entry; simpl;
    unfold setFloorplan, resetFloorplan, setName, setUnits, setBackgroundImage,
      addWall, updateWall, removeWall, addDoor, updateDoor, removeDoor,
      addWindow, updateWindow, removeWindow, addRoom, updateRoom, removeRoom,
      addFurniture, updateFurniture, removeFurniture, removeSelected;
    first [ apply produce_push_assign | apply produce_mutate | idtac ];
    unfold produce, setUnits_recipe, setBackgroundImage_recipe, addWall_recipe,
      updateWall_recipe, removeWall_recipe, addDoor_recipe, updateDoor_recipe,
      removeDoor_recipe, addWindow_recipe, updateWindow_recipe, removeWindow_recipe,
      addRoom_recipe, updateRoom_recipe, removeRoom_recipe, addFurniture_recipe,
      updateFurniture_recipe, removeFurniture_recipe, removeSelected_recipe;
    rewrite ?mutate_present_compose;
    match goal with
    | |- finalize (mutate_present ?f _) = _ => apply (produce_push_mutate f)
    end.
Qed.

Lemma exec_present c h : present (exec c h) = document_effect c (present h).
Proof. by rewrite exec_spec. Qed.

Lemma exec_future_nil c h : future h = [] → future (exec c h) = [].
Proof. rewrite exec_spec; simpl. by destruct (records c). Qed.

Lemma run_snoc cs c h : run (cs ++ [c]) h = exec c (run cs h).
Proof. unfold run. by rewrite foldl_app. Qed.

Lemma run_future_nil cs h : future h = [] → future (run cs h) = [].
Proof.
  intros Hf. induction cs as [|c cs IH] using rev_ind; [done|].
  rewrite run_snoc. by apply exec_future_nil.
Qed.

Lemma length_slice_last {A} n (xs : list A) : length (slice_last n xs) = length xs `min` n.
Proof. unfold slice_last. rewrite length_drop. lia. Qed.

(** ** Undo and redo as stack moves *)

Lemma iter_shift {A} (f : A → A) (n : nat) (x : A) :
  Nat.iter (S n) f x = Nat.iter n f (f x).
Proof. induction n as [|n IH]; simpl in *; [done|]. by rewrite IH. Qed.

Lemma iter_plus {A} (f : A → A) (n m : nat) (x : A) :
  Nat.iter (n + m) f x = Nat.iter n f (Nat.iter m f x).
Proof. induction n as [|n IH]; simpl; [done|]. by rewrite IH. Qed.

Lemma redo_undo h : past h ≠ [] → redo (undo h) = h.
Proof.
  intros Hp. rewrite undo_spec.
  destruct (last (past h)) as [q|] eqn:Hl.
  - apply last_Some in Hl as [ps Hps].
    rewrite redo_spec; simpl. unfold slice_init.
    rewrite Hps, length_app; simpl. rewrite Nat.add_sub, take_app_length.
    destruct h; simpl in *; by subst.
  - by apply last_None in Hl.
Qed.

Lemma undo_no_past h : past h = [] → undo h = h.
Proof. intros Hp. rewrite undo_spec. by rewrite Hp. Qed.

Lemma redo_no_future h : future h = [] → redo h = h.
Proof. intros Hf. rewrite redo_spec. by rewrite Hf. Qed.

Lemma iter_redo_no_future n h : future h = [] → Nat.iter n redo h = h.
Proof.
  intros Hf. induction n as [|n IH]; simpl; [done|].
  rewrite IH. by apply redo_no_future.
Qed.

(** [n] undos followed by [n] redos: the undos that hit an empty [past]
    are the only ones whose redo is not cancelled. *)
Lemma iter_redo_iter_undo n h :
  Nat.iter n redo (Nat.iter n undo h)
  = Nat.iter (n - n `min` length (past h)) redo h.
Proof.
  revert h. induction n as [|n IH]; intros h; [done|].
  rewrite (iter_shift undo). simpl Nat.iter at 1. rewrite IH.
  destruct (past h) as [|q ps] eqn:Hp.
  - rewrite undo_no_past by done. rewrite Hp; simpl.
    by rewrite Nat.min_0_r, Nat.sub_0_r.
  - assert (length (past (undo h)) = length ps) as Hlen.
    { rewrite undo_spec. destruct (last (past h)) eqn:Hl; simpl.
      - unfold slice_init. rewrite length_take, Hp; simpl. lia.
      - apply last_None in Hl. congruence. }
    rewrite Hlen.
    change (redo (Nat.iter (n - n `min` length ps) redo (undo h)))
      with (Nat.iter (S (n - n `min` length ps)) redo (undo h)).
    rewrite iter_shift, redo_undo by (by rewrite Hp).
    simpl length. by replace (S n - S n `min` S (length ps)) with (n - n `min` length ps) by lia.
Qed.

(** ** C1: undo/redo inverse law *)

(** C1.  For any sequence [cs] of n mutating commands run from a history
    whose redo stack is empty (the store as created, or any state a
    recording command leaves), n calls of [undo] followed by n calls of
    [redo] give back the document that was present right after the last
    command, field for field. *)
Theorem undo_redo_inverse (cs : list Command) (h : HistoryState) :
  future h = [] →
  present (Nat.iter (length cs) redo (Nat.iter (length cs) undo (run cs h)))
  = present (run cs h).
Proof.
  intros Hf. rewrite iter_redo_iter_undo.
  by rewrite iter_redo_no_future by (by apply run_future_nil).
Qed.

Lemma undo_redo_inverse_witness :
  future (initialState "fp0") = [] ∧
  present (Nat.iter 4 redo (Nat.iter 4 undo (run sample_walls (initialState "fp0"))))
  = present (run sample_walls (initialState "fp0")).
Proof.
  split; [reflexivity|].
  apply (undo_redo_inverse sample_walls (initialState "fp0")). reflexivity.
Defined.

(** The whole history comes back, not only the document. *)
Lemma undo_redo_inverse_state (cs : list Command) (h : HistoryState) (n : nat) :
  future h = [] →
  Nat.iter n redo (Nat.iter n undo (run cs h)) = run cs h.
Proof.
  intros Hf. rewrite iter_redo_iter_undo.
  by rewrite iter_redo_no_future by (by apply run_future_nil).
Qed.

(** From the store as created the law needs no side condition. *)
Lemma undo_redo_inverse_initial (id : string) (cs : list Command) :
  let h := run cs (initialState id) in
  present (Nat.iter (length cs) redo (Nat.iter (length cs) undo h)) = present h.
Proof. simpl. by rewrite undo_redo_inverse_state. Qed.

(** Nor from any history, as soon as one command of the sequence records. *)
Lemma run_future_nil_recorded cs h :
  Exists (λ c, records c = true) cs → future (run cs h) = [].
Proof.
  induction cs as [|c cs IH] using rev_ind; intros Hex.
  - by apply Exists_nil in Hex.
  - rewrite run_snoc. apply Exists_app in Hex as [Hex|Hex].
    + by apply exec_future_nil, IH.
    + apply Exists_cons in Hex as [Hc|Hex]; [|by apply Exists_nil in Hex].
      rewrite exec_spec; simpl. by rewrite Hc.
Qed.

Lemma undo_redo_inverse_recorded (cs : list Command) (h : HistoryState) (n : nat) :
  Exists (λ c, records c = true) cs →
  Nat.iter n redo (Nat.iter n undo (run cs h)) = run cs h.
Proof.
  intros Hex. rewrite iter_redo_iter_undo.
  by rewrite iter_redo_no_future by (by apply run_future_nil_recorded).
Qed.

(** Where the side condition bites: [setName] neither records nor clears
    [future], so after an undo a rename followed by undo/redo walks into
    the stale redo stack. *)
Lemma undo_redo_after_setName_only :
  let h := undo (exec (SetUnits metric) (initialState "fp0")) in
  let h' := run [SetName "A"] h in
  future h ≠ [] ∧ present (redo (undo h')) ≠ present h'.
Proof. vm_compute. split; discriminate. Qed.

(** ** C4: history cap *)

Lemma step_retained a h : retained h ≤ MAX_HISTORY → retained (step a h) ≤ MAX_HISTORY.
Proof.
  unfold retained. intros Hinv. destruct a as [c| |]; cbn [step].
  - rewrite exec_spec; simpl. destruct (records c); simpl; [|done].
    rewrite length_slice_last. lia.
  - rewrite undo_spec. destruct (last (past h)) as [q|] eqn:Hl; simpl; [|done].
    apply last_Some in Hl as [ps Hps]. unfold slice_init.
    rewrite length_take. rewrite Hps, length_app in *. simpl in *. lia.
  - rewrite redo_spec. destruct h as [ps p [|q fs]]; simpl in *; [lia|].
    rewrite length_app. simpl. lia.
Qed.

Lemma steps_retained acts h : retained h ≤ MAX_HISTORY → retained (steps acts h) ≤ MAX_HISTORY.
Proof.
  intros Hinv. induction acts as [|a acts IH] using rev_ind; [done|].
  unfold steps. rewrite foldl_app; simpl. by apply step_retained.
Qed.

Lemma length_past_iter_undo n h :
  length (past (Nat.iter n undo h)) = length (past h) - n.
Proof.
  induction n as [|n IH]; [simpl; lia|].
  change (Nat.iter (S n) undo h) with (undo (Nat.iter n undo h)).
  rewrite undo_spec.
  destruct (last (past (Nat.iter n undo h))) as [q|] eqn:Hl; simpl.
  - unfold slice_init. rewrite length_take. lia.
  - apply last_None in Hl. rewrite Hl in *. simpl in *. lia.
Qed.

Lemma iter_undo_no_past n h : past h = [] → Nat.iter n undo h = h.
Proof.
  intros Hp. induction n as [|n IH]; simpl; [done|].
  rewrite IH. by apply undo_no_past.
Qed.

(** C4.  In every state reachable from the store as created by mutating
    commands, undo and redo, [past] holds at most 50 entries; a recording
    command met with a full [past] drops its oldest entry; and the 51st
    and later undos in a row change nothing. *)
Theorem history_cap (id : string) (acts : list Action) :
  let h := steps acts (initialState id) in
  length (past h) ≤ MAX_HISTORY
  ∧ (∀ c, records c = true → length (past h) = MAX_HISTORY →
       past (exec c h) = drop 1 (past h) ++ [recorded_entry c (present h)])
  ∧ (∀ k, Nat.iter (MAX_HISTORY + k) undo h = Nat.iter MAX_HISTORY undo h).
Proof.
  intros h.
  assert (retained h ≤ MAX_HISTORY) as Hinv.
  { apply steps_retained. unfold retained, MAX_HISTORY; simpl. lia. }
  assert (length (past h) ≤ MAX_HISTORY) as Hlen by (unfold retained in Hinv; lia).
  split; [done|]. split.
  - intros c Hc Hfull. rewrite exec_spec, Hc; simpl.
    unfold slice_last. rewrite length_app, Hfull; simpl length.
    replace (MAX_HISTORY + 1 - MAX_HISTORY) with 1 by lia.
    by rewrite drop_app_le by (rewrite Hfull; unfold MAX_HISTORY; lia).
  - intros k. rewrite (Nat.add_comm MAX_HISTORY k), iter_plus.
    apply iter_undo_no_past.
    apply length_zero_iff_nil. rewrite length_past_iter_undo. lia.
Qed.

Lemma history_cap_witness :
  let h := steps fifty_edits (initialState "fp0") in
  length (past h) = MAX_HISTORY
  ∧ past (exec (SetUnits imperial) h)
    = drop 1 (past h) ++ [recorded_entry (SetUnits imperial) (present h)].
Proof.
  intros h.
  assert (length (past h) = MAX_HISTORY) as Hfull by (vm_compute; reflexivity).
  split; [exact Hfull|].
  exact (proj1 (proj2 (history_cap "fp0" fifty_edits)) (SetUnits imperial) eq_refl Hfull).
Defined.

(** ** C2 and C3: what the recorded snapshot is

    [pushToHistory] appends the reference [state.present] to [past]; the
    statements after it write through that same reference.  The entry
    that ends up in [past] is therefore the document as it stands when
    the recipe returns. *)

Lemma last_slice_last_snoc {A} (xs : list A) (x : A) :
  last (slice_last MAX_HISTORY (xs ++ [x])) = Some x.
Proof.
  unfold slice_last. rewrite length_app; simpl.
  rewrite last_lookup, length_drop, length_app; simpl.
  rewrite lookup_drop.
  replace (_ + _) with (length xs) by (unfold MAX_HISTORY; lia).
  by apply list_lookup_middle.
Qed.

(** A command that writes in place records its own result. *)
Lemma in_place_records_result c h :
  records c = true → writes_in_place c = true →
  last (past (exec c h)) = Some (present (exec c h)).
Proof.
  intros Hr Hw. rewrite exec_spec, Hr; simpl. unfold recorded_entry. rewrite Hw.
  apply last_slice_last_snoc.
Qed.

(** A command that rebinds [state.present] records the document it replaced. *)
Lemma rebind_records_previous c h :
  writes_in_place c = false → last (past (exec c h)) = Some (present h).
Proof.
  intros Hw. rewrite exec_spec. destruct c; try discriminate; simpl;
    apply last_slice_last_snoc.
Qed.

(** So one undo after an in-place command leaves the document as the
    command made it. *)
Lemma undo_after_in_place c h :
  records c = true → writes_in_place c = true →
  present (undo (exec c h)) = present (exec c h).
Proof.
  intros Hr Hw. rewrite undo_spec. by rewrite in_place_records_result.
Qed.

(** C2.  [setName] changes the document without recording anything: [past]
    gets no entry and a non-empty [future] stays as it is.  The recording
    commands that write in place ([addWall] here) do append one entry and
    empty [future], but the entry is the document after the change, not
    the one before it.  [canUndo] and [canRedo] only read. *)
Theorem snapshot_discipline_broken :
  let h0 := initialState "fp0" in
  let h1 := undo (setUnits metric h0) in
  (past (setName "Plan A" h0) = []
   ∧ present (setName "Plan A" h0) ≠ present h0)
  ∧ (future h1 ≠ [] ∧ future (setName "Plan A" h1) = future h1)
  ∧ (let h2 := addWall "w1" (wall_start w1) (wall_end w1) None h0 in
     past h2 = [present h2] ∧ future h2 = [] ∧ present h2 ≠ present h0).
Proof. vm_compute. repeat split; (reflexivity || discriminate). Qed.

(** What does hold of every command: at most one entry is appended, and
    [setName] is the only one that appends none. *)
Lemma exec_appends_at_most_one c h :
  length (past h) < MAX_HISTORY →
  past (exec c h)
  = if records c then past h ++ [recorded_entry c (present h)] else past h.
Proof.
  intros Hlt. rewrite exec_spec; simpl. destruct (records c); [|done].
  unfold slice_last. rewrite length_app; simpl.
  by replace (_ - _) with 0 by lia.
Qed.

Lemma setName_spec v h :
  setName v h = {| past := past h; present := set_name v (present h); future := future h |}.
Proof. apply produce_mutate. Qed.

(** C3.  On a document with wall w1, door d1 on w1 and window n1 on w1,
    [removeWall "w1"] removes all three in one recipe and appends one
    entry to [past]; the single [undo] that follows brings back none of
    them, because the appended entry is the document after the removal. *)
Theorem removeWall_undo_restores_nothing :
  let h := one_wall_house in
  let removed := removeWall "w1" h in
  (walls (present h) = [w1] ∧ doors (present h) = [d1] ∧ windows (present h) = [n1])
  ∧ (walls (present removed) = [] ∧ doors (present removed) = []
     ∧ windows (present removed) = []
     ∧ length (past removed) = S (length (past h)))
  ∧ (walls (present (undo removed)) = [] ∧ doors (present (undo removed)) = []
     ∧ windows (present (undo removed)) = []).
Proof. vm_compute. repeat split; reflexivity. Qed.

(** The same for every document and id. *)
Lemma removeWall_undo_present id h :
  present (undo (removeWall id h)) = present (removeWall id h).
Proof. by apply (undo_after_in_place (RemoveWall id)). Qed.

(** The cascade itself is as described: no wall with the id, no door and
    no window on it, everything else kept. *)
Lemma removeWall_cascade id h :
  let p := present h in
  let p' := present (removeWall id h) in
  walls p' = filter (λ w, wall_id w ≠ id) (walls p)
  ∧ doors p' = filter (λ x, door_wallId x ≠ id) (doors p)
  ∧ windows p' = filter (λ w, window_wallId w ≠ id) (windows p)
  ∧ rooms p' = rooms p ∧ furniture p' = furniture p.
Proof.
  intros p p'. unfold p', p.
  change (removeWall id h) with (exec (RemoveWall id) h).
  by rewrite exec_present.
Qed.

(** Wall, door and window do come back together, one undo later. *)
Lemma removeWall_second_undo :
  present (undo (undo (removeWall "w1" one_wall_house))) = present one_wall_house.
Proof. vm_compute. reflexivity. Qed.

(** ** C5: door and window positions *)

Lemma addDoor_present id wallId position width h :
  present (addDoor id wallId position width h)
  = document_effect (AddDoor id wallId position width) (present h).
Proof. apply (exec_present (AddDoor id wallId position width)). Qed.

Lemma addWindow_present id wallId position width height h :
  present (addWindow id wallId position width height h)
  = document_effect (AddWindow id wallId position width height) (present h).
Proof. apply (exec_present (AddWindow id wallId position width height)). Qed.

(** C5 fails as stated: a position of 3/2 is stored as 3/2 by [addDoor],
    and a position of -1/2 as -1/2 by [addWindow]. *)
Lemma position_not_clamped :
  (∃ d, doors (present (addDoor "d1" "w1" (3 # 2) None (initialState "fp0"))) = [d]
        ∧ ¬ in_unit_interval (door_position d))
  ∧ (∃ w, windows (present (addWindow "n1" "w1" (-1 # 2) None None (initialState "fp0"))) = [w]
          ∧ ¬ in_unit_interval (window_position w)).
Proof.
  split; eexists; (split; [vm_compute; reflexivity|]);
    unfold in_unit_interval; simpl; intros [H0 H1]; revert H0 H1;
    unfold Qle; simpl; lia.
Qed.

(** C5 (amended).  [addDoor] and [addWindow] append a door/window whose
    position is the given number, unchanged; it lies in [0,1] exactly when
    the argument does. *)
Theorem position_stored_as_given (id wallId : string) (position : Q)
    (width height : option Q) (h : HistoryState) :
  (∃ d, doors (present (addDoor id wallId position width h)) = doors (present h) ++ [d]
        ∧ door_id d = id ∧ door_wallId d = wallId
        ∧ door_position d = position
        ∧ (in_unit_interval (door_position d) ↔ in_unit_interval position))
  ∧ (∃ w, windows (present (addWindow id wallId position width height h))
          = windows (present h) ++ [w]
          ∧ window_id w = id ∧ window_wallId w = wallId
          ∧ window_position w = position
          ∧ (in_unit_interval (window_position w) ↔ in_unit_interval position)).
Proof.
  split.
  - rewrite addDoor_present; simpl. eexists; split; [reflexivity|]. by simpl.
  - rewrite addWindow_present; simpl. eexists; split; [reflexivity|]. by simpl.
Qed.

(** ** C6: dangling ids *)

Lemma find_assign_absent {A} (P : A → Prop) `{!∀ a, Decision (P a)} (f : A → A) xs :
  Forall (λ x, ¬ P x) xs → find_assign P f xs = xs.
Proof.
  intros Hall. unfold find_assign.
  by rewrite (proj2 (list_find_None P xs) Hall).
Qed.

Lemma find_assign_no_id {A} (key : A → string) (id : string) (f : A → A) xs :
  id ∉ key <$> xs → find_assign (λ x, key x = id) f xs = xs.
Proof.
  intros Hid. apply find_assign_absent, Forall_forall.
  intros x Hx Heq. apply Hid. subst id. by apply list_elem_of_fmap_2.
Qed.

Lemma filter_idem {A} (P : A → Prop) `{!∀ a, Decision (P a)} (xs : list A) :
  filter P (filter P xs) = filter P xs.
Proof. rewrite list_filter_filter. apply list_filter_iff. tauto. Qed.

Lemma set_walls_id p : set_walls (walls p) p = p.
Proof. by destruct p. Qed.
Lemma set_doors_id p : set_doors (doors p) p = p.
Proof. by destruct p. Qed.
Lemma set_windows_id p : set_windows (windows p) p = p.
Proof. by destruct p. Qed.
Lemma set_rooms_id p : set_rooms (rooms p) p = p.
Proof. by destruct p. Qed.
Lemma set_furniture_id p : set_furniture (furniture p) p = p.
Proof. by destruct p. Qed.

(** An update whose id names no element of its collection leaves the
    document as it is. *)
Lemma update_absent_effect (c : Command) (p : Floorplan) :
  match c with
  | UpdateWall id _ => id ∉ wall_id <$> walls p
  | UpdateDoor id _ => id ∉ door_id <$> doors p
  | UpdateWindow id _ => id ∉ window_id <$> windows p
  | UpdateRoom id _ => id ∉ room_id <$> rooms p
  | UpdateFurniture id _ => id ∉ furniture_id <$> furniture p
  | _ => False
  end → document_effect c p = p.
Proof.
  destruct c; try done; intros Hid; simpl; rewrite find_assign_no_id by done.
  - apply set_walls_id.
  - apply set_doors_id.
  - apply set_windows_id.
  - apply set_rooms_id.
  - apply set_furniture_id.
Qed.

(** Removing twice is removing once, for every remove command. *)
Lemma remove_effect_idem (c : Command) (p : Floorplan) :
  match c with
  | RemoveWall _ | RemoveDoor _ | RemoveWindow _ | RemoveRoom _
  | RemoveFurniture _ | RemoveSelected _ => True
  | _ => False
  end → document_effect c (document_effect c p) = document_effect c p.
Proof.
  destruct c; intros H; try (destruct H); destruct p;
    cbn [document_effect set_walls set_doors set_windows set_rooms set_furniture
         walls doors windows rooms furniture fp_id name units scale gridSize
         backgroundImage];
    by rewrite !filter_idem.
Qed.

Lemma update_absent_present (c : Command) (h : HistoryState) :
  match c with
  | UpdateWall id _ => id ∉ wall_id <$> walls (present h)
  | UpdateDoor id _ => id ∉ door_id <$> doors (present h)
  | UpdateWindow id _ => id ∉ window_id <$> windows (present h)
  | UpdateRoom id _ => id ∉ room_id <$> rooms (present h)
  | UpdateFurniture id _ => id ∉ furniture_id <$> furniture (present h)
  | _ => False
  end → present (exec c h) = present h.
Proof. intros Hid. rewrite exec_present. by apply update_absent_effect. Qed.

Lemma remove_twice_present (c : Command) (h : HistoryState) :
  match c with
  | RemoveWall _ | RemoveDoor _ | RemoveWindow _ | RemoveRoom _
  | RemoveFurniture _ | RemoveSelected _ => True
  | _ => False
  end → present (exec c (exec c h)) = present (exec c h).
Proof. intros Hc. rewrite !exec_present. by apply remove_effect_idem. Qed.

(** C6.  With an id that names no element of the document, every
    [update*] leaves the present document unchanged; and for any id,
    every [remove*] (and [removeSelected]) applied twice gives the same
    document as applied once. *)
Theorem dangling_id_noop (h : HistoryState) (id : string) :
  (id ∉ element_ids (present h) →
     (∀ u, present (updateWall id u h) = present h)
     ∧ (∀ u, present (updateDoor id u h) = present h)
     ∧ (∀ u, present (updateWindow id u h) = present h)
     ∧ (∀ u, present (updateRoom id u h) = present h)
     ∧ (∀ u, present (updateFurniture id u h) = present h))
  ∧ present (removeWall id (removeWall id h)) = present (removeWall id h)
  ∧ present (removeDoor id (removeDoor id h)) = present (removeDoor id h)
  ∧ present (removeWindow id (removeWindow id h)) = present (removeWindow id h)
  ∧ present (removeRoom id (removeRoom id h)) = present (removeRoom id h)
  ∧ present (removeFurniture id (removeFurniture id h)) = present (removeFurniture id h)
  ∧ (∀ ids, present (removeSelected ids (removeSelected ids h))
            = present (removeSelected ids h)).
Proof.
  split.
  - unfold element_ids. rewrite !not_elem_of_app. intros (Hw & Hd & Hn & Hr & Hf).
    repeat split; intros u.
    + by apply (update_absent_present (UpdateWall id u)).
    + by apply (update_absent_present (UpdateDoor id u)).
    + by apply (update_absent_present (UpdateWindow id u)).
    + by apply (update_absent_present (UpdateRoom id u)).
    + by apply (update_absent_present (UpdateFurniture id u)).
  - repeat split; intros.
    + by apply (remove_twice_present (RemoveWall id)).
    + by apply (remove_twice_present (RemoveDoor id)).
    + by apply (remove_twice_present (RemoveWindow id)).
    + by apply (remove_twice_present (RemoveRoom id)).
    + by apply (remove_twice_present (RemoveFurniture id)).
    + by apply (remove_twice_present (RemoveSelected ids)).
Qed.

Lemma dangling_id_noop_witness :
  ("nope" ∉ element_ids (present one_wall_house))
  ∧ present (updateWall "nope" {| wu_start := None; wu_end := None;
                                  wu_thickness := Some (8 # 1)%Q |} one_wall_house)
    = present one_wall_house
  ∧ present (removeWall "w1" (removeWall "w1" one_wall_house))
    = present (removeWall "w1" one_wall_house).
Proof.
  assert ("nope" ∉ element_ids (present one_wall_house)) as Hid.
  { vm_compute. intros H. repeat (apply elem_of_cons in H as [H|H]; [discriminate|]).
    by apply elem_of_nil in H. }
  split; [exact Hid|]. split.
  - destruct (dangling_id_noop one_wall_house "nope") as [Hupd _].
    destruct (Hupd Hid) as [Hwall _]. exact (Hwall _).
  - destruct (dangling_id_noop one_wall_house "w1") as (_ & Hrem & _).
    exact Hrem.
Defined.

(** ** C8: snapping *)

Section snapping.
Local Open Scope Q_scope.

Lemma snapSize_60 : snapSize == 60.
Proof. reflexivity. Qed.

Lemma Math_round_bounds q :
  Math_round q - (1 # 2) <= q ∧ q < Math_round q + (1 # 2).
Proof.
  unfold Math_round.
  pose proof (Qfloor_le (q + (1 # 2))) as Hlo.
  pose proof (Qlt_floor (q + (1 # 2))) as Hhi.
  rewrite inject_Z_plus in Hhi. change (inject_Z 1) with 1 in Hhi.
  split; lra.
Qed.

Lemma Math_round_integer (k : Z) : Math_round (inject_Z k) = inject_Z k.
Proof.
  unfold Math_round. f_equal.
  pose proof (Qfloor_le (inject_Z k + (1 # 2))) as Hlo.
  pose proof (Qlt_floor (inject_Z k + (1 # 2))) as Hhi.
  set (f := Qfloor (inject_Z k + (1 # 2))) in *.
  assert (inject_Z f < inject_Z (k + 1)) as H1
    by (rewrite inject_Z_plus; change (inject_Z 1) with 1; lra).
  assert (inject_Z k < inject_Z (f + 1)) as H2 by lra.
  rewrite <- Zlt_Qlt in H1, H2. lia.
Qed.

(** Distinct integers are at least 1 apart, also as rationals. *)
Lemma inject_Z_apart (k m : Z) :
  inject_Z k <= inject_Z m - 1 ∨ k = m ∨ inject_Z m + 1 <= inject_Z k.
Proof.
  destruct (Z.lt_trichotomy k m) as [Hlt|[Heq|Hgt]].
  - left. assert (k + 1 <= m)%Z as H by lia.
    rewrite Zle_Qle, inject_Z_plus in H. change (inject_Z 1) with 1 in H. lra.
  - by right; left.
  - right; right. assert (m + 1 <= k)%Z as H by lia.
    rewrite Zle_Qle, inject_Z_plus in H. change (inject_Z 1) with 1 in H. lra.
Qed.

Lemma snap_nearest (q : Q) (k : Z) :
  Qabs (Math_round (q / snapSize) * snapSize - q)
  <= Qabs (inject_Z k * snapSize - q).
Proof.
  assert (q == q / snapSize * 60) as Hq by (unfold snapSize, DEFAULTS.snapIncrement,
    DEFAULTS.scale; field).
  rewrite snapSize_60 at 2 3.
  destruct (Math_round_bounds (q / snapSize)) as [Hlo Hhi].
  unfold Math_round in *.
  set (m := Qfloor (q / snapSize + (1 # 2))) in *.
  set (r := q / snapSize) in *.
  apply Qabs_Qle_condition.
  destruct (inject_Z_apart k m) as [Hk|[->|Hk]].
  - rewrite (Qabs_neg (inject_Z k * 60 - q)) by lra. split; lra.
  - apply Qabs_Qle_condition. apply Qle_refl.
  - rewrite (Qabs_pos (inject_Z k * 60 - q)) by lra. split; lra.
Qed.

Lemma snap_on_grid (q : Q) : on_grid (Math_round (q / snapSize) * snapSize).
Proof. by exists (Qfloor (q / snapSize + (1 # 2))). Qed.

Lemma snap_fixes_grid (q : Q) :
  on_grid q → Math_round (q / snapSize) * snapSize == q.
Proof.
  intros [k Hk].
  assert (q / snapSize == inject_Z k) as Hr.
  { rewrite Hk. unfold snapSize, DEFAULTS.snapIncrement, DEFAULTS.scale. field. }
  unfold Math_round. rewrite (Qfloor_comp _ _ (Qplus_comp _ _ Hr _ _ (Qeq_refl _))).
  fold (Math_round (inject_Z k)). rewrite Math_round_integer. by rewrite Hk.
Qed.
End snapping.

(** C8.  With snap-to-grid off the point comes back unchanged.  With it
    on, each coordinate is mapped on its own to a multiple of the snap
    increment (6 inches times the scale of 10, i.e. 60) that is at least as
    close to it as any other multiple; a coordinate already on the grid
    is returned as it is, so snapping twice is snapping once. *)
Theorem snapToGridPoint_spec (x y : Q) :
  snapToGridPoint false x y = {| pt_x := x; pt_y := y |}
  ∧ (let s := snapToGridPoint true x y in
     pt_x s = pt_x (snapToGridPoint true x 0)
     ∧ pt_y s = pt_y (snapToGridPoint true 0 y)
     ∧ on_grid (pt_x s) ∧ on_grid (pt_y s)
     ∧ (∀ k : Z, (Qabs (pt_x s - x) <= Qabs (inject_Z k * snapSize - x))%Q)
     ∧ (∀ k : Z, (Qabs (pt_y s - y) <= Qabs (inject_Z k * snapSize - y))%Q)
     ∧ (snapSize == 60)%Q)
  ∧ (on_grid x → on_grid y →
     (pt_x (snapToGridPoint true x y) == x)%Q
     ∧ (pt_y (snapToGridPoint true x y) == y)%Q)
  ∧ (let s := snapToGridPoint true x y in
     let s' := snapToGridPoint true (pt_x s) (pt_y s) in
     (pt_x s' == pt_x s)%Q ∧ (pt_y s' == pt_y s)%Q).
Proof.
  split; [done|]. unfold snapToGridPoint; cbn [negb pt_x pt_y]. split; [|split].
  - repeat split; auto using snap_on_grid, snap_nearest.
  - intros Hx Hy. split; by apply snap_fixes_grid.
  - split; apply snap_fixes_grid, snap_on_grid.
Qed.

Lemma snapToGridPoint_spec_witness :
  on_grid 120 ∧ on_grid (-60)
  ∧ (pt_x (snapToGridPoint true 120 (-60)) == 120)%Q
  ∧ (pt_y (snapToGridPoint true 120 (-60)) == -60)%Q.
Proof.
  assert (on_grid 120) as H1 by (exists 2%Z; reflexivity).
  assert (on_grid (-60)) as H2 by (exists (-1)%Z; reflexivity).
  split; [exact H1|]. split; [exact H2|].
  exact (proj1 (proj2 (proj2 (snapToGridPoint_spec 120 (-60)))) H1 H2).
Defined.

Example snap_round_half_up :
  snapToGridPoint true 30 (-30) = {| pt_x := 60; pt_y := 0 |}.
Proof. reflexivity. Qed.

Example snap_round_down :
  snapToGridPoint true 89 (151 # 2) = {| pt_x := 60; pt_y := 60 |}.
Proof. reflexivity. Qed.

(** ** Binary64 rounding and the length guard *)

Section binary64.
Open Scope Q_scope.

Lemma pow2_pos e : 0 < pow2 e.
Proof. apply Qpower_0_lt. reflexivity. Qed.

Lemma pow2_add a b : pow2 (a + b) == pow2 a * pow2 b.
Proof. apply Qpower_plus. discriminate. Qed.

Lemma pow2_le a b : (a <= b)%Z → pow2 a <= pow2 b.
Proof. intros H. apply Qpower_le_compat_l; [exact H|discriminate]. Qed.

Lemma pow2_lt a b : (a < b)%Z → pow2 a < pow2 b.
Proof. intros H. apply Qpower_lt_compat_l; [exact H|reflexivity]. Qed.

Lemma pow2_lt_inv a b : pow2 a < pow2 b → (a < b)%Z.
Proof. intros H. apply (Qpower_lt_compat_l_inv 2); [exact H|reflexivity]. Qed.

Lemma pow2_succ a : pow2 (a + 1) == 2 * pow2 a.
Proof. rewrite pow2_add. change (pow2 1) with 2. ring. Qed.

Lemma pow2_pred a : pow2 (a - 1) == (1 # 2) * pow2 a.
Proof.
  replace a with ((a - 1) + 1)%Z at 2 by lia. rewrite pow2_succ. field.
Qed.

Lemma pow2_nonneg_Z (n : Z) : (0 <= n)%Z → pow2 n == inject_Z (2 ^ n).
Proof. intros H. unfold pow2. by rewrite Zpower_Qpower. Qed.

Lemma ratio_bounds (A B N D : Q) :
  0 < A → 0 < B → A <= N → N < 2 * A → B <= D → D < 2 * B →
  (1 # 2) * (A / B) < N / D ∧ N / D < 2 * (A / B).
Proof.
  intros HA HB HN1 HN2 HD1 HD2.
  assert (0 < D) as HD0 by lra.
  assert (0 < A / B) as HR0 by (apply Qlt_shift_div_l; lra).
  assert (A / B * B == A) as HR by (field; lra).
  set (R := A / B) in *. clearbody R. split.
  - apply Qlt_shift_div_l; [done|].
    assert (R * D < R * (2 * B)) as H1 by (by apply Qmult_lt_l).
    lra.
  - apply Qlt_shift_div_r; [done|].
    assert (R * B <= R * D) as H1 by (apply Qmult_le_l; done).
    lra.
Qed.

Lemma Qabs_num_den q : Qabs q == inject_Z (Z.abs (Qnum q)) / inject_Z (Zpos (Qden q)).
Proof.
  destruct q as [n d]. unfold Qabs; cbn [Qnum Qden].
  rewrite (Qmake_Qdiv (Z.abs n) d). reflexivity.
Qed.

Lemma binade_bounds q :
  ¬ q == 0 → pow2 (binade q) <= Qabs q ∧ Qabs q < pow2 (binade q + 1).
Proof.
  intros Hq. unfold binade.
  assert (0 < Z.abs (Qnum q))%Z as Hn.
  { destruct (Z.eq_dec (Qnum q) 0) as [H0|H0]; [|lia].
    exfalso. apply Hq. unfold Qeq. rewrite H0. reflexivity. }
  set (n := Z.abs (Qnum q)) in *. set (d := Zpos (Qden q)).
  assert (0 < d)%Z as Hd by (unfold d; lia).
  destruct (Z.log2_spec n Hn) as [Hn1 Hn2]. destruct (Z.log2_spec d Hd) as [Hd1 Hd2].
  pose proof (Z.log2_nonneg n) as Hln. pose proof (Z.log2_nonneg d) as Hld.
  set (ln := Z.log2 n) in *. set (ld := Z.log2 d) in *.
  assert (Qabs q == inject_Z n / inject_Z d) as Habs by apply Qabs_num_den.
  assert (pow2 ln <= inject_Z n ∧ inject_Z n < 2 * pow2 ln) as [HN1 HN2].
  { rewrite (pow2_nonneg_Z ln) by done. split; [by rewrite <- Zle_Qle|].
    change 2 with (inject_Z 2). rewrite <- inject_Z_mult, <- Zlt_Qlt.
    replace (Z.succ ln) with (ln + 1)%Z in Hn2 by lia.
    rewrite Z.pow_add_r in Hn2 by lia. lia. }
  assert (pow2 ld <= inject_Z d ∧ inject_Z d < 2 * pow2 ld) as [HD1 HD2].
  { rewrite (pow2_nonneg_Z ld) by done. split; [by rewrite <- Zle_Qle|].
    change 2 with (inject_Z 2). rewrite <- inject_Z_mult, <- Zlt_Qlt.
    replace (Z.succ ld) with (ld + 1)%Z in Hd2 by lia.
    rewrite Z.pow_add_r in Hd2 by lia. lia. }
  assert (pow2 (ln - ld) == pow2 ln / pow2 ld) as Hk.
  { unfold pow2. apply Qpower_minus. discriminate. }
  pose proof (pow2_pos ln) as Pn. pose proof (pow2_pos ld) as Pd.
  assert (0 < inject_Z d) as HD0 by (apply (Qlt_le_trans _ (pow2 ld)); done).
  assert ((1 # 2) * pow2 (ln - ld) < Qabs q ∧ Qabs q < 2 * pow2 (ln - ld)) as [Hlo Hhi].
  { rewrite Habs, Hk. by apply ratio_bounds. }
  destruct (Qle_bool (pow2 (ln - ld)) (Qabs q)) eqn:Hle.
  - apply Qle_bool_iff in Hle. split; [done|]. by rewrite pow2_succ.
  - assert (Qabs q < pow2 (ln - ld)) as Hlt.
    { apply Qnot_le_lt. intros H. apply Qle_bool_iff in H. congruence. }
    split.
    + rewrite pow2_pred. by apply Qlt_le_weak.
    + by replace (ln - ld - 1 + 1)%Z with (ln - ld)%Z by lia.
Qed.

Lemma round_half_even_error x : Qabs (inject_Z (round_half_even x) - x) <= 1 # 2.
Proof.
  unfold round_half_even.
  pose proof (Qfloor_le x) as Hlo. pose proof (Qlt_floor x) as Hhi.
  rewrite inject_Z_plus in Hhi. change (inject_Z 1) with 1 in Hhi.
  set (f := Qfloor x) in *. clearbody f.
  apply Qabs_Qle_condition.
  destruct (x - inject_Z f ?= (1 # 2)) eqn:Hc.
  - apply Qeq_alt in Hc.
    destruct (Z.even f); [|rewrite inject_Z_plus; change (inject_Z 1) with 1];
      split; lra.
  - apply Qlt_alt in Hc. split; lra.
  - apply Qgt_alt in Hc. rewrite inject_Z_plus; change (inject_Z 1) with 1. split; lra.
Qed.

Lemma round_half_even_integer x z : x == inject_Z z → round_half_even x = z.
Proof.
  intros Hx. unfold round_half_even.
  assert (Qfloor x = z) as -> by (rewrite (Qfloor_comp _ _ Hx); apply Qfloor_Z).
  assert ((x - inject_Z z ?= (1 # 2)) = Lt) as ->; [|done].
  apply (proj1 (Qlt_alt _ _)). lra.
Qed.

(** The rounding error of [round64]: half a unit in the last place. *)
Lemma round64_half_ulp q : Qabs (round64 q - q) <= pow2 (quantum q - 1).
Proof.
  unfold round64. set (p := quantum q). pose proof (pow2_pos p) as Hp.
  pose proof (round_half_even_error (q / pow2 p)) as He.
  set (r := inject_Z (round_half_even (q / pow2 p))) in *.
  assert (r * pow2 p - q == (r - q / pow2 p) * pow2 p) as -> by (field; lra).
  rewrite Qabs_Qmult, (Qabs_pos (pow2 p)) by lra. rewrite pow2_pred.
  apply Qmult_le_compat_r; lra.
Qed.

Lemma round64_zero q : q == 0 → round64 q == 0.
Proof.
  intros H0. unfold round64. generalize (pow2 (quantum q)). intros w.
  rewrite (round_half_even_integer _ 0); [ring|].
  rewrite H0. unfold Qdiv. ring.
Qed.

Lemma round64_error q :
  Qabs (round64 q - q) <= Qabs q * pow2 (-53) + pow2 (-1075).
Proof.
  pose proof (pow2_pos (-1075)) as H1. pose proof (pow2_pos (-53)) as H2.
  pose proof (Qabs_nonneg q) as H3.
  destruct (Qeq_dec q 0) as [H0|H0].
  { rewrite (round64_zero q H0).
    assert (Qabs (0 - q) == 0) as -> by (rewrite H0; reflexivity). nra. }
  eapply Qle_trans; [apply round64_half_ulp|].
  destruct (binade_bounds q H0) as [Hlo _].
  unfold quantum. destruct (Z.max_spec (binade q - 52) (-1074)) as [[_ ->]|[Hge ->]].
  - change (-1074 - 1)%Z with (-1075)%Z. nra.
  - replace (binade q - 52 - 1)%Z with (binade q + -53)%Z by lia.
    rewrite pow2_add. nra.
Qed.
End binary64.

Section binary64_sqrt.
Open Scope Q_scope.

(** What [Math_sqrt] computes with: the integer root [c] brackets the
    real root of [s] between two neighbouring doubles. *)
Lemma Math_sqrt_bracket s :
  0 < s →
  let e := (binade s / 2)%Z in
  let w := pow2 (e - 52) in
  let c := Z.sqrt (Qfloor (s / pow2 (2 * (e - 52)))) in
  pow2 (2 * e) <= s ∧ s < pow2 (2 * e + 2)
  ∧ inject_Z c * w * (inject_Z c * w) <= s
  ∧ s < (inject_Z c + 1) * w * ((inject_Z c + 1) * w)
  ∧ pow2 e <= inject_Z c * w.
Proof.
  intros Hs e w c.
  assert (¬ s == 0) as Hs0 by (intros H; rewrite H in Hs; discriminate).
  destruct (binade_bounds s Hs0) as [Hlo Hhi]. rewrite Qabs_pos in Hlo, Hhi by lra.
  assert (2 * e <= binade s ∧ binade s <= 2 * e + 1)%Z as [He1 He2].
  { unfold e. pose proof (Z.div_mod (binade s) 2 ltac:(lia)) as Hdm.
    pose proof (Z.mod_pos_bound (binade s) 2 ltac:(lia)). lia. }
  assert (pow2 (2 * e) <= s) as Hs1 by (eapply Qle_trans; [apply pow2_le, He1|exact Hlo]).
  assert (s < pow2 (2 * e + 2)) as Hs2.
  { eapply Qlt_le_trans; [exact Hhi|]. apply pow2_le. lia. }
  pose proof (pow2_pos (e - 52)) as Hw. fold w in Hw.
  assert (pow2 (2 * (e - 52)) == w * w) as Hww.
  { unfold w. rewrite <- pow2_add. by replace (2 * (e - 52))%Z with (e - 52 + (e - 52))%Z by lia. }
  assert (pow2 (2 * e) == pow2 104 * (w * w)) as He104.
  { rewrite <- Hww, <- pow2_add. by replace (2 * e)%Z with (104 + 2 * (e - 52))%Z by lia. }
  set (T := s / pow2 (2 * (e - 52))) in *.
  assert (T * (w * w) == s) as HT by (unfold T; rewrite Hww; field; lra).
  assert (pow2 104 <= T) as HT104.
  { apply (Qmult_le_r _ _ (w * w)); [nra|]. rewrite HT, <- He104. exact Hs1. }
  pose proof (Qfloor_le T) as HF1. pose proof (Qlt_floor T) as HF2.
  set (F := Qfloor T) in *.
  assert (2 ^ 104 <= F)%Z as HF104.
  { unfold F. rewrite <- (Qfloor_Z (2 ^ 104)). apply Qfloor_resp_le.
    by rewrite <- (pow2_nonneg_Z 104). }
  destruct (Z.sqrt_spec F ltac:(lia)) as [Hc1 Hc2]. fold c in Hc1, Hc2.
  assert (2 ^ 52 <= c)%Z as Hc52.
  { unfold c. change (2 ^ 52)%Z with (Z.sqrt (2 ^ 104)). by apply Z.sqrt_le_mono. }
  assert (inject_Z c * inject_Z c <= T) as HcT.
  { eapply Qle_trans; [|exact HF1]. rewrite <- inject_Z_mult. by rewrite <- Zle_Qle. }
  assert (T < (inject_Z c + 1) * (inject_Z c + 1)) as HTc.
  { eapply Qlt_le_trans; [exact HF2|].
    change 1 with (inject_Z 1). rewrite <- inject_Z_plus, <- inject_Z_mult, <- Zle_Qle. lia. }
  assert (pow2 52 <= inject_Z c) as HC52.
  { rewrite (pow2_nonneg_Z 52) by lia. by rewrite <- Zle_Qle. }
  clearbody T F c. repeat split; try done.
  - rewrite <- HT. nra.
  - rewrite <- HT. nra.
  - replace e with (52 + (e - 52))%Z at 1 by lia. rewrite pow2_add. fold w. nra.
Qed.
End binary64_sqrt.

Section binary64_guard.
Open Scope Q_scope.

Lemma Math_sqrt_zero s : s == 0 → Math_sqrt s == 0.
Proof.
  intros H0. unfold Math_sqrt. generalize (binade s / 2 - 52)%Z. intros p.
  assert (Qfloor (s / pow2 (2 * p)) = 0%Z) as ->.
  { rewrite <- (Qfloor_Z 0). apply Qfloor_comp. rewrite H0. unfold Qdiv. ring. }
  change (Z.sqrt 0) with 0%Z.
  pose proof (pow2_pos p) as Hp. set (w := pow2 p) in *. clearbody w.
  assert ((s ?= (inject_Z 0 + (1 # 2)) * w * ((inject_Z 0 + (1 # 2)) * w)) = Lt)
    as ->; [|ring].
  apply (proj1 (Qlt_alt _ _)). rewrite H0. change (inject_Z 0) with 0. nra.
Qed.

(** [Math.sqrt(s) > 10] is decided by [s] alone. *)
Lemma Math_sqrt_gt_10 s : 0 <= s → (10 < Math_sqrt s ↔ sqrt_threshold < s).
Proof.
  intros Hs0.
  assert (100 < sqrt_threshold ∧ sqrt_threshold < 101) as [Hth1 Hth2] by (split; reflexivity).
  destruct (Qeq_dec s 0) as [H0|H0].
  { rewrite (Math_sqrt_zero s H0). split; intros Hgt; [discriminate Hgt|lra]. }
  assert (0 < s) as Hs.
  { destruct (Qle_lt_or_eq _ _ Hs0) as [H|H]; [done|]. exfalso. apply H0. by symmetry. }
  pose proof (Math_sqrt_bracket s Hs) as Hb. cbv zeta in Hb.
  unfold Math_sqrt.
  set (e := (binade s / 2)%Z) in *.
  set (c := Z.sqrt (Qfloor (s / pow2 (2 * (e - 52))))) in *.
  destruct Hb as (Hs1 & Hs2 & Hc1 & Hc2 & Hce).
  pose proof (pow2_pos (e - 52)) as Hw. clearbody c e.
  set (mid := (inject_Z c + (1 # 2)) * pow2 (e - 52)).
  set (c' := match s ?= mid * mid with
             | Lt => c | Gt => (c + 1)%Z | Eq => if Z.even c then c else (c + 1)%Z end).
  assert (inject_Z c <= inject_Z c' ∧ inject_Z c' <= inject_Z c + 1) as [Hc'1 Hc'2].
  { change 1 with (inject_Z 1). rewrite <- inject_Z_plus, <- !Zle_Qle.
    unfold c'. destruct (s ?= mid * mid); [destruct (Z.even c)| |]; lia. }
  destruct (Z.lt_trichotomy e 3) as [He|[He|He]].
  - (* the root is below 8 *)
    assert (pow2 (2 * e + 2) <= 64) as H64 by (apply (pow2_le _ 6); lia).
    assert (pow2 (e - 52) <= 1) as Hw1 by (apply (pow2_le _ 0); lia).
    set (w := pow2 (e - 52)) in *. clearbody w c' mid. set (C := inject_Z c) in *.
    clearbody C. split; intros Hgt; exfalso; [|lra].
    assert (C * w < 8) by nra.
    assert (inject_Z c' * w <= (C + 1) * w) by (apply Qmult_le_compat_r; lra). lra.
  - (* the binade of 10 *)
    subst e. change (3 - 52)%Z with (-49)%Z in *.
    set (K := 5629499534213120%Z).
    assert (inject_Z K * pow2 (-49) == 10) as HK by reflexivity.
    destruct (Z.lt_trichotomy c K) as [Hc|[Hc|Hc]].
    + assert (inject_Z c + 1 <= inject_Z K) as HcK.
      { change 1 with (inject_Z 1). rewrite <- inject_Z_plus, <- Zle_Qle. lia. }
      set (w := pow2 (-49)) in *. clearbody w c' mid K. set (C := inject_Z c) in *.
      clearbody C.
      assert ((C + 1) * w <= 10) by (rewrite <- HK; apply Qmult_le_compat_r; lra).
      assert (inject_Z c' * w <= (C + 1) * w) by (apply Qmult_le_compat_r; lra).
      split; intros Hgt; exfalso; [lra|nra].
    + assert (mid * mid == sqrt_threshold) as Hmid by (unfold mid; rewrite Hc; reflexivity).
      assert (Z.even c = true) as Hev by (rewrite Hc; reflexivity).
      assert ((inject_Z K + 1) * pow2 (-49) == 10 + pow2 (-49)) as HK1 by reflexivity.
      unfold c'. rewrite Hev. destruct (s ?= mid * mid) eqn:Hcmp.
      * apply Qeq_alt in Hcmp. rewrite Hmid in Hcmp. rewrite Hc, HK.
        split; intros Hgt; [discriminate Hgt|lra].
      * apply Qlt_alt in Hcmp. rewrite Hmid in Hcmp. rewrite Hc, HK.
        split; intros Hgt; [discriminate Hgt|lra].
      * apply Qgt_alt in Hcmp. rewrite Hmid in Hcmp. rewrite Hc.
        rewrite inject_Z_plus. change (inject_Z 1) with 1. rewrite HK1.
        split; intros _; [lra|]. pose proof (pow2_pos (-49)). lra.
    + assert (inject_Z K + 1 <= inject_Z c) as HcK.
      { change 1 with (inject_Z 1). rewrite <- inject_Z_plus, <- Zle_Qle. lia. }
      assert (sqrt_threshold < (10 + pow2 (-49)) * (10 + pow2 (-49))) as Hth3 by reflexivity.
      set (w := pow2 (-49)) in *. clearbody w c' mid K. set (C := inject_Z c) in *.
      clearbody C.
      assert (10 + w <= C * w).
      { rewrite <- HK. assert ((inject_Z K + 1) * w <= C * w)
          by (apply Qmult_le_compat_r; lra). lra. }
      assert (C * w <= inject_Z c' * w) by (apply Qmult_le_compat_r; lra).
      split; intros _; [nra|lra].
  - (* the root is at least 16 *)
    assert (256 <= pow2 (2 * e)) as H256 by (apply (pow2_le 8); lia).
    assert (16 <= pow2 e) as H16 by (apply (pow2_le 4); lia).
    set (w := pow2 (e - 52)) in *. clearbody w c' mid. set (C := inject_Z c) in *.
    clearbody C.
    assert (C * w <= inject_Z c' * w) by (apply Qmult_le_compat_r; lra).
    split; intros _; lra.
Qed.
End binary64_guard.

Section rounding_margin.
Open Scope Q_scope.

Lemma Qsquare_nonneg (x : Q) : 0 <= x * x.
Proof. nra. Qed.

Lemma Qmult_le_nonneg (p q r s : Q) : 0 <= p → p <= r → 0 <= q → q <= s → p * q <= r * s.
Proof.
  intros Hp Hpr Hq Hqs.
  assert (0 <= (r - p) * q) by (apply Qmult_le_0_compat; lra).
  assert (0 <= r * (s - q)) by (apply Qmult_le_0_compat; lra).
  lra.
Qed.

Lemma Qabs_mult_le (x y ex ey : Q) : Qabs x <= ex → Qabs y <= ey → Qabs (x * y) <= ex * ey.
Proof.
  intros Hx Hy. rewrite Qabs_Qmult.
  apply Qmult_le_nonneg; auto using Qabs_nonneg.
Qed.

(** Squaring a value known up to a relative error [u] and an absolute
    error [η]. *)
Lemma square_error (u η a ah : Q) :
  0 <= u → u <= 1 → 0 <= η → η <= 1 →
  Qabs (ah - a) <= Qabs a * u + η →
  Qabs (ah * ah - a * a) <= a * a * (3 * u + 2 * η) + 3 * η.
Proof.
  intros Hu0 Hu1 Hη0 Hη1 Herr.
  pose proof (Qabs_nonneg a) as HX0.
  assert (Qabs a * Qabs a == a * a) as HXX.
  { rewrite <- Qabs_Qmult. apply Qabs_pos, Qsquare_nonneg. }
  set (X := Qabs a) in *.
  assert (ah * ah - a * a == (ah - a) * (2 * a + (ah - a))) as Hd by ring.
  rewrite Hd. clear Hd.
  assert (Qabs (2 * a + (ah - a)) <= 2 * X + (X * u + η)) as H2.
  { eapply Qle_trans; [apply Qabs_triangle|]. rewrite Qabs_Qmult.
    change (Qabs 2) with 2. fold X. lra. }
  eapply Qle_trans; [apply (Qabs_mult_le _ _ _ _ Herr H2)|].
  rewrite <- HXX. clearbody X. clear Herr H2 HXX.
  assert (0 <= X * X * (u * (1 - u))).
  { apply Qmult_le_0_compat; [apply Qsquare_nonneg|]. apply Qmult_le_0_compat; lra. }
  assert (0 <= η * ((X - 1) * (X - 1) + X * (1 - u))).
  { apply Qmult_le_0_compat; [lra|]. pose proof (Qsquare_nonneg (X - 1)).
    assert (0 <= X * (1 - u)) by (apply Qmult_le_0_compat; lra). lra. }
  assert (0 <= η * (1 - η)) by (apply Qmult_le_0_compat; lra).
  lra.
Qed.

(** One more rounding on top of a known error. *)
Lemma rounded_error (u η k c x xh r : Q) :
  0 <= u → u <= 1 → 0 <= η → 0 <= k → 0 <= c → 0 <= x →
  Qabs (xh - x) <= x * k + c →
  Qabs (r - xh) <= Qabs xh * u + η →
  Qabs (r - x) <= x * (k + (1 + k) * u) + (2 * c + η).
Proof.
  intros Hu0 Hu1 Hη0 Hk Hc Hx H1 H2.
  assert (Qabs xh <= x * (1 + k) + c) as Hxh.
  { assert (xh == x + (xh - x)) as -> by ring.
    eapply Qle_trans; [apply Qabs_triangle|]. rewrite (Qabs_pos x) by done. lra. }
  assert (r - x == (r - xh) + (xh - x)) as -> by ring.
  eapply Qle_trans; [apply Qabs_triangle|].
  assert (Qabs xh * u <= (x * (1 + k) + c) * u) by (apply Qmult_le_compat_r; lra).
  assert (0 <= c * (1 - u)) by (apply Qmult_le_0_compat; lra).
  lra.
Qed.
End rounding_margin.

Section binary64_shape.
Open Scope Q_scope.

(** [round64] lands on a double: a significand of at most 53 bits at an
    exponent no smaller than that of the subnormals, and no multiple of
    the same unit is nearer. *)
Lemma round64_is_double q :
  ∃ m : Z, round64 q = inject_Z m * pow2 (quantum q)
           ∧ (Z.abs m <= 2 ^ 53)%Z ∧ (-1074 <= quantum q)%Z
           ∧ ∀ k : Z, Qabs (round64 q - q) <= Qabs (inject_Z k * pow2 (quantum q) - q).
Proof.
  unfold round64. set (p := quantum q). pose proof (pow2_pos p) as Hw.
  set (x := q / pow2 p).
  exists (round_half_even x). split; [done|].
  split; [|split; [unfold p, quantum; lia|]].
  - assert (Qabs x <= pow2 53) as Hx.
    { unfold x. destruct (Qeq_dec q 0) as [H0|H0].
      - assert (q / pow2 p == 0) as -> by (rewrite H0; unfold Qdiv; ring).
        by vm_compute.
      - destruct (binade_bounds q H0) as [_ Hhi].
        unfold Qdiv. rewrite Qabs_Qmult, Qabs_Qinv, (Qabs_pos (pow2 p)) by lra.
        apply Qle_shift_div_r; [done|]. rewrite <- pow2_add.
        eapply Qle_trans; [apply Qlt_le_weak, Hhi|]. apply pow2_le.
        unfold p, quantum. lia. }
    pose proof (round_half_even_error x) as He.
    apply Qabs_Qle_condition in Hx as [Hx1 Hx2].
    apply Qabs_Qle_condition in He as [He1 He2].
    rewrite (pow2_nonneg_Z 53) in Hx1, Hx2 by lia.
    set (r := round_half_even x) in *. set (B := (2 ^ 53)%Z) in *. clearbody r x B.
    assert (inject_Z r < inject_Z (B + 1)) as H1
      by (rewrite inject_Z_plus; change (inject_Z 1) with 1; lra).
    assert (inject_Z (- B + -1) < inject_Z r) as H2.
    { rewrite inject_Z_plus, inject_Z_opp. change (inject_Z (-1)) with (- (1)). lra. }
    rewrite <- Zlt_Qlt in H1, H2. lia.
  - intros k.
    assert (∀ j : Z, inject_Z j * pow2 p - q == (inject_Z j - x) * pow2 p) as Hj
      by (intros j; unfold x; field; lra).
    rewrite !Hj, !Qabs_Qmult. apply Qmult_le_compat_r; [|apply Qabs_nonneg].
    unfold round_half_even.
    pose proof (Qfloor_le x) as Hlo. pose proof (Qlt_floor x) as Hhi.
    rewrite inject_Z_plus in Hhi. change (inject_Z 1) with 1 in Hhi.
    set (f := Qfloor x) in *. clearbody f x.
    assert (inject_Z k <= inject_Z f ∨ inject_Z f + 1 <= inject_Z k) as Hk.
    { destruct (Z_le_gt_dec k f) as [H|H]; [left; by rewrite <- Zle_Qle|right].
      change 1 with (inject_Z 1). rewrite <- inject_Z_plus, <- Zle_Qle. lia. }
    apply Qabs_Qle_condition.
    destruct (x - inject_Z f ?= (1 # 2)) eqn:Hc.
    + apply Qeq_alt in Hc.
      destruct Hk as [Hk|Hk];
        [rewrite (Qabs_neg (inject_Z k - x)) by lra|rewrite (Qabs_pos (inject_Z k - x)) by lra];
        (destruct (Z.even f); [|rewrite inject_Z_plus; change (inject_Z 1) with 1]);
        split; lra.
    + apply Qlt_alt in Hc.
      destruct Hk as [Hk|Hk];
        [rewrite (Qabs_neg (inject_Z k - x)) by lra|rewrite (Qabs_pos (inject_Z k - x)) by lra];
        split; lra.
    + apply Qgt_alt in Hc. rewrite inject_Z_plus; change (inject_Z 1) with 1.
      destruct Hk as [Hk|Hk];
        [rewrite (Qabs_neg (inject_Z k - x)) by lra|rewrite (Qabs_pos (inject_Z k - x)) by lra];
        split; lra.
Qed.

(** [Math_sqrt] returns a double with the real root within half a unit
    of its last place: the square of [s] lies between the squares of the
    two midpoints around the result. *)
Lemma Math_sqrt_nearest s :
  0 < s →
  let w := pow2 (binade s / 2 - 52) in
  let r := Math_sqrt s in
  ∃ m : Z, r = inject_Z m * w ∧ (2 ^ 52 <= m <= 2 ^ 53)%Z
           ∧ (r - (1 # 2) * w) * (r - (1 # 2) * w) <= s
           ∧ s <= (r + (1 # 2) * w) * (r + (1 # 2) * w).
Proof.
  intros Hs w r. pose proof (Math_sqrt_bracket s Hs) as Hb. cbv zeta in Hb.
  unfold r, Math_sqrt.
  set (e := (binade s / 2)%Z) in *. fold w in Hb |- *.
  set (c := Z.sqrt (Qfloor (s / pow2 (2 * (e - 52))))) in *.
  destruct Hb as (Hs1 & Hs2 & Hc1 & Hc2 & Hce).
  pose proof (pow2_pos (e - 52)) as Hw. fold w in Hw.
  assert (pow2 e == pow2 52 * w) as He.
  { unfold w. rewrite <- pow2_add. by replace (52 + (e - 52))%Z with e by lia. }
  assert (pow2 (2 * e + 2) == pow2 53 * w * (pow2 53 * w)) as He2.
  { unfold w. rewrite <- !pow2_add. by replace (2 * e + 2)%Z
      with (53 + (e - 52) + (53 + (e - 52)))%Z by lia. }
  assert (0 <= c)%Z as Hc0 by apply Z.sqrt_nonneg.
  assert (2 ^ 52 <= c < 2 ^ 53)%Z as Hc52.
  { rewrite He in Hce. rewrite He2 in Hs2.
    rewrite (pow2_nonneg_Z 52) in Hce by lia. rewrite (pow2_nonneg_Z 53) in Hs2 by lia.
    assert (0 <= inject_Z c) as HC0 by (change 0 with (inject_Z 0); by rewrite <- Zle_Qle).
    set (C := inject_Z c) in *. set (A := inject_Z (2 ^ 52)) in *.
    set (B := inject_Z (2 ^ 53)) in *.
    assert (0 <= B) as HB0 by (by vm_compute).
    assert (A <= C) as H1.
    { apply (Qmult_le_r _ _ w); [done|lra]. }
    assert (C < B) as H2.
    { apply Qnot_le_lt. intros Hle.
      assert (B * w <= C * w) by (apply Qmult_le_compat_r; lra).
      assert (B * w * (B * w) <= C * w * (C * w))
        by (apply Qmult_le_nonneg; try lra; apply Qmult_le_0_compat; lra).
      lra. }
    unfold C, A, B in H1, H2. rewrite <- Zle_Qle in H1. rewrite <- Zlt_Qlt in H2. lia. }
  set (mid := (inject_Z c + (1 # 2)) * w).
  eexists. split; [reflexivity|].
  assert (1 <= inject_Z c) as HC1 by (change 1 with (inject_Z 1); rewrite <- Zle_Qle; lia).
  destruct (s ?= mid * mid) eqn:Hcmp.
  - apply Qeq_alt in Hcmp. unfold mid in Hcmp.
    destruct (Z.even c); (split; [lia|]);
      rewrite ?inject_Z_plus; change (inject_Z 1) with 1;
      set (C := inject_Z c) in *; clearbody C w; split.
    + assert ((C * w - (1 # 2) * w) * (C * w - (1 # 2) * w) <= C * w * (C * w))
        by (apply Qmult_le_nonneg; try lra;
            assert (A2 : (1 # 2) * w <= C * w) by (apply Qmult_le_compat_r; lra); lra).
      lra.
    + rewrite Hcmp. assert (C * w + (1 # 2) * w == (C + (1 # 2)) * w) as -> by ring. lra.
    + rewrite Hcmp. assert ((C + 1) * w - (1 # 2) * w == (C + (1 # 2)) * w) as -> by ring.
      lra.
    + assert ((C + 1) * w * ((C + 1) * w) <= ((C + 1) * w + (1 # 2) * w) * ((C + 1) * w + (1 # 2) * w))
        by (apply Qmult_le_nonneg; try lra; apply Qmult_le_0_compat; lra).
      lra.
  - apply Qlt_alt in Hcmp. unfold mid in Hcmp. split; [lia|].
    set (C := inject_Z c) in *; clearbody C w; split.
    + assert ((C * w - (1 # 2) * w) * (C * w - (1 # 2) * w) <= C * w * (C * w))
        by (apply Qmult_le_nonneg; try lra;
            assert (A2 : (1 # 2) * w <= C * w) by (apply Qmult_le_compat_r; lra); lra).
      lra.
    + assert (C * w + (1 # 2) * w == (C + (1 # 2)) * w) as -> by ring. lra.
  - apply Qgt_alt in Hcmp. unfold mid in Hcmp. split; [lia|].
    rewrite inject_Z_plus; change (inject_Z 1) with 1.
    set (C := inject_Z c) in *; clearbody C w; split.
    + assert ((C + 1) * w - (1 # 2) * w == (C + (1 # 2)) * w) as -> by ring. lra.
    + assert ((C + 1) * w * ((C + 1) * w) <= ((C + 1) * w + (1 # 2) * w) * ((C + 1) * w + (1 # 2) * w))
        by (apply Qmult_le_nonneg; try lra; apply Qmult_le_0_compat; lra).
      lra.
Qed.

Example round64_one_tenth : round64 (1 # 10) == 3602879701896397 # 36028797018963968.
Proof. reflexivity. Qed.

Example round64_ties_to_even :
  round64 (1 + pow2 (-53)) == 1 ∧ round64 (1 + 3 * pow2 (-53)) == 1 + 4 * pow2 (-53).
Proof. split; reflexivity. Qed.

Example round64_subnormal : round64 ((3 # 2) * pow2 (-1074)) == 2 * pow2 (-1074).
Proof. reflexivity. Qed.

Example Math_sqrt_two : Math_sqrt 2 == 6369051672525773 # 4503599627370496.
Proof. reflexivity. Qed.
End binary64_shape.

Section gesture_length_facts.
Open Scope Q_scope.

Lemma round_half_even_nonneg x : 0 <= x → (0 <= round_half_even x)%Z.
Proof.
  intros Hx. unfold round_half_even.
  assert (0 <= Qfloor x)%Z as Hf.
  { rewrite <- (Qfloor_Z 0). by apply Qfloor_resp_le. }
  destruct (x - inject_Z (Qfloor x) ?= (1 # 2)); [destruct (Z.even _)| |]; lia.
Qed.

Lemma round64_nonneg q : 0 <= q → 0 <= round64 q.
Proof.
  intros Hq. unfold round64. pose proof (pow2_pos (quantum q)) as Hp.
  apply Qmult_le_0_compat; [|lra].
  change 0 with (inject_Z 0). rewrite <- Zle_Qle. apply round_half_even_nonneg.
  apply Qle_shift_div_l; [done|]. lra.
Qed.

(** The computed sum of squares against the exact one: four roundings. *)
Lemma sum_of_squares_error (a b : Q) :
  let s := double_add (double_mul (round64 a) (round64 a))
                      (double_mul (round64 b) (round64 b)) in
  0 <= s
  ∧ Qabs (s - (a * a + b * b)) <= (a * a + b * b) * squares_rel_error + squares_abs_error.
Proof.
  unfold squares_rel_error, squares_abs_error.
  set (u := pow2 (-53)). set (η := pow2 (-1075)).
  set (k1 := 3 * u + 2 * η). set (k2 := k1 + (1 + k1) * u). cbv zeta.
  set (ah := round64 a). set (bh := round64 b).
  assert (0 <= u ∧ u <= 1 ∧ 0 <= η ∧ η <= 1) as (Hu0 & Hu1 & Hη0 & Hη1).
  { unfold u, η. repeat split; by vm_compute. }
  assert (∀ q, Qabs (round64 q - q) <= Qabs q * u + η) as Hr by apply round64_error.
  clearbody u η.
  assert (0 <= k1) as Hk1 by (unfold k1; lra).
  assert (0 <= k2) as Hk2.
  { unfold k2. assert (0 <= (1 + k1) * u) by (apply Qmult_le_0_compat; lra). lra. }
  pose proof (Qsquare_nonneg a) as Ha. pose proof (Qsquare_nonneg b) as Hb.
  pose proof (Qsquare_nonneg ah) as Hah. pose proof (Qsquare_nonneg bh) as Hbh.
  assert (∀ x, Qabs (round64 x * round64 x - x * x) <= x * x * k1 + 3 * η) as Hsq.
  { intros x. apply square_error; try done. }
  assert (∀ x, Qabs (double_mul (round64 x) (round64 x) - x * x)
               <= x * x * k2 + (2 * (3 * η) + η)) as Hmul.
  { intros x. apply (rounded_error u η k1 (3 * η) (x * x) (round64 x * round64 x));
      first [done | lra | apply Qsquare_nonneg | apply Hsq | apply Hr]. }
  pose proof (Hmul a) as HP. pose proof (Hmul b) as HQ. fold ah in HP. fold bh in HQ.
  set (P := double_mul ah ah) in *. set (Qv := double_mul bh bh) in *.
  assert (0 <= P ∧ 0 <= Qv) as [HP0 HQ0] by (split; by apply round64_nonneg).
  split; [apply round64_nonneg; lra|].
  assert (Qabs (P + Qv - (a * a + b * b)) <= (a * a + b * b) * k2 + 14 * η) as Hsum.
  { assert (P + Qv - (a * a + b * b) == (P - a * a) + (Qv - b * b)) as -> by ring.
    eapply Qle_trans; [apply Qabs_triangle|]. lra. }
  eapply Qle_trans.
  - apply (rounded_error u η k2 (14 * η) (a * a + b * b) (P + Qv));
      first [done | lra | apply Hr].
  - lra.
Qed.

(** Away from the threshold by [rounding_margin] the computed length
    decides as the exact distance does. *)
Lemma gesture_length_margin (a b : Point) :
  (dist2 a b <= 10 * 10 - rounding_margin → gesture_length a b <= 10)
  ∧ (10 * 10 + rounding_margin <= dist2 a b → 10 < gesture_length a b).
Proof.
  unfold gesture_length, dist2, double_sub. cbv zeta.
  set (d2 := (pt_x b - pt_x a) * (pt_x b - pt_x a) + (pt_y b - pt_y a) * (pt_y b - pt_y a)).
  destruct (sum_of_squares_error (pt_x b - pt_x a) (pt_y b - pt_y a)) as [Hs0 Herr].
  cbv zeta in Hs0, Herr. fold d2 in Herr.
  set (s := double_add _ _) in *.
  assert (0 <= squares_rel_error ∧ squares_rel_error <= 1) as [Hk0 Hk1]
    by (split; by vm_compute).
  assert ((10 * 10 - rounding_margin) * (1 + squares_rel_error) + squares_abs_error
          <= sqrt_threshold) as Hup by (by vm_compute).
  assert (sqrt_threshold
          < (10 * 10 + rounding_margin) * (1 - squares_rel_error) - squares_abs_error)
    as Hdown by (by vm_compute).
  assert (0 <= d2) as Hd2.
  { unfold d2. pose proof (Qsquare_nonneg (pt_x b - pt_x a)).
    pose proof (Qsquare_nonneg (pt_y b - pt_y a)). lra. }
  apply Qabs_Qle_condition in Herr as [He1 He2].
  pose proof (Math_sqrt_gt_10 s Hs0) as Hiff.
  set (k3 := squares_rel_error) in *. set (η29 := squares_abs_error) in *.
  set (T := sqrt_threshold) in *.
  set (lo := 10 * 10 - rounding_margin) in *. set (hi := 10 * 10 + rounding_margin) in *.
  clearbody k3 η29 T lo hi d2 s. split; intros Hd.
  - apply Qnot_lt_le. intros Hgt. apply Hiff in Hgt.
    assert (d2 * (1 + k3) <= lo * (1 + k3)) by (apply Qmult_le_compat_r; lra).
    lra.
  - apply Hiff.
    assert (hi * (1 - k3) <= d2 * (1 - k3)) by (apply Qmult_le_compat_r; lra).
    lra.
Qed.
End gesture_length_facts.

Section exact_on_pixels.
Open Scope Q_scope.

(** Integers below [2 ^ 53] are doubles. *)
Lemma round64_integer x z : x == inject_Z z → (Z.abs z < 2 ^ 53)%Z → round64 x == x.
Proof.
  intros Hx Hz. destruct (Z.eq_dec z 0) as [->|Hz0].
  { rewrite (round64_zero x Hx). by rewrite Hx. }
  assert (¬ x == 0) as Hx0.
  { rewrite Hx. intros H. apply Hz0. change 0 with (inject_Z 0) in H.
    by apply (proj1 (inject_Z_injective _ _)) in H. }
  destruct (binade_bounds x Hx0) as [Hlo _].
  assert (Qabs x == inject_Z (Z.abs z)) as Habs
    by (rewrite Hx; symmetry; apply (Zabs_Qabs z 1)).
  assert (binade x < 53)%Z as He.
  { apply pow2_lt_inv. eapply Qle_lt_trans; [exact Hlo|]. rewrite Habs.
    rewrite (pow2_nonneg_Z 53) by lia. by rewrite <- Zlt_Qlt. }
  unfold round64. set (p := quantum x).
  assert (p <= 0)%Z as Hp by (unfold p, quantum; lia).
  pose proof (pow2_pos p) as Hw.
  assert (pow2 p * inject_Z (2 ^ (- p)) == 1) as Hinv.
  { rewrite <- (pow2_nonneg_Z (- p)) by lia. rewrite <- pow2_add.
    by replace (p + - p)%Z with 0%Z by lia. }
  set (w := pow2 p) in *. set (I := inject_Z (2 ^ (- p))) in *.
  assert (/ w == I) as Hi.
  { assert (/ w == w * I * / w) as H1 by (rewrite Hinv; ring).
    assert (w * I * / w == I) as H2 by (field; lra).
    by rewrite H2 in H1. }
  assert (x / w == inject_Z (z * 2 ^ (- p))) as Hq.
  { unfold Qdiv. rewrite Hi, Hx, inject_Z_mult. reflexivity. }
  rewrite (round_half_even_integer _ _ Hq), inject_Z_mult, Hx. fold I.
  assert (inject_Z z * I * w == inject_Z z * (w * I)) as -> by ring.
  rewrite Hinv. ring.
Qed.

(** On whole pixels nothing is rounded: the computed length exceeds 10
    exactly when the exact squared distance exceeds 100. *)
Lemma gesture_length_pixels (a b : Point) :
  whole_pixels a → whole_pixels b →
  10 < gesture_length a b ↔ 10 * 10 < dist2 a b.
Proof.
  intros (zax & zay & Hax & Hay & Bax & Bay) (zbx & zby & Hbx & Hby & Bbx & Bby).
  unfold gesture_length, dist2, double_sub, double_add, double_mul. cbv zeta.
  set (ax := pt_x a) in *. set (ay := pt_y a) in *.
  set (bx := pt_x b) in *. set (by_ := pt_y b) in *.
  set (dx := (zbx - zax)%Z). set (dy := (zby - zay)%Z).
  assert (bx - ax == inject_Z dx) as Hdx
    by (unfold dx; rewrite Hbx, Hax, <- Z.add_opp_r, inject_Z_plus, inject_Z_opp; ring).
  assert (by_ - ay == inject_Z dy) as Hdy
    by (unfold dy; rewrite Hby, Hay, <- Z.add_opp_r, inject_Z_plus, inject_Z_opp; ring).
  assert (Z.abs dx <= 2 ^ 25 ∧ Z.abs dy <= 2 ^ 25)%Z as [Bdx Bdy] by (unfold dx, dy; lia).
  assert (0 <= dx * dx <= 2 ^ 50 ∧ 0 <= dy * dy <= 2 ^ 50)%Z as [Bxx Byy] by nia.
  assert (round64 (bx - ax) == inject_Z dx) as Hrx
    by (rewrite (round64_integer _ dx Hdx); [done|lia]).
  assert (round64 (by_ - ay) == inject_Z dy) as Hry
    by (rewrite (round64_integer _ dy Hdy); [done|lia]).
  set (ah := round64 (bx - ax)) in *. set (bh := round64 (by_ - ay)) in *.
  assert (ah * ah == inject_Z (dx * dx)) as Hxx by (rewrite Hrx, inject_Z_mult; ring).
  assert (bh * bh == inject_Z (dy * dy)) as Hyy by (rewrite Hry, inject_Z_mult; ring).
  assert (round64 (ah * ah) == inject_Z (dx * dx)) as HP
    by (rewrite (round64_integer _ _ Hxx); [done|lia]).
  assert (round64 (bh * bh) == inject_Z (dy * dy)) as HQ
    by (rewrite (round64_integer _ _ Hyy); [done|lia]).
  set (P := round64 (ah * ah)) in *. set (Qv := round64 (bh * bh)) in *.
  assert (P + Qv == inject_Z (dx * dx + dy * dy)) as Hsum
    by (rewrite HP, HQ, inject_Z_plus; ring).
  assert (round64 (P + Qv) == inject_Z (dx * dx + dy * dy)) as Hs
    by (rewrite (round64_integer _ _ Hsum); [done|lia]).
  set (s := round64 (P + Qv)) in *.
  assert (0 <= s) as Hs0.
  { rewrite Hs. change 0 with (inject_Z 0). rewrite <- Zle_Qle. lia. }
  rewrite (Math_sqrt_gt_10 s Hs0), Hs, Hdx, Hdy, <- !inject_Z_mult, <- inject_Z_plus.
  set (n := (dx * dx + dy * dy)%Z).
  assert (100 < sqrt_threshold ∧ sqrt_threshold < 101) as [Hth1 Hth2] by (split; reflexivity).
  change (10 * 10) with (inject_Z 100). rewrite <- Zlt_Qlt. split; intros H.
  - destruct (Z_lt_le_dec 100 n) as [Hn|Hn]; [done|]. exfalso.
    rewrite Zle_Qle in Hn. change (inject_Z 100) with 100 in Hn. lra.
  - assert (101 <= n)%Z as Hn by lia. rewrite Zle_Qle in Hn.
    change (inject_Z 101) with 101 in Hn. lra.
Qed.
End exact_on_pixels.

(** ** C7: release of a wall-drawing gesture *)

Lemma handleMouseDown_drawing snap pointer :
  drawing_from (handleMouseDown (idle_wall_tool snap) pointer)
               (snapped_pointer (idle_wall_tool snap) pointer).
Proof. done. Qed.

Lemma dist2_nonneg (a b : Point) : (0 <= dist2 a b)%Q.
Proof.
  unfold dist2; cbv zeta.
  generalize (pt_x b - pt_x a)%Q (pt_y b - pt_y a)%Q. intros dx dy. nra.
Qed.

(** The guard [length > 10] of [handleMouseUp]. *)
Lemma length_guard_true (a b : Point) :
  negb (Qle_bool (gesture_length a b) 10) = true ↔ (10 < gesture_length a b)%Q.
Proof.
  rewrite negb_true_iff, <- not_true_iff_false, Qle_bool_iff.
  split; [apply Qnot_le_lt | apply Qlt_not_le].
Qed.

Lemma length_guard_false (a b : Point) :
  negb (Qle_bool (gesture_length a b) 10) = false ↔ (gesture_length a b <= 10)%Q.
Proof. by rewrite negb_false_iff, Qle_bool_iff. Qed.

(** C7 fails as stated at the threshold itself: a release exactly 10
    pixels from the press is not below the threshold, yet no wall is
    added. *)
Lemma release_at_threshold_discarded :
  let start := {| pt_x := 0; pt_y := 0 |} in
  let release := {| pt_x := 10; pt_y := 0 |} in
  let st := handleMouseDown (idle_wall_tool false) start in
  drawing_from st start
  ∧ ¬ (dist2 start (snapped_pointer st release) < 10 * 10)%Q
  ∧ (handleMouseUp "w1" st release).2 = [].
Proof.
  repeat split. vm_compute. discriminate.
Qed.

(** Nor is the threshold sharp from above: the length is computed in
    doubles, and a release at (10, 1e-8) gives [dx * dx + dy * dy] the
    double 100 and the length 10, so the gesture is discarded although
    the exact distance is greater than 10. *)
Example release_just_above_threshold_discarded :
  let start := {| pt_x := 0; pt_y := 0 |} in
  let release := {| pt_x := 10; pt_y := round64 (1 # 100000000) |} in
  let st := handleMouseDown (idle_wall_tool false) start in
  (10 * 10 < dist2 start (snapped_pointer st release))%Q
  ∧ (gesture_length start (snapped_pointer st release) == 10)%Q
  ∧ (handleMouseUp "w1" st release).2 = [].
Proof. repeat split. Qed.

(** C7 (amended).  On release of a wall-drawing gesture started at
    [start] the length [Math.sqrt (dx * dx + dy * dy)] between [start]
    and the snapped release point is computed in double precision: if
    it is at most 10 no command is issued; if it is greater than 10,
    [addWall] is called exactly once, with both points divided by the
    scale and no thickness argument.  Either way the gesture is over.
    The computed length decides as the exact distance does whenever
    the exact squared distance is at least [rounding_margin] (1e-13)
    away from 100, and always on whole pixels: there a distance of at
    most 10 pixels is discarded and a greater one adds the wall. *)
Theorem handleMouseUp_spec (id : string) (st : CanvasState) (start pointer : Point) :
  drawing_from st start →
  let snapped := snapped_pointer st pointer in
  let wall := AddWall id
                {| pt_x := (pt_x start / DEFAULTS.scale)%Q;
                   pt_y := (pt_y start / DEFAULTS.scale)%Q |}
                {| pt_x := (pt_x snapped / DEFAULTS.scale)%Q;
                   pt_y := (pt_y snapped / DEFAULTS.scale)%Q |}
                None in
  let (st', calls) := handleMouseUp id st pointer in
  isDrawing st' = false ∧ drawStartRef st' = None ∧ previewLineRef st' = None
  ∧ ((gesture_length start snapped <= 10)%Q → calls = [])
  ∧ ((10 < gesture_length start snapped)%Q → calls = [wall])
  ∧ ((dist2 start snapped <= 10 * 10 - rounding_margin)%Q → calls = [])
  ∧ ((10 * 10 + rounding_margin <= dist2 start snapped)%Q → calls = [wall])
  ∧ (whole_pixels start → whole_pixels snapped →
       ((dist2 start snapped <= 10 * 10)%Q → calls = [])
       ∧ ((10 * 10 < dist2 start snapped)%Q → calls = [wall])).
Proof.
  intros (Htool & Hdraw & Hcanvas & Hstart) snapped wall. unfold handleMouseUp.
  rewrite Hdraw, Htool, Hcanvas, Hstart, bool_decide_eq_true_2 by done.
  cbn [negb orb isDrawing drawStartRef previewLineRef]. fold snapped.
  unfold to_inches. fold wall.
  assert (((gesture_length start snapped <= 10)%Q →
           (if negb (Qle_bool (gesture_length start snapped) 10) then [wall] else []) = [])
          ∧ ((10 < gesture_length start snapped)%Q →
             (if negb (Qle_bool (gesture_length start snapped) 10) then [wall] else [])
             = [wall])) as [Hle Hgt].
  { split; intros H.
    - by rewrite (proj2 (length_guard_false _ _) H).
    - by rewrite (proj2 (length_guard_true _ _) H). }
  destruct (gesture_length_margin start snapped) as [Hlo Hhi].
  repeat split; auto.
  - intros Hd. apply Hle. apply Qnot_lt_le. intros Hlen.
    apply (gesture_length_pixels start snapped) in Hlen; [|done..].
    by apply (Qlt_not_le _ _ Hlen).
  - intros Hd. by apply Hgt, gesture_length_pixels.
Qed.

Lemma handleMouseUp_spec_witness :
  let start := {| pt_x := 0; pt_y := 0 |} in
  let release := {| pt_x := 95; pt_y := 130 |} in
  let st := handleMouseDown (idle_wall_tool true) start in
  drawing_from st start
  ∧ (handleMouseUp "w1" st release).2
    = [AddWall "w1" {| pt_x := 0 / 10; pt_y := 0 / 10 |}
         {| pt_x := pt_x (snapToGridPoint true 95 130) / 10;
            pt_y := pt_y (snapToGridPoint true 95 130) / 10 |} None].
Proof.
  intros start release st.
  assert (drawing_from st start) as Hd by (repeat split).
  split; [exact Hd|].
  pose proof (handleMouseUp_spec "w1" st start release Hd) as H. cbv zeta in H.
  destruct (handleMouseUp "w1" st release) as [st' calls].
  destruct H as (_ & _ & _ & _ & _ & _ & H & _). apply H. by vm_compute.
Defined.

(** With snapping on, press and release both sit on the 60-pixel grid:
    the 10-pixel boundary is never met, a gesture is either empty or at
    least 60 pixels long. *)
Lemma snapped_gesture_length (p q : Point) :
  let a := snapToGridPoint true (pt_x p) (pt_y p) in
  let b := snapToGridPoint true (pt_x q) (pt_y q) in
  (dist2 a b == 0)%Q ∨ (60 * 60 <= dist2 a b)%Q.
Proof.
  unfold snapToGridPoint, dist2, Math_round; cbn [negb pt_x pt_y].
  generalize (Qfloor (pt_x p / snapSize + (1 # 2))%Q); intros i.
  generalize (Qfloor (pt_y p / snapSize + (1 # 2))%Q); intros j.
  generalize (Qfloor (pt_x q / snapSize + (1 # 2))%Q); intros k.
  generalize (Qfloor (pt_y q / snapSize + (1 # 2))%Q); intros l.
  rewrite !snapSize_60.
  destruct (inject_Z_apart k i) as [Hx|[->|Hx]];
    destruct (inject_Z_apart l j) as [Hy|[->|Hy]];
    try (right; nra); try (left; ring).
Qed.

(** ** C9: [clearAll] and its [confirm] argument *)

Lemma clearAll_spec id args h :
  executeToolCall id "clearAll" args h
  = Some (if truthy (arg args "confirm")
          then (true, resetFloorplan id h) else (false, h)).
Proof.
  unfold executeToolCall.
  repeat (case_decide; [discriminate|]).
  case_decide; [|done]. by destruct (truthy _).
Qed.

(** The failing input: with [confirm] set to the string "false" (or the
    number 1), which is not [true], the document is reset and the call
    reports success. *)
Lemma clearAll_truthy_confirm_resets :
  let h := one_wall_house in
  let args : gmap string jsval := {[ "confirm" := JStr "false" ]} in
  strictly_true (arg args "confirm") = false
  ∧ executeToolCall "fp1" "clearAll" args h = Some (true, resetFloorplan "fp1" h)
  ∧ present (resetFloorplan "fp1" h) ≠ present h
  ∧ executeToolCall "fp1" "clearAll" {[ "confirm" := JNum 1 ]} h
    = Some (true, resetFloorplan "fp1" h).
Proof.
  repeat split; try (rewrite clearAll_spec; reflexivity).
  vm_compute. discriminate.
Qed.

(** C9.  The code does not hold to "strictly true".  [executeToolCall]
    casts the parsed arguments to [{ confirm: boolean }] without a check
    and tests [if (confirm)]: whenever [confirm] is truthy without being
    [true] (the string "false", the number 1, an object) the document
    is reset and the call reports success, where the claim, the cast
    and the schema of the tool ([z.boolean()], "Must be true to confirm
    clearing") have the call refused.  For [true] itself the reset
    happens, and for an absent or falsy [confirm] the store is left as
    it is and false is reported, as claimed. *)
Theorem clearAll_resets_without_true (id : string) (args : gmap string jsval)
    (h : HistoryState) :
  (truthy (arg args "confirm") = true → strictly_true (arg args "confirm") = false →
     executeToolCall id "clearAll" args h = Some (true, resetFloorplan id h)
     ∧ present (resetFloorplan id h) = createEmptyFloorplan id)
  ∧ (strictly_true (arg args "confirm") = true →
     executeToolCall id "clearAll" args h = Some (true, resetFloorplan id h))
  ∧ (truthy (arg args "confirm") = false →
     executeToolCall id "clearAll" args h = Some (false, h))
  ∧ (args !! "confirm" = None → executeToolCall id "clearAll" args h = Some (false, h)).
Proof.
  rewrite clearAll_spec. split; [|split; [|split]].
  - intros Ht _. rewrite Ht. split; [done|].
    apply (exec_present (ResetFloorplan id)).
  - intros Ht. destruct (arg args "confirm") as [| |[]| | | |]; try discriminate. done.
  - intros Ht. by rewrite Ht.
  - intros Hn. unfold arg. by rewrite Hn.
Qed.

Lemma clearAll_resets_without_true_witness :
  let h := one_wall_house in
  let args : gmap string jsval := {[ "confirm" := JStr "false" ]} in
  truthy (arg args "confirm") = true ∧ strictly_true (arg args "confirm") = false
  ∧ executeToolCall "fp1" "clearAll" args h = Some (true, resetFloorplan "fp1" h)
  ∧ present (resetFloorplan "fp1" h) = createEmptyFloorplan "fp1"
  ∧ walls (present h) ≠ walls (createEmptyFloorplan "fp1").
Proof.
  intros h args.
  assert (truthy (arg args "confirm") = true) as Ht by reflexivity.
  assert (strictly_true (arg args "confirm") = false) as Hs by reflexivity.
  split; [exact Ht|]. split; [exact Hs|].
  destruct (proj1 (clearAll_resets_without_true "fp1" args h) Ht Hs) as [Hcall Hreset].
  split; [exact Hcall|]. split; [exact Hreset|]. vm_compute. discriminate.
Defined.

(** Within the declared type the flag works: for a boolean [confirm],
    truthy means [true]. *)
Lemma clearAll_boolean_confirm (b : bool) (id : string) (h : HistoryState) :
  executeToolCall id "clearAll" {[ "confirm" := JBool b ]} h
  = Some (if b then (true, resetFloorplan id h) else (false, h)).
Proof. rewrite clearAll_spec. by destruct b. Qed.

(** ** C10: success flag on dangling ids *)


Lemma filter_all {A} (P : A → Prop) `{!∀ a, Decision (P a)} (xs : list A) :
  Forall P xs → filter P xs = xs.
Proof.
  induction 1 as [|x xs Hx _ IH]; [done|].
  rewrite filter_cons_True by done. by rewrite IH.
Qed.





(** A real move is reported the same way. *)
Lemma move_existing_reported_success :
  let h := addFurniture "f1" "desk" {| pt_x := 0; pt_y := 0 |} 60 30 (initialState "fp0") in
  let args : gmap string jsval :=
    {[ "furnitureId" := JStr "f1"; "x" := JNum 10; "y" := JNum 20 ]} in
  ∃ h', executeToolCall "" "moveFurniture" args h = Some (true, h')
        ∧ present h' ≠ present h.
Proof.
  eexists. split; [vm_compute; reflexivity|]. vm_compute. discriminate.
Qed.

(** ** Scenarios of the specification, run on the embedding *)

Example scenario_wall_then_door :
  let h := addDoor "d1" "w1" (1 # 2) None
             (addWall "w1" {| pt_x := 0; pt_y := 0 |} {| pt_x := 120; pt_y := 0 |} None
                (initialState "fp0")) in
  walls (present h) = [w1] ∧ doors (present h) = [d1]
  ∧ doors (present (removeWall "w1" h)) = [].
Proof. vm_compute. repeat split; reflexivity. Qed.

Example scenario_rotate_furniture :
  let h := updateFurniture "f1" (rotation_update 90)
             (addFurniture "f1" "bed-queen" {| pt_x := 10; pt_y := 10 |} 60 80
                (initialState "fp0")) in
  furniture (present h)
  = [{| furniture_id := "f1"; furniture_type := "bed-queen";
        furniture_position := {| pt_x := 10; pt_y := 10 |};
        furniture_rotation := 90; furniture_width := 60; furniture_height := 80;
        furniture_label := None |}].
Proof. vm_compute. reflexivity. Qed.

Example scenario_inherited_furniture_type :
  let args : gmap string jsval :=
    {[ "type" := JStr "toString"; "x" := JNum 0; "y" := JNum 0 ]} in
  executeToolCall "f1" "addFurniture" args one_wall_house = None.
Proof. reflexivity. Qed.

Example scenario_unknown_furniture :
  let args : gmap string jsval :=
    {[ "type" := JStr "unknown-type"; "x" := JNum 0; "y" := JNum 0 ]} in
  executeToolCall "f1" "addFurniture" args one_wall_house = Some (false, one_wall_house).
Proof. reflexivity. Qed.

Example scenario_clearAll_unconfirmed :
  executeToolCall "fp1" "clearAll" {[ "confirm" := JBool false ]} one_wall_house
  = Some (false, one_wall_house).
Proof. reflexivity. Qed.

Example scenario_unknown_tool :
  executeToolCall "" "paintWall" ∅ one_wall_house = Some (false, one_wall_house).
Proof. reflexivity. Qed.

Example scenario_bulk_delete_one_entry :
  let h := removeSelected ["w1"; "d1"; "n1"] one_wall_house in
  length (past h) = S (length (past one_wall_house))
  ∧ walls (present h) = [] ∧ doors (present h) = [] ∧ windows (present h) = [].
Proof. vm_compute. repeat split; reflexivity. Qed.

Example scenario_queries :
  canUndo (initialState "fp0") = false ∧ canRedo (initialState "fp0") = false
  ∧ canUndo one_wall_house = true
  ∧ canRedo (undo one_wall_house) = true.
Proof. vm_compute. repeat split; reflexivity. Qed.

(** * Further properties of the store *)

(** ** Undo and redo *)

Lemma undo_timeline h : timeline (undo h) = timeline h.
Proof.
  unfold timeline. rewrite undo_spec.
  destruct (last (past h)) as [q|] eqn:Hl; [|done].
  apply last_Some in Hl as [ps Hps]. simpl. unfold slice_init.
  rewrite Hps, length_app; simpl. rewrite Nat.add_sub, take_app_length.
  by rewrite <- app_assoc.
Qed.

Lemma redo_timeline h : timeline (redo h) = timeline h.
Proof.
  unfold timeline. rewrite redo_spec.
  destruct h as [ps p [|next rest]]; [done|]. simpl.
  by rewrite <- app_assoc.
Qed.

(** X1.  [undo] and [redo] only move the cursor along the line of
    documents [past ++ present :: future]: no document is dropped,
    duplicated or reordered, however many of them are applied. *)
Theorem undo_redo_keep_timeline (acts : list Action) (h : HistoryState) :
  Forall (λ a, a = Undo ∨ a = Redo) acts →
  timeline (steps acts h) = timeline h.
Proof.
  induction acts as [|a acts IH] using rev_ind; intros Hall; [done|].
  apply Forall_app in Hall as [Hacts Ha]. apply Forall_inv in Ha.
  simpl in Ha. unfold steps. rewrite foldl_app; simpl. fold (steps acts h).
  destruct Ha as [-> | ->]; cbn [step].
  - rewrite undo_timeline. by apply IH.
  - rewrite redo_timeline. by apply IH.
Qed.

Lemma undo_redo_keep_timeline_witness :
  Forall (λ a, a = Undo ∨ a = Redo) [Undo; Undo; Redo; Undo]
  ∧ timeline (steps [Undo; Undo; Redo; Undo] one_wall_house) = timeline one_wall_house.
Proof.
  assert (Forall (λ a, a = Undo ∨ a = Redo) [Undo; Undo; Redo; Undo]) as H.
  { repeat (apply Forall_cons; split; [auto|]). apply Forall_nil_2. }
  split; [exact H|]. exact (undo_redo_keep_timeline _ one_wall_house H).
Defined.

Lemma undo_redo h : future h ≠ [] → undo (redo h) = h.
Proof.
  intros Hf. rewrite redo_spec. destruct h as [ps p [|next rest]]; [done|]; simpl.
  rewrite undo_spec; simpl. rewrite last_snoc. unfold slice_init.
  rewrite length_app; simpl. by rewrite Nat.add_sub, take_app_length.
Qed.

(** X2.  [redo] undoes [undo] and [undo] undoes [redo], on the whole
    history (both stacks and the document), whenever the first of the two
    had something to move. *)
Theorem undo_redo_round_trip (h : HistoryState) :
  (past h ≠ [] → redo (undo h) = h) ∧ (future h ≠ [] → undo (redo h) = h).
Proof. split; [apply redo_undo | apply undo_redo]. Qed.

Lemma undo_redo_round_trip_witness :
  past one_wall_house ≠ [] ∧ redo (undo one_wall_house) = one_wall_house
  ∧ future (undo one_wall_house) ≠ []
  ∧ undo (redo (undo one_wall_house)) = undo one_wall_house.
Proof.
  assert (past one_wall_house ≠ []) as Hp by (vm_compute; discriminate).
  assert (future (undo one_wall_house) ≠ []) as Hf by (vm_compute; discriminate).
  split; [exact Hp|]. split; [exact (proj1 (undo_redo_round_trip _) Hp)|].
  split; [exact Hf|]. exact (proj2 (undo_redo_round_trip _) Hf).
Defined.

(** X3.  [canUndo()] and [canRedo()] say exactly whether [undo()] and
    [redo()] would change the history: at an empty stack the call is a
    no-op, otherwise it is not. *)
Theorem can_undo_redo_exact (h : HistoryState) :
  (canUndo h = false ↔ undo h = h) ∧ (canRedo h = false ↔ redo h = h).
Proof.
  unfold canUndo, canRedo. rewrite !bool_decide_eq_false. split; split.
  - intros Hn. apply undo_no_past. destruct (past h); [done|]. simpl in Hn. lia.
  - intros Heq Hlt. apply (f_equal (λ s, length (past s))) in Heq.
    rewrite undo_spec in Heq. destruct (last (past h)) as [q|] eqn:Hl; simpl in Heq.
    + unfold slice_init in Heq. rewrite length_take in Heq. lia.
    + apply last_None in Hl. rewrite Hl in Hlt. simpl in Hlt. lia.
  - intros Hn. apply redo_no_future. destruct (future h); [done|]. simpl in Hn. lia.
  - intros Heq Hlt. apply (f_equal (λ s, length (future s))) in Heq.
    rewrite redo_spec in Heq. destruct (future h) as [|next rest]; simpl in *; lia.
Qed.

(** X4.  A recording command (any command but [setName]) empties the redo
    stack, so a [redo] after it does nothing, and grows [past] by exactly
    one entry up to the cap of 50; [setName] leaves both stacks alone. *)
Theorem edit_discards_redo (c : Command) (h : HistoryState) :
  (records c = true →
     future (exec c h) = [] ∧ redo (exec c h) = exec c h
     ∧ length (past (exec c h)) = S (length (past h)) `min` MAX_HISTORY)
  ∧ (records c = false → past (exec c h) = past h ∧ future (exec c h) = future h).
Proof.
  split; intros Hc.
  - assert (future (exec c h) = []) as Hf by (rewrite exec_spec; simpl; by rewrite Hc).
    split; [done|]. split; [by apply redo_no_future|].
    rewrite exec_spec; cbn [past]. rewrite Hc, length_slice_last, length_app.
    cbn [length]. by rewrite Nat.add_1_r.
  - rewrite exec_spec; simpl. by rewrite Hc.
Qed.

Lemma edit_discards_redo_witness :
  let h := undo (undo one_wall_house) in
  let c := AddRoom "r1" "Hall" hallway ["w1"] in
  records c = true ∧ future h ≠ [] ∧ future (exec c h) = []
  ∧ records (SetName "A") = false ∧ future (exec (SetName "A") h) = future h.
Proof.
  intros h c.
  assert (records c = true) as Hc by reflexivity.
  assert (records (SetName "A") = false) as Hn by reflexivity.
  split; [exact Hc|]. split; [vm_compute; discriminate|].
  split; [exact (proj1 (proj1 (edit_discards_redo c h) Hc))|].
  split; [exact Hn|]. exact (proj2 (proj2 (edit_discards_redo (SetName "A") h) Hn)).
Defined.

(** X5.  [setFloorplan] and [resetFloorplan] replace the document by a new
    object, so the entry they record is the document they replaced: one
    [undo] brings it back and one [redo] brings the replacement back. *)
Theorem replace_is_undoable (h : HistoryState) (fp : Floorplan) (id : string) :
  (present (undo (setFloorplan fp h)) = present h
   ∧ present (redo (undo (setFloorplan fp h))) = fp)
  ∧ (present (undo (resetFloorplan id h)) = present h
     ∧ present (redo (undo (resetFloorplan id h))) = createEmptyFloorplan id).
Proof.
  assert (∀ c, writes_in_place c = false →
            present (undo (exec c h)) = present h
            ∧ present (redo (undo (exec c h))) = document_effect c (present h)) as H.
  { intros c Hc. split.
    - rewrite undo_spec. by rewrite rebind_records_previous.
    - rewrite redo_undo; [apply exec_present|].
      intros Hnil. pose proof (rebind_records_previous c h Hc) as Hl.
      rewrite Hnil in Hl. discriminate. }
  split.
  - apply (H (SetFloorplan fp)). reflexivity.
  - apply (H (ResetFloorplan id)). reflexivity.
Qed.

(** X6.  Every recording command that writes through [state.present]
    (all commands but [setName], [setFloorplan] and [resetFloorplan])
    records the very document it produces: the last entry of [past] is the
    new [present], and one [undo] leaves the document unchanged. *)
Theorem in_place_edit_records_itself (c : Command) (h : HistoryState) :
  records c = true → writes_in_place c = true →
  last (past (exec c h)) = Some (present (exec c h))
  ∧ present (undo (exec c h)) = present (exec c h)
  ∧ future (undo (exec c h)) = [present (exec c h)].
Proof.
  intros Hr Hw. pose proof (in_place_records_result c h Hr Hw) as Hl.
  split; [done|]. rewrite undo_spec, Hl. simpl. split; [done|].
  rewrite exec_spec; simpl. by rewrite Hr.
Qed.

Lemma in_place_edit_records_itself_witness :
  let c := SetUnits metric in
  records c = true ∧ writes_in_place c = true
  ∧ present (undo (exec c (initialState "fp0"))) = present (exec c (initialState "fp0")).
Proof.
  intros c. split; [reflexivity|]. split; [reflexivity|].
  exact (proj1 (proj2 (in_place_edit_records_itself c (initialState "fp0") eq_refl eq_refl))).
Defined.
(** ** The collections under [update*], [remove*] and [add*] *)

Lemma find_assign_first {A} (P : A → Prop) `{!∀ a, Decision (P a)} (f : A → A)
    (l1 l2 : list A) (x : A) :
  Forall (λ y, ¬ P y) l1 → P x →
  find_assign P f (l1 ++ x :: l2) = l1 ++ f x :: l2.
Proof.
  intros Hl1 Hx. unfold find_assign.
  assert (list_find P (l1 ++ x :: l2) = Some (length l1, x)) as ->.
  { apply list_find_Some. split; [by apply list_lookup_middle|]. split; [done|].
    intros j y Hj Hlt. rewrite lookup_app_l in Hj by done.
    by apply (Forall_lookup_1 _ _ _ _ Hl1 Hj). }
  rewrite <- (Nat.add_0_r (length l1)). by rewrite alter_app_r.
Qed.

Lemma fmap_find_assign {A} (key : A → string) (P : A → Prop) `{!∀ a, Decision (P a)}
    (f : A → A) (xs : list A) :
  (∀ x, key (f x) = key x) → key <$> find_assign P f xs = key <$> xs.
Proof.
  intros Hkey. unfold find_assign. destruct (list_find P xs) as [[i x]|]; [|done].
  rewrite (list_fmap_alter key f (λ s, s)) by (apply Forall_forall; intros; apply Hkey).
  by apply list_alter_id.
Qed.

Lemma update_keeps_element_ids (c : Command) (p : Floorplan) :
  is_update c = true → element_ids (document_effect c p) = element_ids p.
Proof.
  destruct c; try discriminate; intros _; unfold element_ids; destruct p; simpl;
    by rewrite fmap_find_assign.
Qed.

(** X7.  An [update*] never adds, removes, reorders or renames elements:
    the list of element ids of the document, collection by collection,
    is the same before and after, whatever the patch. *)
Theorem update_keeps_ids (c : Command) (h : HistoryState) :
  is_update c = true →
  element_ids (present (exec c h)) = element_ids (present h)
  ∧ length (walls (present (exec c h))) = length (walls (present h))
  ∧ length (doors (present (exec c h))) = length (doors (present h))
  ∧ length (windows (present (exec c h))) = length (windows (present h))
  ∧ length (rooms (present (exec c h))) = length (rooms (present h))
  ∧ length (furniture (present (exec c h))) = length (furniture (present h)).
Proof.
  intros Hc. rewrite exec_present. split; [by apply update_keeps_element_ids|].
  assert (∀ {A} (P : A → Prop) `{!∀ a, Decision (P a)} f (xs : list A),
            length (find_assign P f xs) = length xs) as Hlen.
  { intros A P ? f xs. unfold find_assign.
    destruct (list_find P xs) as [[i x]|]; [apply length_alter|done]. }
  destruct c; try discriminate; destruct (present h); simpl; by rewrite Hlen.
Qed.

Lemma update_keeps_ids_witness :
  let c := UpdateWall "w1" {| wu_start := None; wu_end := None; wu_thickness := Some 8%Q |} in
  is_update c = true
  ∧ element_ids (present (exec c one_wall_house)) = element_ids (present one_wall_house).
Proof.
  intros c. split; [reflexivity|].
  exact (proj1 (update_keeps_ids c one_wall_house eq_refl)).
Defined.

(** X8.  [updateWall], [updateDoor], [updateWindow], [updateRoom] and
    [updateFurniture] patch the first element that carries the id, and
    nothing else: the elements before and after it are kept as they are. *)
Theorem update_patches_first_match (id : string) (h : HistoryState) :
  (∀ u l1 x l2, walls (present h) = l1 ++ x :: l2 → wall_id x = id →
     id ∉ wall_id <$> l1 →
     walls (present (updateWall id u h)) = l1 ++ assign_wall u x :: l2)
  ∧ (∀ u l1 x l2, doors (present h) = l1 ++ x :: l2 → door_id x = id →
     id ∉ door_id <$> l1 →
     doors (present (updateDoor id u h)) = l1 ++ assign_door u x :: l2)
  ∧ (∀ u l1 x l2, windows (present h) = l1 ++ x :: l2 → window_id x = id →
     id ∉ window_id <$> l1 →
     windows (present (updateWindow id u h)) = l1 ++ assign_window u x :: l2)
  ∧ (∀ u l1 x l2, rooms (present h) = l1 ++ x :: l2 → room_id x = id →
     id ∉ room_id <$> l1 →
     rooms (present (updateRoom id u h)) = l1 ++ assign_room u x :: l2)
  ∧ (∀ u l1 x l2, furniture (present h) = l1 ++ x :: l2 → furniture_id x = id →
     id ∉ furniture_id <$> l1 →
     furniture (present (updateFurniture id u h)) = l1 ++ assign_furniture u x :: l2).
Proof.
  assert (∀ {A} (key : A → string) (l1 : list A),
            id ∉ key <$> l1 → Forall (λ y, ¬ key y = id) l1) as Hno.
  { intros A key l1 Hid. apply Forall_forall. intros y Hy Heq. apply Hid.
    subst id. by apply list_elem_of_fmap_2. }
  repeat split; intros u l1 x l2 Hxs Hx Hl1.
  - etrans; [apply (f_equal walls (exec_present (UpdateWall id u) h))|]. simpl.
    rewrite Hxs. by apply find_assign_first; [apply Hno|].
  - etrans; [apply (f_equal doors (exec_present (UpdateDoor id u) h))|]. simpl.
    rewrite Hxs. by apply find_assign_first; [apply Hno|].
  - etrans; [apply (f_equal windows (exec_present (UpdateWindow id u) h))|]. simpl.
    rewrite Hxs. by apply find_assign_first; [apply Hno|].
  - etrans; [apply (f_equal rooms (exec_present (UpdateRoom id u) h))|]. simpl.
    rewrite Hxs. by apply find_assign_first; [apply Hno|].
  - etrans; [apply (f_equal furniture (exec_present (UpdateFurniture id u) h))|]. simpl.
    rewrite Hxs. by apply find_assign_first; [apply Hno|].
Qed.

Lemma update_patches_first_match_witness :
  let u := {| wu_start := None; wu_end := None; wu_thickness := Some 8%Q |} in
  walls (present duplicate_id_house) = [w0] ++ w1 :: [w1_again]
  ∧ wall_id w1 = "w1" ∧ wall_id w1_again = "w1" ∧ ("w1" ∉ wall_id <$> [w0])
  ∧ walls (present (updateWall "w1" u duplicate_id_house))
    = [w0] ++ assign_wall u w1 :: [w1_again].
Proof.
  intros u.
  assert (walls (present duplicate_id_house) = [w0] ++ w1 :: [w1_again]) as H1
    by (vm_compute; reflexivity).
  assert ("w1" ∉ wall_id <$> [w0]) as H2 by (apply (bool_decide_unpack _); by vm_compute).
  split; [exact H1|]. split; [reflexivity|]. split; [reflexivity|]. split; [exact H2|].
  exact (proj1 (update_patches_first_match "w1" duplicate_id_house)
           u [w0] w1 [w1_again] H1 eq_refl H2).
Defined.

(** X9.  [removeWall] keeps referential integrity: if every door and
    window hung on an existing wall before, the same holds after; and in
    any case no wall with the id and no door or window on it is left. *)
Theorem removeWall_keeps_integrity (id : string) (h : HistoryState) :
  let p' := present (removeWall id h) in
  (referential_integrity (present h) → referential_integrity p')
  ∧ (id ∉ wall_id <$> walls p')
  ∧ (id ∉ door_wallId <$> doors p')
  ∧ (id ∉ window_wallId <$> windows p').
Proof.
  intros p'. destruct (removeWall_cascade id h) as (Hw & Hd & Hn & _).
  fold p' in Hw, Hd, Hn. unfold referential_integrity. rewrite Hw, Hd, Hn.
  assert (∀ x, x ≠ id → x ∈ wall_id <$> walls (present h) →
               x ∈ wall_id <$> filter (λ w, wall_id w ≠ id) (walls (present h))) as Hkeep.
  { intros x Hx (w & -> & Hin)%list_elem_of_fmap.
    apply list_elem_of_fmap_2. by apply list_elem_of_filter. }
  split; [|split; [|split]].
  - intros [Hdoors Hwins]. split.
    + intros d [Hne Hin]%list_elem_of_filter. apply Hkeep; [done|]. by apply Hdoors.
    + intros w [Hne Hin]%list_elem_of_filter. apply Hkeep; [done|]. by apply Hwins.
  - intros (w & Heq & [Hne _]%list_elem_of_filter)%list_elem_of_fmap. by apply Hne.
  - intros (d & Heq & [Hne _]%list_elem_of_filter)%list_elem_of_fmap. by apply Hne.
  - intros (w & Heq & [Hne _]%list_elem_of_filter)%list_elem_of_fmap. by apply Hne.
Qed.

Lemma removeWall_keeps_integrity_witness :
  referential_integrity (present one_wall_house)
  ∧ referential_integrity (present (removeWall "w1" one_wall_house)).
Proof.
  assert (referential_integrity (present one_wall_house)) as H.
  { split; intros x Hx; vm_compute in Hx; apply list_elem_of_singleton in Hx; subst x;
      vm_compute; apply elem_of_cons; by left. }
  split; [exact H|]. exact (proj1 (removeWall_keeps_integrity "w1" one_wall_house) H).
Defined.

(** X10.  [removeSelected] does not cascade: a door (or window) that is
    not itself selected stays in the document when its wall is selected,
    and is left hanging on a wall id that no wall carries any more. *)
Theorem removeSelected_leaves_orphans (ids : list string) (h : HistoryState) :
  let p' := present (removeSelected ids h) in
  (∀ d, d ∈ doors (present h) → door_wallId d ∈ ids → door_id d ∉ ids →
        d ∈ doors p' ∧ door_wallId d ∉ wall_id <$> walls p')
  ∧ (∀ w, w ∈ windows (present h) → window_wallId w ∈ ids → window_id w ∉ ids →
          w ∈ windows p' ∧ window_wallId w ∉ wall_id <$> walls p').
Proof.
  intros p'. unfold p'.
  change (removeSelected ids h) with (exec (RemoveSelected ids) h).
  rewrite exec_present. destruct (present h) as [? ? ? ? ? ws ds ns rs fs ?]; simpl.
  assert (∀ x, x ∈ ids → x ∉ wall_id <$> filter (λ w, wall_id w ∉ ids) ws) as Hgone.
  { intros x Hx (w & -> & [Hne _]%list_elem_of_filter)%list_elem_of_fmap. by apply Hne. }
  split.
  - intros d Hd Hwall Hid. split; [by apply list_elem_of_filter|by apply Hgone].
  - intros w Hw Hwall Hid. split; [by apply list_elem_of_filter|by apply Hgone].
Qed.

Lemma removeSelected_leaves_orphans_witness :
  let p' := present (removeSelected ["w1"] one_wall_house) in
  d1 ∈ doors (present one_wall_house) ∧ door_wallId d1 ∈ ["w1"] ∧ (door_id d1 ∉ ["w1"])
  ∧ d1 ∈ doors p' ∧ (door_wallId d1 ∉ wall_id <$> walls p').
Proof.
  intros p'.
  assert (d1 ∈ doors (present one_wall_house)) as H1 by (vm_compute; apply elem_of_cons; by left).
  assert (door_wallId d1 ∈ ["w1"]) as H2 by (vm_compute; apply elem_of_cons; by left).
  assert (door_id d1 ∉ ["w1"]) as H3.
  { vm_compute. intros H. apply list_elem_of_singleton in H. discriminate. }
  split; [exact H1|]. split; [exact H2|]. split; [exact H3|].
  exact (proj1 (removeSelected_leaves_orphans ["w1"] one_wall_house) d1 H1 H2 H3).
Defined.

Lemma filter_filter_app {A} (key : A → string) (xs ys : list string) (l : list A) :
  filter (λ x, key x ∉ ys) (filter (λ x, key x ∉ xs) l) = filter (λ x, key x ∉ xs ++ ys) l.
Proof.
  rewrite list_filter_filter. apply list_filter_iff. intros x.
  rewrite not_elem_of_app. tauto.
Qed.

Lemma removeSelected_effect (ids : list string) (p : Floorplan) :
  document_effect (RemoveSelected ids) p
  = {| fp_id := fp_id p; name := name p; units := units p; scale := scale p;
       gridSize := gridSize p;
       walls := filter (λ w, wall_id w ∉ ids) (walls p);
       doors := filter (λ x, door_id x ∉ ids) (doors p);
       windows := filter (λ w, window_id w ∉ ids) (windows p);
       rooms := filter (λ r, room_id r ∉ ids) (rooms p);
       furniture := filter (λ f, furniture_id f ∉ ids) (furniture p);
       backgroundImage := backgroundImage p |}.
Proof. by destruct p. Qed.

Lemma filter_not_in_nil {A} (key : A → string) (l : list A) :
  filter (λ x, key x ∉ []) l = l.
Proof. apply filter_all, Forall_forall. intros x _. apply not_elem_of_nil. Qed.

(** X11.  Bulk removals compose: removing the ids [xs] and then the ids
    [ys] leaves the same document as removing [xs ++ ys] at once, and
    removing the empty selection leaves the document as it is. *)
Theorem removeSelected_composes (xs ys : list string) (h : HistoryState) :
  present (removeSelected ys (removeSelected xs h)) = present (removeSelected (xs ++ ys) h)
  ∧ present (removeSelected [] h) = present h.
Proof.
  change (removeSelected ys (removeSelected xs h))
    with (exec (RemoveSelected ys) (exec (RemoveSelected xs) h)).
  change (removeSelected (xs ++ ys) h) with (exec (RemoveSelected (xs ++ ys)) h).
  change (removeSelected [] h) with (exec (RemoveSelected []) h).
  rewrite !exec_present, !removeSelected_effect.
  cbn [walls doors windows rooms furniture fp_id name units scale gridSize backgroundImage].
  split.
  - rewrite (filter_filter_app wall_id), (filter_filter_app door_id),
      (filter_filter_app window_id), (filter_filter_app furniture_id),
      (filter_filter_app room_id).
    reflexivity.
  - rewrite (filter_not_in_nil wall_id), (filter_not_in_nil door_id),
      (filter_not_in_nil window_id), (filter_not_in_nil furniture_id),
      (filter_not_in_nil room_id).
    by destruct (present h).
Qed.
(** ** Unique ids *)

Lemma sublist_fmap_filter {A} (key : A → string) (P : A → Prop) `{!∀ a, Decision (P a)}
    (xs : list A) :
  key <$> filter P xs `sublist_of` key <$> xs.
Proof. apply fmap_sublist, sublist_filter. Qed.

Lemma remove_effect_sublist (c : Command) (p : Floorplan) :
  is_remove c = true →
  element_ids (document_effect c p) `sublist_of` element_ids p.
Proof.
  destruct c; try discriminate; intros _; destruct p as [? ? ? ? ? ws ds ns rs fs ?];
    unfold element_ids; simpl;
    repeat apply sublist_app; try apply sublist_fmap_filter; reflexivity.
Qed.

Lemma effect_keeps_ids_unique (c : Command) (p : Floorplan) :
  NoDup (element_ids p) → brings_fresh_id c p →
  NoDup (element_ids (document_effect c p)).
Proof.
  intros Hp Hc.
  destruct (is_update c) eqn:Hu; [by rewrite update_keeps_element_ids|].
  destruct (is_remove c) eqn:Hr; [by eapply sublist_NoDup, remove_effect_sublist|].
  destruct c; try discriminate; simpl in Hc.
  - done.
  - apply NoDup_nil_2.
  - by destruct p.
  - by destruct p.
  - by destruct p.
  - destruct p as [? ? ? ? ? ws ds ns rs fs ?]; unfold element_ids in *; simpl in *.
    rewrite fmap_app, <- ?app_assoc; simpl.
    rewrite <- !Permutation_middle. by apply NoDup_cons.
  - destruct p as [? ? ? ? ? ws ds ns rs fs ?]; unfold element_ids in *; simpl in *.
    rewrite fmap_app, <- ?app_assoc; simpl.
    rewrite <- !Permutation_middle. by apply NoDup_cons.
  - destruct p as [? ? ? ? ? ws ds ns rs fs ?]; unfold element_ids in *; simpl in *.
    rewrite fmap_app, <- ?app_assoc; simpl.
    rewrite <- !Permutation_middle. by apply NoDup_cons.
  - destruct p as [? ? ? ? ? ws ds ns rs fs ?]; unfold element_ids in *; simpl in *.
    rewrite fmap_app, <- ?app_assoc; simpl.
    rewrite <- !Permutation_middle. by apply NoDup_cons.
  - destruct p as [? ? ? ? ? ws ds ns rs fs ?]; unfold element_ids in *; simpl in *.
    rewrite fmap_app, <- ?app_assoc; simpl.
    rewrite <- !Permutation_middle, app_nil_r. by apply NoDup_cons.
Qed.

Lemma Forall_slice_last {A} (P : A → Prop) (n : nat) (xs : list A) :
  Forall P xs → Forall P (slice_last n xs).
Proof. apply Forall_drop. Qed.

(** X12.  Ids stay unique: if every document held by the history (past,
    present and future) has pairwise distinct element ids, and each
    [add*] is given an id that the present document does not use yet
    (each [setFloorplan] a document with distinct ids), then the same
    holds after any command, undo or redo. *)
Theorem ids_stay_unique (a : Action) (h : HistoryState) :
  ids_unique_throughout h → step_brings_fresh_id a h →
  ids_unique_throughout (step a h).
Proof.
  unfold ids_unique_throughout. intros Hall Ha. destruct a as [c| |]; cbn [step].
  - unfold timeline in *. apply Forall_app in Hall as [Hpast Hrest].
    apply Forall_cons in Hrest as [Hpres Hfut].
    pose proof (effect_keeps_ids_unique c (present h) Hpres Ha) as Hnew.
    rewrite exec_spec; simpl. apply Forall_app. split; [|apply Forall_cons; split].
    + destruct (records c); [|done]. apply Forall_slice_last, Forall_app.
      split; [done|]. apply Forall_singleton. unfold recorded_entry.
      by destruct (writes_in_place c).
    + done.
    + by destruct (records c).
  - by rewrite undo_timeline.
  - by rewrite redo_timeline.
Qed.

Lemma ids_stay_unique_witness :
  let a := Do (AddDoor "d2" "w1" (3 # 4) None) in
  ids_unique_throughout one_wall_house ∧ step_brings_fresh_id a one_wall_house
  ∧ ids_unique_throughout (step a one_wall_house).
Proof.
  intros a.
  assert (ids_unique_throughout one_wall_house) as H1.
  { unfold ids_unique_throughout. apply (bool_decide_unpack _). by vm_compute. }
  assert (step_brings_fresh_id a one_wall_house) as H2.
  { unfold step_brings_fresh_id, a, brings_fresh_id.
    apply (bool_decide_unpack _). by vm_compute. }
  split; [exact H1|]. split; [exact H2|]. exact (ids_stay_unique a one_wall_house H1 H2).
Defined.

(** * Properties of the UI store *)

Lemma clamp_zoom_bounds (z : Q) : (1 # 10 <= clamp_zoom z)%Q ∧ (clamp_zoom z <= 5)%Q.
Proof.
  unfold clamp_zoom. split; [apply Q.le_max_l|].
  apply Q.max_lub; [done|apply Q.le_min_l].
Qed.

Lemma clamp_zoom_in_range (z : Q) :
  (1 # 10 <= z)%Q → (z <= 5)%Q → (clamp_zoom z == z)%Q.
Proof.
  intros Hlo Hhi. unfold clamp_zoom.
  rewrite (Q.min_r 5 z) by done. by rewrite Q.max_r.
Qed.

(** X13.  The zoom factor never leaves [0.1, 5]: whatever the sequence of
    store actions, toolbar zoom clicks and wheel events, the stored zoom
    stays between 0.1 and 5; a zoom already in that range is stored as it
    is, and the wheel handler hands the canvas a zoom in the same range. *)
Theorem zoom_stays_in_range (acts : list UIAction) (z canvasZoom deltaY : Q) :
  let st := ui_run acts initialUIState in
  ((1 # 10 <= zoom st)%Q ∧ (zoom st <= 5)%Q)
  ∧ ((1 # 10 <= z)%Q → (z <= 5)%Q → (zoom (setZoom z st) == z)%Q)
  ∧ ((1 # 10 <= wheelZoom canvasZoom deltaY)%Q ∧ (wheelZoom canvasZoom deltaY <= 5)%Q).
Proof.
  intros st. split; [|split].
  - unfold st. induction acts as [|a acts IH] using rev_ind; [by vm_compute|].
    unfold ui_run. rewrite foldl_app; simpl. fold (ui_run acts initialUIState).
    destruct a; simpl; try apply IH; apply clamp_zoom_bounds.
  - apply clamp_zoom_in_range.
  - apply clamp_zoom_bounds.
Qed.

Lemma zoom_stays_in_range_witness :
  let st := ui_run [ZoomOut; ZoomOut; SetZoom 40] initialUIState in
  (1 # 10 <= 3 # 2)%Q ∧ (3 # 2 <= 5)%Q ∧ (zoom (setZoom (3 # 2) st) == 3 # 2)%Q.
Proof.
  intros st.
  assert (1 # 10 <= 3 # 2)%Q as H1 by (by vm_compute).
  assert (3 # 2 <= 5)%Q as H2 by (by vm_compute).
  split; [exact H1|]. split; [exact H2|].
  exact (proj1 (proj2 (zoom_stays_in_range [ZoomOut; ZoomOut; SetZoom 40] (3 # 2) 1 0)) H1 H2).
Defined.

(** X14.  Selection by id: [addToSelection] never introduces a duplicate
    and is idempotent, [removeFromSelection] removes the id and nothing
    else, and removing an id right after adding it gives back the
    selection when the id was not selected before. *)
Theorem selection_add_remove (id : string) (st : UIState) :
  id ∈ selectedIds (addToSelection id st)
  ∧ (NoDup (selectedIds st) → NoDup (selectedIds (addToSelection id st)))
  ∧ addToSelection id (addToSelection id st) = addToSelection id st
  ∧ (id ∉ selectedIds (removeFromSelection id st))
  ∧ (∀ i, i ≠ id → (i ∈ selectedIds (removeFromSelection id st) ↔ i ∈ selectedIds st))
  ∧ (id ∉ selectedIds st → removeFromSelection id (addToSelection id st) = st).
Proof.
  unfold addToSelection, removeFromSelection, setSelectedIds; simpl.
  split; [|split; [|split; [|split; [|split]]]].
  - case_bool_decide; [done|]. apply elem_of_app. right. by apply list_elem_of_singleton.
  - intros Hnd. case_bool_decide; [done|]. apply NoDup_app. split; [done|].
    split; [|apply NoDup_singleton].
    intros x Hx Hx'. apply list_elem_of_singleton in Hx'. by subst.
  - destruct (decide (id ∈ selectedIds st)) as [Hin|Hout].
    + by rewrite !(bool_decide_eq_true_2 _ Hin).
    + rewrite !(bool_decide_eq_false_2 _ Hout).
      rewrite bool_decide_eq_true_2; [done|].
      apply elem_of_app. right. by apply list_elem_of_singleton.
  - intros [Hne _]%list_elem_of_filter. by apply Hne.
  - intros i Hi. rewrite list_elem_of_filter. tauto.
  - intros Hid. rewrite bool_decide_eq_false_2 by done. simpl.
    rewrite filter_app, filter_cons_False, filter_nil, app_nil_r by (intros H; by apply H).
    rewrite filter_all; [by destruct st|].
    apply Forall_forall. intros x Hx ->. by apply Hid.
Qed.

Lemma selection_add_remove_witness :
  let st := addToSelection "w1" initialUIState in
  NoDup (selectedIds st) ∧ ("d1" ∉ selectedIds st)
  ∧ NoDup (selectedIds (addToSelection "d1" st))
  ∧ removeFromSelection "d1" (addToSelection "d1" st) = st.
Proof.
  intros st.
  assert (NoDup (selectedIds st)) as H1 by (apply (bool_decide_unpack _); by vm_compute).
  assert ("d1" ∉ selectedIds st) as H2 by (apply (bool_decide_unpack _); by vm_compute).
  split; [exact H1|]. split; [exact H2|].
  destruct (selection_add_remove "d1" st) as (_ & Hnd & _ & _ & _ & Hback).
  split; [exact (Hnd H1) | exact (Hback H2)].
Defined.

(** X15.  [togglePanel] flips whether the panel is open and leaves the
    other panels as they are; toggling a closed panel twice gives back the
    very list of open panels; [openPanel] is idempotent and [closePanel]
    leaves the panel closed. *)
Theorem panel_toggle (panel : Panel) (st : UIState) :
  (panel ∈ openPanels (togglePanel panel st) ↔ panel ∉ openPanels st)
  ∧ (∀ p, p ≠ panel → (p ∈ openPanels (togglePanel panel st) ↔ p ∈ openPanels st))
  ∧ (panel ∉ openPanels st → togglePanel panel (togglePanel panel st) = st)
  ∧ panel ∈ openPanels (openPanel panel st)
  ∧ openPanel panel (openPanel panel st) = openPanel panel st
  ∧ (panel ∉ openPanels (closePanel panel st)).
Proof.
  unfold togglePanel, openPanel, closePanel, setOpenPanels; simpl.
  split; [|split; [|split; [|split; [|split]]]].
  - case_bool_decide as Hin.
    + rewrite list_elem_of_filter. tauto.
    + rewrite elem_of_app, list_elem_of_singleton. tauto.
  - intros p Hp. case_bool_decide as Hin.
    + rewrite list_elem_of_filter. tauto.
    + rewrite elem_of_app, list_elem_of_singleton. tauto.
  - intros Hout. rewrite (bool_decide_eq_false_2 _ Hout). simpl.
    rewrite bool_decide_eq_true_2
      by (apply elem_of_app; right; by apply list_elem_of_singleton).
    rewrite filter_app, filter_cons_False, filter_nil, app_nil_r by (intros H; by apply H).
    rewrite filter_all; [by destruct st|].
    apply Forall_forall. intros x Hx ->. by apply Hout.
  - case_bool_decide; [done|]. apply elem_of_app. right. by apply list_elem_of_singleton.
  - destruct (decide (panel ∈ openPanels st)) as [Hin|Hout].
    + by rewrite !(bool_decide_eq_true_2 _ Hin).
    + rewrite !(bool_decide_eq_false_2 _ Hout).
      rewrite bool_decide_eq_true_2; [done|].
      apply elem_of_app. right. by apply list_elem_of_singleton.
  - intros [Hne _]%list_elem_of_filter. by apply Hne.
Qed.

Lemma panel_toggle_witness :
  (panel_chat ∉ openPanels initialUIState)
  ∧ togglePanel panel_chat (togglePanel panel_chat initialUIState) = initialUIState.
Proof.
  assert (panel_chat ∉ openPanels initialUIState) as H
    by (apply (bool_decide_unpack _); by vm_compute).
  split; [exact H|].
  exact (proj1 (proj2 (proj2 (panel_toggle panel_chat initialUIState))) H).
Defined.
(** * Properties of the chat and settings stores *)

(** X16.  [updateMessage] rewrites the content of every message that
    carries the id and nothing else: number, order, ids, roles and
    timestamps of the messages are kept; with an id no message carries it
    changes nothing; and of two updates of one id the later one wins. *)
Theorem updateMessage_spec (id content : string) (st : ChatState) :
  msg_id <$> messages (updateMessage id content st) = msg_id <$> messages st
  ∧ msg_role <$> messages (updateMessage id content st) = msg_role <$> messages st
  ∧ msg_timestamp <$> messages (updateMessage id content st)
    = msg_timestamp <$> messages st
  ∧ (∀ i m, messages st !! i = Some m →
       ∃ m', messages (updateMessage id content st) !! i = Some m'
             ∧ msg_content m' = (if bool_decide (msg_id m = id)
                                 then content else msg_content m))
  ∧ (id ∉ msg_id <$> messages st → updateMessage id content st = st)
  ∧ (∀ earlier, updateMessage id content (updateMessage id earlier st)
                = updateMessage id content st).
Proof.
  unfold updateMessage; simpl.
  split; [|split; [|split; [|split; [|split]]]].
  - rewrite <- list_fmap_compose. apply list_fmap_ext. intros i m _. simpl.
    by case_bool_decide.
  - rewrite <- list_fmap_compose. apply list_fmap_ext. intros i m _. simpl.
    by case_bool_decide.
  - rewrite <- list_fmap_compose. apply list_fmap_ext. intros i m _. simpl.
    by case_bool_decide.
  - intros i m Hm. eexists. split; [by rewrite list_lookup_fmap, Hm|].
    by case_bool_decide.
  - intros Hid. destruct st as [ms l]; simpl in *. f_equal.
    rewrite <- (list_fmap_id ms) at 2. apply list_fmap_ext. intros i m Hm. simpl.
    rewrite bool_decide_eq_false_2; [done|].
    intros Heq. apply Hid. subst id. apply list_elem_of_fmap_2.
    by eapply list_elem_of_lookup_2.
  - intros earlier. f_equal. rewrite <- list_fmap_compose.
    apply list_fmap_ext. intros i m _. simpl.
    destruct (decide (msg_id m = id)) as [Hm|Hm].
    + by rewrite !(bool_decide_eq_true_2 _ Hm).
    + by rewrite !(bool_decide_eq_false_2 _ Hm).
Qed.

Lemma updateMessage_spec_witness :
  let st := addMessage "m1" 0 role_user "hi" initialChatState in
  ("m2" ∉ msg_id <$> messages st) ∧ updateMessage "m2" "hello" st = st.
Proof.
  intros st.
  assert ("m2" ∉ msg_id <$> messages st) as H by (apply (bool_decide_unpack _); by vm_compute).
  split; [exact H|].
  exact (proj1 (proj2 (proj2 (proj2 (proj2 (updateMessage_spec "m2" "hello" st))))) H).
Defined.

(** X17.  Streaming into a message: after [addMessage] with an id that no
    earlier message carries, [updateMessage] with that id changes the new
    last message only, giving it the new content and keeping its role
    and timestamp. *)
Theorem addMessage_then_update (id content content' : string) (now : Z)
    (role : ChatRole) (st : ChatState) :
  id ∉ msg_id <$> messages st →
  messages (updateMessage id content' (addMessage id now role content st))
  = messages st ++ [{| msg_id := id; msg_role := role;
                       msg_content := content'; msg_timestamp := now |}].
Proof.
  intros Hid. unfold updateMessage, addMessage; simpl.
  rewrite fmap_app; simpl. rewrite bool_decide_eq_true_2 by done. f_equal.
  rewrite <- (list_fmap_id (messages st)) at 2. apply list_fmap_ext. intros i m Hm. simpl.
  rewrite bool_decide_eq_false_2; [done|].
  intros Heq. apply Hid. subst id. apply list_elem_of_fmap_2.
  by eapply list_elem_of_lookup_2.
Qed.

Lemma addMessage_then_update_witness :
  let st := addMessage "m1" 0 role_user "hi" initialChatState in
  ("m2" ∉ msg_id <$> messages st)
  ∧ messages (updateMessage "m2" "Done." (addMessage "m2" 5 role_assistant "" st))
    = messages st ++ [{| msg_id := "m2"; msg_role := role_assistant;
                         msg_content := "Done."; msg_timestamp := 5 |}].
Proof.
  intros st.
  assert ("m2" ∉ msg_id <$> messages st) as H by (apply (bool_decide_unpack _); by vm_compute).
  split; [exact H|]. exact (addMessage_then_update "m2" "" "Done." 5 role_assistant st H).
Defined.

(** X18.  The active API key is the key last stored for the selected
    provider: storing a key for the selected provider makes it the active
    key, storing one for another provider leaves the active key alone, and
    switching provider switches to that provider's stored key. *)
Theorem active_key_round_trip (provider : AIProvider) (key : string) (st : SettingsState) :
  getActiveApiKey (setApiKey provider key st)
  = (if decide (provider = selectedProvider st) then key else getActiveApiKey st)
  ∧ getActiveApiKey (setSelectedProvider provider (setApiKey provider key st)) = key
  ∧ getActiveApiKey (setApiKey provider key (setSelectedProvider provider st)) = key.
Proof.
  unfold getActiveApiKey.
  by destruct provider, st as [? ? ? [] ? ?]; simpl; repeat case_decide.
Qed.

(** X19.  [setSelectedProvider] selects the first model listed for the
    provider: the selected model is never empty and always one of the
    models of the selected provider. *)
Theorem provider_selects_its_first_model (provider : AIProvider) (st : SettingsState) :
  let st' := setSelectedProvider provider st in
  selectedProvider st' = provider
  ∧ selectedModel st' ≠ ""
  ∧ ∃ cfg, cfg ∈ AI_PROVIDERS ∧ provider_id cfg = provider
           ∧ head (model_id <$> provider_models cfg) = Some (selectedModel st').
Proof.
  destruct provider; simpl; (split; [done|]); (split; [done|]).
  - eexists; split; [apply elem_of_cons; by left|]. by vm_compute.
  - eexists; split; [apply elem_of_cons; right; apply elem_of_cons; by left|].
    by vm_compute.
  - eexists; split;
      [apply elem_of_cons; right; apply elem_of_cons; right; apply elem_of_cons; by left|].
    by vm_compute.
Qed.

(** The length of a plain ASCII string is its number of bytes; outside
    ASCII the two differ. *)
Example js_length_samples :
  js_length "sk-ant-0123456789" = 17 ∧ js_length "éééééééééé" = 10
  ∧ String.length "éééééééééé" = 20.
Proof. by vm_compute. Qed.

(** X20.  [clearSettings] empties the three API keys and the user name
    and keeps the selected provider and model; afterwards the active key
    is empty and [hasValidApiKey] is false, also after switching to any
    provider. *)
Theorem clearSettings_spec (st : SettingsState) (provider : AIProvider) :
  let st' := clearSettings st in
  anthropicApiKey st' = "" ∧ openaiApiKey st' = "" ∧ googleApiKey st' = ""
  ∧ userName st' = ""
  ∧ selectedProvider st' = selectedProvider st ∧ selectedModel st' = selectedModel st
  ∧ getActiveApiKey st' = ""
  ∧ getActiveApiKey (setSelectedProvider provider st') = ""
  ∧ hasValidApiKey st' = false
  ∧ hasValidApiKey (setSelectedProvider provider st') = false.
Proof.
  unfold hasValidApiKey, getActiveApiKey.
  by destruct provider, st as [? ? ? [] ? ?].
Qed.

(** * Properties of whole wall-drawing gestures *)

Lemma handleMouseUp_after_move id st p release :
  handleMouseUp id (handleMouseMove st p) release = handleMouseUp id st release.
Proof.
  unfold handleMouseMove.
  destruct (negb (isDrawing st) || negb (bool_decide (activeTool st = tool_wall)))
    eqn:Hguard; [done|].
  destruct (hasCanvas st) eqn:Hc; [|done].
  destruct (previewLineRef st) as [[p1 p2]|] eqn:Hp; [|done].
  destruct (drawStartRef st) as [start|] eqn:Hs; [|done].
  unfold handleMouseUp, snapped_pointer; cbn [activeTool snapToGrid isDrawing drawStartRef
    previewLineRef hasCanvas].
  by rewrite Hguard, Hc, Hs.
Qed.

Lemma handleMouseUp_after_moves id st moves release :
  handleMouseUp id (foldl handleMouseMove st moves) release = handleMouseUp id st release.
Proof.
  revert st. induction moves as [|p moves IH]; intros st; [done|].
  cbn [foldl]. by rewrite IH, handleMouseUp_after_move.
Qed.

Lemma handleMouseMove_other_tool st p :
  activeTool st ≠ tool_wall → handleMouseMove st p = st.
Proof.
  intros Ht. unfold handleMouseMove.
  rewrite (bool_decide_eq_false_2 _ Ht). by rewrite orb_true_r.
Qed.

Lemma handleMouseUp_twice id id' st release release' :
  handleMouseUp id' (handleMouseUp id st release).1 release'
  = ((handleMouseUp id st release).1, []).
Proof.
  unfold handleMouseUp.
  destruct (isDrawing st) eqn:Hd;
    destruct (bool_decide (activeTool st = tool_wall)) eqn:Ht;
    destruct (hasCanvas st) eqn:Hc;
    destruct (drawStartRef st) as [start|] eqn:Hs;
    cbn [negb orb fst activeTool snapToGrid isDrawing drawStartRef previewLineRef hasCanvas];
    rewrite ?Hd, ?Ht, ?Hc, ?Hs; done.
Qed.

(** X21.  Pointer moves between press and release only drive the preview
    line: the release yields the same state and the same store calls as
    if there had been none.  After the release the component is idle, so
    a second release does nothing and calls nothing.  With any tool other
    than the wall tool the three handlers leave the state as it is and
    call nothing. *)
Theorem gesture_spec (id id' : string) (st : CanvasState) (press release release' : Point)
    (moves : list Point) :
  gesture id st press moves release = gesture id st press [] release
  ∧ handleMouseUp id' (gesture id st press moves release).1 release'
    = ((gesture id st press moves release).1, [])
  ∧ (activeTool st ≠ tool_wall →
     handleMouseDown st press = st
     ∧ foldl handleMouseMove st moves = st
     ∧ handleMouseUp id st release = (st, [])
     ∧ gesture id st press moves release = (st, [])).
Proof.
  unfold gesture. rewrite handleMouseUp_after_moves. split; [done|]. split.
  - apply handleMouseUp_twice.
  - intros Ht.
    assert (handleMouseDown st press = st) as Hdown
      by (unfold handleMouseDown; by rewrite (bool_decide_eq_false_2 _ Ht)).
    assert (handleMouseUp id st release = (st, [])) as Hup
      by (unfold handleMouseUp; rewrite (bool_decide_eq_false_2 _ Ht); by rewrite orb_true_r).
    rewrite Hdown. repeat split; try done.
    clear Hdown Hup. induction moves as [|p moves IH]; [done|].
    cbn [foldl]. by rewrite handleMouseMove_other_tool.
Qed.

Lemma gesture_spec_witness :
  let press := {| pt_x := 0; pt_y := 0 |} in
  let release := {| pt_x := 200; pt_y := 0 |} in
  activeTool idle_select_tool ≠ tool_wall
  ∧ gesture "w1" idle_select_tool press [release] release = (idle_select_tool, []).
Proof.
  intros press release.
  assert (activeTool idle_select_tool ≠ tool_wall) as Ht by discriminate.
  split; [exact Ht|].
  exact (proj2 (proj2 (proj2 (proj2 (proj2
           (gesture_spec "w1" "w1" idle_select_tool press release release [release])) Ht)))).
Defined.

Lemma on_inch_grid_snapped (q : Q) :
  on_inch_grid (Math_round (q / snapSize) * snapSize / DEFAULTS.scale).
Proof.
  exists (Qfloor (q / snapSize + (1 # 2))). unfold Math_round.
  unfold snapSize, DEFAULTS.snapIncrement, DEFAULTS.scale. field.
Qed.

(** X22.  With snapping on and the wall tool active, a gesture adds at
    most one wall; a wall it adds has both endpoints on the 6-inch grid of
    the document, no thickness argument, and endpoints at least 6 inches
    apart. *)
Theorem snapped_gesture_wall (id : string) (st : CanvasState) (press release : Point)
    (moves : list Point) :
  activeTool st = tool_wall → hasCanvas st = true → snapToGrid st = true →
  let calls := (gesture id st press moves release).2 in
  calls = []
  ∨ ∃ a b, calls = [AddWall id a b None]
           ∧ point_on_inch_grid a ∧ point_on_inch_grid b
           ∧ (DEFAULTS.snapIncrement * DEFAULTS.snapIncrement <= dist2 a b)%Q.
Proof.
  intros Ht Hc Hs. unfold gesture. rewrite handleMouseUp_after_moves.
  unfold handleMouseDown. rewrite Ht, Hc. cbn [negb].
  rewrite bool_decide_eq_true_2 by done. cbn [negb].
  unfold handleMouseUp, snapped_pointer; cbn [activeTool snapToGrid isDrawing drawStartRef
    previewLineRef hasCanvas negb orb].
  rewrite ?Ht, ?Hc, ?Hs. rewrite ?bool_decide_eq_true_2 by done. cbn [negb orb snd].
  set (a := snapToGridPoint true (pt_x press) (pt_y press)).
  set (b := snapToGridPoint true (pt_x release) (pt_y release)).
  destruct (negb (Qle_bool (gesture_length a b) 10)) eqn:Hlen; [|by left].
  right. exists (to_inches a), (to_inches b). split; [done|].
  split; [split; apply on_inch_grid_snapped|].
  split; [split; apply on_inch_grid_snapped|].
  apply length_guard_true in Hlen.
  destruct (snapped_gesture_length press release) as [H0|H60]; fold a b in H0 || fold a b in H60.
  - exfalso. apply (Qlt_not_le _ _ Hlen).
    apply (proj1 (gesture_length_margin a b)). rewrite H0. by vm_compute.
  - assert (dist2 (to_inches a) (to_inches b) == dist2 a b / 100)%Q as ->.
    { unfold dist2, to_inches, DEFAULTS.scale; cbn [pt_x pt_y]. field. }
    unfold DEFAULTS.snapIncrement.
    apply Qle_shift_div_l; [done|]. apply (Qle_trans _ (60 * 60)); [by vm_compute|exact H60].
Qed.

Lemma snapped_gesture_wall_witness :
  let press := {| pt_x := 7; pt_y := 3 |} in
  let release := {| pt_x := 95; pt_y := 130 |} in
  activeTool (idle_wall_tool true) = tool_wall
  ∧ ((gesture "w1" (idle_wall_tool true) press [] release).2 = []
     ∨ ∃ a b, (gesture "w1" (idle_wall_tool true) press [] release).2
              = [AddWall "w1" a b None]
              ∧ point_on_inch_grid a ∧ point_on_inch_grid b
              ∧ (DEFAULTS.snapIncrement * DEFAULTS.snapIncrement <= dist2 a b)%Q).
Proof.
  intros press release. split; [reflexivity|].
  exact (snapped_gesture_wall "w1" (idle_wall_tool true) press release []
           eq_refl eq_refl eq_refl).
Defined.

(** * Properties of the agent bridge *)

Lemma nonempty_true id : id ≠ "" → nonempty id = true.
Proof. intros Hid. unfold nonempty. by rewrite bool_decide_eq_false_2. Qed.

(** X23.  A tool call that reports failure has not touched the store:
    whenever [executeToolCall] returns false (with the non-empty ids
    [generateId] produces) past, present and future are exactly as
    before.  Failure is reported only by [addFurniture], by [clearAll]
    and for a tool name without a case; a name without a case always
    fails. *)
Theorem failure_leaves_store (id tool : string) (args : gmap string jsval)
    (h h' : HistoryState) :
  id ≠ "" →
  (executeToolCall id tool args h = Some (false, h') →
     h' = h ∧ (tool = "addFurniture" ∨ tool = "clearAll" ∨ (tool ∉ handled_tools)))
  ∧ (tool ∉ handled_tools → executeToolCall id tool args h = Some (false, h)).
Proof.
  intros Hid. pose proof (nonempty_true id Hid) as Hne. split.
  - unfold executeToolCall. rewrite Hne.
    repeat case_decide.
    all: repeat match goal with
         | |- context [mbind _ ?o] =>
             destruct o; cbn [mbind option_bind]; [|discriminate]
         end.
    all: try discriminate.
    + destruct (FURNITURE_DIMENSIONS !! _).
      * repeat match goal with
               | |- context [mbind _ ?o] =>
                   destruct o; cbn [mbind option_bind]; [|discriminate]
               end.
        discriminate.
      * destruct (bool_decide _); [discriminate|].
        intros Hcall. split; [congruence|by left].
    + destruct (truthy (arg args "confirm")); [discriminate|].
      intros Hcall. split; [congruence|by right; left].
    + intros Hcall. split; [congruence|]. right; right.
      unfold handled_tools. rewrite !not_elem_of_cons. repeat split; try done.
      apply not_elem_of_nil.
  - unfold handled_tools. rewrite !not_elem_of_cons. intros Hnot.
    destruct Hnot as (?&?&?&?&?&?&?&?&?&?&_).
    unfold executeToolCall. repeat (case_decide; [done|]). done.
Qed.

Lemma failure_leaves_store_witness :
  "f1" ≠ "" ∧ ("paintWall" ∉ handled_tools)
  ∧ executeToolCall "f1" "paintWall" move_ghost one_wall_house = Some (false, one_wall_house).
Proof.
  assert ("f1" ≠ "") as H1 by discriminate.
  assert ("paintWall" ∉ handled_tools) as H2 by (apply (bool_decide_unpack _); by vm_compute).
  split; [exact H1|]. split; [exact H2|].
  exact (proj2 (failure_leaves_store "f1" "paintWall" move_ghost one_wall_house
                  one_wall_house H1) H2).
Defined.
Lemma addFurniture_tool_call id type x y rotation dimensions args h :
  args !! "type" = Some (JStr type) →
  args !! "x" = Some (JNum x) → args !! "y" = Some (JNum y) →
  as_optional_number (arg args "rotation") = Some rotation →
  FURNITURE_DIMENSIONS !! type = Some dimensions →
  executeToolCall id "addFurniture" args h
  = Some (nonempty id,
          let h := exec (AddFurniture id type {| pt_x := x; pt_y := y |}
                           (dim_width dimensions) (dim_height dimensions)) h in
          match rotation with
          | Some r => if truthy (JNum r) && nonempty id
                      then exec (UpdateFurniture id (rotation_update r)) h else h
          | None => h
          end).
Proof.
  intros Htype Hx Hy Hrot Hdim. unfold executeToolCall.
  repeat (case_decide; [discriminate|]). case_decide; [|done].
  unfold arg in *. rewrite Htype, Hx, Hy. cbn [from_option Datatypes.id as_string as_number mbind option_bind].
  rewrite Hdim. cbn [mbind option_bind]. rewrite Hrot. by cbn [mbind option_bind].
Qed.

(** X24.  An [addFurniture] tool call with a known type and an id no
    furniture item carries appends one item at the given position with
    the width and height of the type's table entry, no label, and the
    given rotation (0 when the argument is absent or zero); nothing else
    of the document changes.  With a non-zero rotation the call is two
    store edits, [addFurniture] then [updateFurniture], and takes two
    history entries; otherwise one.  The redo stack is emptied. *)
Theorem addFurniture_tool (id type : string) (x y : Q) (rotation : option Q)
    (dimensions : Dimensions) (args : gmap string jsval) (h : HistoryState) :
  id ≠ "" →
  id ∉ furniture_id <$> furniture (present h) →
  args !! "type" = Some (JStr type) →
  args !! "x" = Some (JNum x) → args !! "y" = Some (JNum y) →
  as_optional_number (arg args "rotation") = Some rotation →
  FURNITURE_DIMENSIONS !! type = Some dimensions →
  ∃ h', executeToolCall id "addFurniture" args h = Some (true, h')
        ∧ present h'
          = set_furniture
              (furniture (present h)
               ++ [{| furniture_id := id; furniture_type := type;
                      furniture_position := {| pt_x := x; pt_y := y |};
                      furniture_rotation := tool_rotation rotation;
                      furniture_width := dim_width dimensions;
                      furniture_height := dim_height dimensions;
                      furniture_label := None |}])
              (present h)
        ∧ length (past h') = (length (past h) + tool_entries rotation) `min` MAX_HISTORY
        ∧ future h' = [].
Proof.
  intros Hid Hfresh Htype Hx Hy Hrot Hdim.
  rewrite (addFurniture_tool_call id type x y rotation dimensions args h) by done.
  rewrite (nonempty_true id Hid).
  eexists. split; [reflexivity|]. cbv zeta.
  set (h1 := exec _ h).
  assert (present h1
          = set_furniture
              (furniture (present h)
               ++ [{| furniture_id := id; furniture_type := type;
                      furniture_position := {| pt_x := x; pt_y := y |};
                      furniture_rotation := 0;
                      furniture_width := dim_width dimensions;
                      furniture_height := dim_height dimensions;
                      furniture_label := None |}])
              (present h)) as Hp1 by apply exec_present.
  assert (length (past h1) = (length (past h) + 1) `min` MAX_HISTORY) as Hl1.
  { unfold h1. rewrite exec_spec. cbn [past records].
    by rewrite length_slice_last, length_app. }
  assert (future h1 = []) as Hf1 by (unfold h1; by rewrite exec_spec).
  assert (Forall (λ f, ¬ furniture_id f = id) (furniture (present h))) as Hno.
  { apply Forall_forall. intros f Hf Heq. apply Hfresh. subst id.
    by apply list_elem_of_fmap_2. }
  unfold tool_rotation, tool_entries.
  destruct rotation as [r|]; [destruct (truthy (JNum r))|]; cbn [andb]; try done.
  split; [|split].
  - rewrite exec_present, Hp1. cbn [document_effect].
    revert Hno. generalize (present h). intros [i0 n0 u0 s0 g0 ws ds ns rs fs b0] Hno.
    unfold set_furniture.
    cbn [fp_id name units scale gridSize walls doors windows rooms furniture
         backgroundImage] in *.
    by rewrite (find_assign_first (λ f, furniture_id f = id) _ fs [] _ Hno).
  - rewrite exec_spec. cbn [past records].
    rewrite length_slice_last, length_app, Hl1. cbn [length]. unfold MAX_HISTORY. lia.
  - by rewrite exec_spec.
Qed.

Lemma addFurniture_tool_witness :
  ∃ h', executeToolCall "f1" "addFurniture" place_sofa one_wall_house = Some (true, h')
        ∧ furniture_rotation <$> furniture (present h') = [90%Q]
        ∧ length (past h') = length (past one_wall_house) + 2.
Proof.
  assert ("f1" ≠ "") as H1 by discriminate.
  assert ("f1" ∉ furniture_id <$> furniture (present one_wall_house)) as H2
    by (apply (bool_decide_unpack _); by vm_compute).
  destruct (addFurniture_tool "f1" "sofa-3" 24 36 (Some 90%Q)
              (Build_Dimensions 84 36 "3-Seat Sofa") place_sofa one_wall_house
              H1 H2 eq_refl eq_refl eq_refl eq_refl eq_refl)
    as (h' & Hcall & Hp & Hl & _).
  exists h'. split; [exact Hcall|]. split.
  - rewrite Hp. reflexivity.
  - rewrite Hl. reflexivity.
Defined.

(** * Properties of the streaming loop *)

Section streaming_facts.
Context {Args : Type}.
Variable fields : Args → gmap string jsval.
Variable stringify : Args → string.
Variable generateId : nat → string.
Variable parseToolCalls : string → list (ToolCallResult Args).

Abbreviation same := (same_call stringify).
Abbreviation seen_in := (some_same_call stringify).
Abbreviation key := (call_key stringify).
Abbreviation execute := (execute_new fields generateId).
Abbreviation unseen := (newToolCalls stringify parseToolCalls).
Abbreviation turn := (read_chunk fields stringify generateId parseToolCalls).
Abbreviation turns := (read_chunks fields stringify generateId parseToolCalls).

Lemma same_call_key e tc : same e tc = true ↔ key e = key tc.
Proof.
  unfold same_call, call_key. rewrite andb_true_iff, !bool_decide_eq_true.
  split; [by intros [-> ->]|by intros [= -> ->]].
Qed.

Lemma some_same_call_key seen tc : seen_in seen tc = true ↔ key tc ∈ key <$> seen.
Proof.
  unfold some_same_call. rewrite existsb_exists, list_elem_of_fmap. split.
  - intros (e & He & Hsame). exists e. split; [symmetry; by apply same_call_key|].
    by apply list_elem_of_In.
  - intros (e & Hkey & He). exists e. split; [by apply list_elem_of_In|].
    by apply same_call_key.
Qed.

Lemma execute_new_keys new n h ran h' :
  execute new n h = Some (ran, h') → key <$> ran = key <$> new.
Proof.
  revert n h ran h'. induction new as [|tc new IH]; intros n h ran h' Hex.
  - by simplify_eq/=.
  - cbn [execute_new] in Hex.
    destruct (executeToolCall _ _ _ h) as [[ok h1]|]; [|done].
    cbn [mbind option_bind snd fst] in Hex.
    destruct (execute new (S n) h1) as [[ran' h2]|] eqn:Hrest; [|done].
    cbn [mbind option_bind snd fst] in Hex. simplify_eq.
    rewrite !fmap_cons. f_equal. by eapply IH.
Qed.

Lemma newToolCalls_seen seen content :
  (∀ tc, tc ∈ parseToolCalls content → seen_in seen tc = true) →
  unseen seen content = [].
Proof.
  intros Hseen. unfold newToolCalls.
  induction (parseToolCalls content) as [|tc tcs IH]; [done|].
  rewrite filter_cons_False.
  - apply IH. intros tc' Htc'. apply Hseen. by right.
  - rewrite (Hseen tc) by left. done.
Qed.

Lemma read_chunk_inv chunk s s' :
  turn chunk s = Some s' →
  ∃ ran, execute (unseen (toolCalls s) (fullContent s +:+ chunk)) (nextId s) (store s)
          = Some (ran, store s')
          ∧ fullContent s' = (fullContent s +:+ chunk)%string
          ∧ toolCalls s' = toolCalls s ++ ran
          ∧ nextId s' = nextId s + length ran.
Proof.
  unfold read_chunk. intros Hturn.
  destruct (execute _ (nextId s) (store s)) as [[ran h']|] eqn:Hex; [|done].
  cbn [mbind option_bind fst snd] in Hturn. simplify_eq. cbn.
  exists ran. repeat split.
  apply execute_new_keys in Hex. apply (f_equal length) in Hex.
  rewrite !length_fmap in Hex. by rewrite Hex.
Qed.

(** X25.  The loop parses the whole response again on every chunk, yet
    replays nothing: after a turn every call the parser finds in the text
    received so far is in the list of executed calls, and a further chunk
    in which the parser finds only calls of that list (same tool, same
    serialised arguments) leaves the floorplan store, the list and the id
    counter as they are. *)
Theorem seen_calls_not_replayed (chunk chunk' : string) (s s' : StreamState Args) :
  turn chunk s = Some s' →
  (∀ tc, tc ∈ parseToolCalls (fullContent s') → seen_in (toolCalls s') tc = true)
  ∧ ((∀ tc, tc ∈ parseToolCalls (fullContent s' +:+ chunk') →
        ∃ tc0, tc0 ∈ parseToolCalls (fullContent s') ∧ same tc0 tc = true) →
     turn chunk' s' = Some {| fullContent := fullContent s' +:+ chunk';
                              toolCalls := toolCalls s';
                              store := store s';
                              nextId := nextId s' |}).
Proof.
  intros Hturn. destruct (read_chunk_inv _ _ _ Hturn) as (ran & Hex & Hc & Ht & Hn).
  assert (∀ tc, tc ∈ parseToolCalls (fullContent s') → seen_in (toolCalls s') tc = true)
    as Hseen.
  { intros tc Htc. apply some_same_call_key. rewrite Ht, fmap_app, elem_of_app.
    destruct (seen_in (toolCalls s) tc) eqn:Hold.
    - left. by apply some_same_call_key.
    - right. rewrite (execute_new_keys _ _ _ _ _ Hex). apply list_elem_of_fmap_2.
      unfold newToolCalls. apply list_elem_of_filter. split; [done|]. by rewrite <- Hc. }
  split; [exact Hseen|]. intros Hnothing.
  unfold read_chunk. rewrite newToolCalls_seen.
  - cbn. by rewrite app_nil_r, Nat.add_0_r.
  - intros tc Htc. destruct (Hnothing tc Htc) as (tc0 & Htc0 & Hsame).
    apply some_same_call_key. apply same_call_key in Hsame. rewrite <- Hsame.
    apply some_same_call_key. by apply Hseen.
Qed.

Lemma read_chunks_cons chunk chunks s :
  turns (chunk :: chunks) s = turn chunk s ≫= turns chunks.
Proof.
  unfold read_chunks. cbn [foldl]. change (Some s ≫= turn chunk) with (turn chunk s).
  destruct (turn chunk s) as [s1|]; [done|].
  cbn [mbind option_bind]. by induction chunks.
Qed.

Lemma runs_app k xs ys : runs k (xs ++ ys) = runs k xs + runs k ys.
Proof. unfold runs. by rewrite filter_app, length_app. Qed.

Lemma runs_absent k keys : k ∉ keys → runs k keys = 0.
Proof.
  intros Hk. unfold runs. induction keys as [|k' keys IH]; [done|].
  apply not_elem_of_cons in Hk as [Hne Hk].
  rewrite filter_cons_False by done. by apply IH.
Qed.

Lemma runs_present k keys : k ∈ keys → 0 < runs k keys.
Proof.
  intros Hk. unfold runs. induction Hk as [k keys|k k' keys _ IH].
  - rewrite filter_cons_True by done. simpl. lia.
  - destruct (decide (k' = k)) as [->|Hne].
    + rewrite filter_cons_True by done. simpl. lia.
    + by rewrite filter_cons_False.
Qed.

(** The calls a turn executes, looked at for one key: none if the key
    has been seen, every occurrence in the parsed text if not. *)
Lemma runs_newToolCalls k seen content :
  runs k (key <$> unseen seen content)
  = if bool_decide (k ∈ key <$> seen) then 0
    else runs k (key <$> parseToolCalls content).
Proof.
  unfold newToolCalls, runs.
  induction (parseToolCalls content) as [|tc tcs IH].
  { by case_bool_decide. }
  destruct (seen_in seen tc) eqn:Hseen.
  - rewrite filter_cons_False by (by rewrite Hseen). rewrite IH.
    apply some_same_call_key in Hseen.
    case_bool_decide as Hk; [done|]. rewrite fmap_cons.
    rewrite filter_cons_False; [done|]. intros Heq. apply Hk. by rewrite <- Heq.
  - rewrite filter_cons_True by done. rewrite !fmap_cons.
    assert (key tc ∉ key <$> seen) as Hnot.
    { intros Hin. apply some_same_call_key in Hin. congruence. }
    destruct (decide (key tc = k)) as [Heq|Hne].
    + rewrite !filter_cons_True by done. cbn [length]. rewrite IH.
      rewrite bool_decide_eq_false_2 by (by rewrite <- Heq). done.
    + rewrite !filter_cons_False by done. exact IH.
Qed.

Lemma read_chunk_runs chunk s s' k :
  turn chunk s = Some s' →
  toolCalls s `prefix_of` toolCalls s'
  ∧ nextId s' + length (toolCalls s) = nextId s + length (toolCalls s')
  ∧ runs k (key <$> toolCalls s')
    = if bool_decide (k ∈ key <$> toolCalls s) then runs k (key <$> toolCalls s)
      else runs k (key <$> parseToolCalls (fullContent s +:+ chunk)).
Proof.
  intros Hturn.
  destruct (read_chunk_inv _ _ _ Hturn) as (ran & Hex & Hc & Ht & Hn).
  rewrite Ht, Hn, fmap_app, runs_app, length_app.
  split; [by apply prefix_app_r|]. split; [lia|].
  rewrite (execute_new_keys _ _ _ _ _ Hex), runs_newToolCalls.
  case_bool_decide as Hk; [lia|]. by rewrite (runs_absent _ _ Hk).
Qed.

Lemma read_chunks_nil s : turns [] s = Some s.
Proof. done. Qed.

Lemma read_chunks_seen chunks s s' k :
  turns chunks s = Some s' → k ∈ key <$> toolCalls s →
  runs k (key <$> toolCalls s') = runs k (key <$> toolCalls s).
Proof.
  revert s. induction chunks as [|chunk chunks IH]; intros s Hturns Hk.
  - rewrite read_chunks_nil in Hturns. by simplify_eq.
  - rewrite read_chunks_cons in Hturns.
    destruct (turn chunk s) as [s1|] eqn:Hturn; [|done]. cbn [mbind option_bind] in Hturns.
    destruct (read_chunk_runs chunk s s1 k Hturn) as (Hp & _ & Hr).
    rewrite bool_decide_eq_true_2 in Hr by done.
    rewrite <- Hr. apply IH; [done|].
    destruct Hp as [ran ->]. rewrite fmap_app. apply elem_of_app. by left.
Qed.

Lemma read_chunks_grows chunks s s' :
  turns chunks s = Some s' →
  toolCalls s `prefix_of` toolCalls s'
  ∧ nextId s' + length (toolCalls s) = nextId s + length (toolCalls s').
Proof.
  revert s. induction chunks as [|chunk chunks IH]; intros s Hturns.
  - rewrite read_chunks_nil in Hturns. by simplify_eq.
  - rewrite read_chunks_cons in Hturns.
    destruct (turn chunk s) as [s1|] eqn:Hturn; [|done]. cbn [mbind option_bind] in Hturns.
    destruct (read_chunk_runs chunk s s1 ("", "") Hturn) as (Hp & Hn & _).
    destruct (IH s1 Hturns) as [Hp' Hn'].
    split; [by etrans|lia].
Qed.

(** X26.  Over a whole response, however it is cut into chunks, all runs
    of a call (same tool, same serialised arguments) fall into one turn
    of the loop: the first whose text the parser finds the call in, and
    there the call runs once for every time the parser reports it in
    that text.  Later chunks never run it again.  The list of executed
    calls only grows and each entry stands for exactly one run of
    [executeToolCall]. *)
Theorem stream_runs_call_in_one_turn (chunks : list string) (s s' : StreamState Args)
    (k : string * string) :
  turns chunks s = Some s' →
  k ∉ key <$> toolCalls s →
  toolCalls s `prefix_of` toolCalls s'
  ∧ nextId s' + length (toolCalls s) = nextId s + length (toolCalls s')
  ∧ (runs k (key <$> toolCalls s') = 0
     ∨ ∃ chunks1 chunk chunks2 s1,
         chunks = chunks1 ++ chunk :: chunks2
         ∧ turns chunks1 s = Some s1
         ∧ (k ∉ key <$> toolCalls s1)
         ∧ 0 < runs k (key <$> parseToolCalls (fullContent s1 +:+ chunk))
         ∧ runs k (key <$> toolCalls s')
           = runs k (key <$> parseToolCalls (fullContent s1 +:+ chunk))).
Proof.
  revert s. induction chunks as [|chunk chunks IH]; intros s Hturns Hk.
  - rewrite read_chunks_nil in Hturns. simplify_eq.
    split; [done|]. split; [done|]. left. by apply runs_absent.
  - rewrite read_chunks_cons in Hturns.
    destruct (turn chunk s) as [s1|] eqn:Hturn; [|done]. cbn [mbind option_bind] in Hturns.
    destruct (read_chunk_runs chunk s s1 k Hturn) as (Hp & Hn & Hr).
    rewrite bool_decide_eq_false_2 in Hr by done.
    destruct (decide (k ∈ key <$> toolCalls s1)) as [Hin|Hout].
    + pose proof (read_chunks_seen chunks s1 s' k Hturns Hin) as Hsame.
      destruct (read_chunks_grows chunks s1 s' Hturns) as [Hp' Hn'].
      split; [by etrans|]. split; [lia|]. right.
      exists [], chunk, chunks, s. split; [done|]. split; [done|]. split; [done|].
      rewrite <- Hr. split; [by apply runs_present|]. by rewrite Hsame.
    + destruct (IH s1 Hturns Hout) as (Hp' & Hn' & Hruns).
      split; [by etrans|]. split; [lia|].
      destruct Hruns as [H0|(chunks1 & chunk' & chunks2 & s2 & -> & Hturns1 & Hk2 & Hpos & Hr')];
        [by left|right].
      exists (chunk :: chunks1), chunk', chunks2, s2.
      split; [done|]. split; [|done].
      rewrite read_chunks_cons, Hturn. done.
Qed.
End streaming_facts.

Lemma seen_calls_not_replayed_witness :
  let turn := read_chunk sample_fields sample_stringify sample_ids sample_parse in
  ∃ s', turn "9:" sample_stream = Some s'
        ∧ turn "{...}" s' = Some {| fullContent := "9:{...}"; toolCalls := toolCalls s';
                                    store := store s'; nextId := 1 |}.
Proof.
  intros turn.
  assert (∃ s', turn "9:" sample_stream = Some s') as [s' Hs'] by (eexists; reflexivity).
  exists s'. split; [exact Hs'|].
  pose proof (proj2 (seen_calls_not_replayed sample_fields sample_stringify sample_ids
                       sample_parse "9:" "{...}" sample_stream s' Hs')) as Hnext.
  assert (fullContent s' = "9:" ∧ nextId s' = 1) as [Hc Hn]
    by (unfold turn in Hs'; vm_compute in Hs'; by simplify_eq).
  rewrite Hc, Hn in Hnext. apply Hnext.
  intros tc Htc. exists sample_call. split; [by left|].
  apply list_elem_of_singleton in Htc as ->. reflexivity.
Defined.

Lemma stream_runs_call_in_one_turn_witness :
  let turns := read_chunks sample_fields sample_stringify sample_ids sample_parse_twice in
  let key := call_key sample_stringify in
  let k := key sample_call in
  ∃ s', turns ["9:"; "{...}"] sample_stream = Some s'
        ∧ (k ∉ key <$> toolCalls sample_stream)
        ∧ toolCalls sample_stream `prefix_of` toolCalls s'
        ∧ nextId s' + length (toolCalls sample_stream)
          = nextId sample_stream + length (toolCalls s')
        ∧ (runs k (key <$> toolCalls s') = 0
           ∨ ∃ chunks1 chunk chunks2 s1,
               ["9:"; "{...}"] = chunks1 ++ chunk :: chunks2
               ∧ turns chunks1 sample_stream = Some s1
               ∧ (k ∉ key <$> toolCalls s1)
               ∧ 0 < runs k (key <$> sample_parse_twice (fullContent s1 +:+ chunk))
               ∧ runs k (key <$> toolCalls s')
                 = runs k (key <$> sample_parse_twice (fullContent s1 +:+ chunk))).
Proof.
  intros turns key k.
  assert (∃ s', turns ["9:"; "{...}"] sample_stream = Some s') as [s' Hs']
    by (eexists; reflexivity).
  assert (k ∉ key <$> toolCalls sample_stream) as Hk by apply not_elem_of_nil.
  exists s'. split; [exact Hs'|]. split; [exact Hk|].
  exact (stream_runs_call_in_one_turn sample_fields sample_stringify sample_ids
           sample_parse_twice ["9:"; "{...}"] sample_stream s' k Hs' Hk).
Defined.

(** The same call reported twice in the first text runs twice, in that
    turn, and never again: two entries, two ids, two history entries. *)
Example stream_runs_reported_twice :
  let turns := read_chunks sample_fields sample_stringify sample_ids sample_parse_twice in
  ∃ s', turns ["9:"; "{...}"; "}"] sample_stream = Some s'
        ∧ runs (call_key sample_stringify sample_call)
               (call_key sample_stringify <$> toolCalls s') = 2
        ∧ nextId s' = 2
        ∧ length (past (store s')) = length (past one_wall_house) + 2.
Proof. eexists. split; [reflexivity|]. by vm_compute. Qed.

(** * Properties of the chat request *)

Lemma provider_of_string p : provider_of (JStr (provider_string p)) = Some p.
Proof. by destruct p. Qed.

(** X27.  The server checks the key first: a body without a truthy
    [apiKey] is answered 401 whatever else it holds, and only then are
    the messages (400 unless an array) and the provider (400 unless one
    of the three) looked at.  A body the chat panel sends is rejected
    only for an empty key: with a key the panel accepts as valid (more
    than 10 characters) the request always passes the checks and goes to
    the selected provider. *)
Theorem chat_request_passes_checks (st : SettingsState)
    (messages : list (MessageRole * string)) (content : string) (floorplan : jsval)
    (body : gmap string jsval) :
  (truthy (arg body "apiKey") = false → POST_checks body = Rejected 401 "API key is required")
  ∧ (truthy (arg body "apiKey") = true → Array_isArray (arg body "messages") = false →
     POST_checks body = Rejected 400 "Messages are required")
  ∧ (truthy (arg body "apiKey") = true → Array_isArray (arg body "messages") = true →
     provider_of (arg body "provider") = None →
     POST_checks body = Rejected 400 "Invalid provider")
  ∧ POST_checks (chat_request st messages content floorplan)
    = (if decide (getActiveApiKey st = "") then Rejected 401 "API key is required"
       else Accepted (selectedProvider st))
  ∧ (hasValidApiKey st = true →
     POST_checks (chat_request st messages content floorplan)
     = Accepted (selectedProvider st)).
Proof.
  assert (POST_checks (chat_request st messages content floorplan)
          = (if decide (getActiveApiKey st = "") then Rejected 401 "API key is required"
             else Accepted (selectedProvider st))) as Hreq.
  { unfold POST_checks, chat_request, arg.
    rewrite !lookup_insert_ne by done. rewrite lookup_insert_eq.
    rewrite lookup_insert_eq. rewrite lookup_insert_ne by done. rewrite lookup_insert_eq.
    cbn [from_option Datatypes.id truthy Array_isArray negb orb].
    case_decide as Hkey.
    - by rewrite bool_decide_eq_true_2.
    - rewrite bool_decide_eq_false_2 by done. cbn [negb].
      by rewrite provider_of_string. }
  split; [|split; [|split; [|split]]].
  - intros Hkey. unfold POST_checks. by rewrite Hkey.
  - intros Hkey Harr. unfold POST_checks. rewrite Hkey, Harr. cbn [negb].
    by rewrite orb_true_r.
  - intros Hkey Harr Hprov. unfold POST_checks. rewrite Hkey, Harr, Hprov.
    by destruct (arg body "messages").
  - exact Hreq.
  - intros Hvalid. rewrite Hreq. case_decide as Hkey; [|done].
    unfold hasValidApiKey in Hvalid. rewrite Hkey in Hvalid. done.
Qed.

Lemma chat_request_passes_checks_witness :
  let st := setApiKey anthropic "sk-ant-0123456789" initialSettings in
  hasValidApiKey st = true
  ∧ POST_checks (chat_request st [] "Add a wall" (JObj [])) = Accepted anthropic.
Proof.
  intros st. assert (hasValidApiKey st = true) as Hvalid by reflexivity.
  split; [exact Hvalid|].
  exact (proj2 (proj2 (proj2 (proj2 (chat_request_passes_checks st [] "Add a wall"
                                       (JObj []) ∅)))) Hvalid).
Defined.
